(** * StructuraXR: support-graph validator and heuristic stress engine

    A shallow embedding of the two algorithmic cores of the web application:

    - class [StructureValidityAgent]: the support check, the validator and
      the height-ordered auto-fix pass;
    - classes [MaterialLibrary], [SimulationBlock] and [FEASimulationEngine]:
      the material table, the per-block stress computation, deformation,
      colouring and reset.

    The validity agent is embedded twice.  [ValidityAgent64] computes on
    binary64 numbers, with their rounding, signed zeros, infinities and
    NaN: what the agent accepts and where the fix pass puts a block is
    settled there.  [ValidityAgent] computes on exact rationals [Q]; it
    carries the properties of the sort and of the loops, which compare
    numbers and do not depend on how sums are rounded.  The stress engine
    computes on reals [R], since it takes square roots; rounding is outside
    that model. *)

From Stdlib Require Import Floats.
From Stdlib Require Import List ZArith QArith Qabs Qminmax Reals Psatz.
From Stdlib Require Import Bool String Permutation Sorted.
Import ListNotations.
Set Warnings "-inexact-float".

(** ** The validity agent on exact numbers *)

Module ValidityAgent.
Local Open Scope Q_scope.

(** [interface Block { type: string; pos: number[]; size: number[] }].
    Positions and sizes are the three-element arrays the scene builder
    produces; [pos] is the centre of the box and its second entry is "up". *)
Record Block : Type := mkBlock
  { type : string;
    pos : Q * Q * Q;
    size : Q * Q * Q }.

Definition posY (b : Block) : Q := let '(_, y, _) := pos b in y.
Definition height (b : Block) : Q := let '(_, h, _) := size b in h.

(** [block.pos[1] = v] *)
Definition setPosY (b : Block) (v : Q) : Block :=
  let '(x, _, z) := pos b in
  {| type := type b; pos := (x, v, z); size := size b |}.

(** Strict comparison of two numbers, as a boolean. *)
Definition Qltb (a b : Q) : bool := negb (Qle_bool b a).

(** [checkOverlap(min1, max1, min2, max2)] *)
Definition checkOverlap (min1 max1 min2 max2 : Q) : bool :=
  negb (Qltb max1 min2 || Qltb max2 min1).

(** The horizontal test shared by [hasSupport] and [findSupportSurface]:
    the footprints overlap on the X axis and on the Z axis. *)
Definition footprintsOverlap (b other : Block) : bool :=
  let '(x, _, z) := pos b in
  let '(width, _, depth) := size b in
  let '(ox, _, oz) := pos other in
  let '(ow, _, od) := size other in
  let xOverlap := checkOverlap (x - width / 2) (x + width / 2)
                               (ox - ow / 2) (ox + ow / 2) in
  let zOverlap := checkOverlap (z - depth / 2) (z + depth / 2)
                               (oz - od / 2) (oz + od / 2) in
  xOverlap && zOverlap.

(** [onGround = Math.abs(y - height / 2) < 0.1] *)
Definition onGround (b : Block) : bool :=
  Qltb (Qabs (posY b - height b / 2)) 0.1.

(** [verticallyAligned = Math.abs(bottomY - otherTopY) < 0.1] *)
Definition verticallyAligned (b other : Block) : bool :=
  let bottomY := posY b - height b / 2 in
  let otherTopY := posY other + height other / 2 in
  Qltb (Qabs (bottomY - otherTopY)) 0.1.

(** One iteration of the search loop of [hasSupport]: does [other] carry [b]? *)
Definition supports (b other : Block) : bool :=
  if verticallyAligned b other then footprintsOverlap b other else false.

(** The [for] loop of [hasSupport], from index [i] on; the entry at
    [currentIndex] is skipped. *)
Fixpoint hasSupportFrom (b : Block) (rest : list Block) (i currentIndex : Z)
  : bool :=
  match rest with
  | [] => false
  | otherBlock :: tl =>
      if Z.eqb i currentIndex then hasSupportFrom b tl (i + 1)%Z currentIndex
      else if supports b otherBlock then true
      else hasSupportFrom b tl (i + 1)%Z currentIndex
  end.

(** [hasSupport(block, allBlocks, currentIndex)] *)
Definition hasSupport (b : Block) (allBlocks : list Block) (currentIndex : Z)
  : bool :=
  if onGround b then true else hasSupportFrom b allBlocks 0%Z currentIndex.

(** The messages pushed on [issues].  The text of the second one embeds the
    index and the position; it is kept structured here. *)
Inductive Issue : Type :=
  | NoBlocksInStructure
  | BlockIsFloating (i : nat) (p : Q * Q * Q).

Record Validation : Type := mkValidation
  { valid : bool;
    issues : list Issue }.

(** The checking loop of [validateStructure], from index [i] on. *)
Fixpoint validateFrom (blocks rest : list Block) (i : nat) : list Issue :=
  match rest with
  | [] => []
  | b :: tl =>
      if hasSupport b blocks (Z.of_nat i)
      then validateFrom blocks tl (S i)
      else BlockIsFloating i (pos b) :: validateFrom blocks tl (S i)
  end.

(** [validateStructure(blocks)] *)
Definition validateStructure (blocks : list Block) : Validation :=
  match blocks with
  | [] => {| valid := false; issues := [NoBlocksInStructure] |}
  | _ =>
      let issues := validateFrom blocks blocks 0 in
      {| valid := match issues with [] => true | _ => false end;
         issues := issues |}
  end.

(** [findSupportSurface(block, placedBlocks)] *)
Definition findSupportSurface (b : Block) (placedBlocks : list Block) : Q :=
  fold_left
    (fun highestSupport otherBlock =>
       if footprintsOverlap b otherBlock
       then Qmax highestSupport (posY otherBlock + height otherBlock / 2)
       else highestSupport)
    placedBlocks 0.

(** The entries [{ block, index, y: block.pos[1] }] that are sorted. *)
Record Item : Type := mkItem
  { block : Block;
    index : nat;
    y : Q }.

Fixpoint itemsFrom (i : nat) (blocks : list Block) : list Item :=
  match blocks with
  | [] => []
  | b :: tl => {| block := b; index := i; y := posY b |} :: itemsFrom (S i) tl
  end.

(** [.sort((a, b) => a.y - b.y)]: [Array.prototype.sort] is stable, so it is
    rendered as a stable insertion sort on the comparator's sign. *)
Fixpoint insertItem (a : Item) (l : list Item) : list Item :=
  match l with
  | [] => [a]
  | b :: tl => if Qle_bool (y a) (y b) then a :: l else b :: insertItem a tl
  end.

Definition sortByY (l : list Item) : list Item := fold_right insertItem [] l.

Definition sortedItems (blocks : list Block) : list Item :=
  sortByY (itemsFrom 0 blocks).

(** [sortedIndices] of [fixFloatingBlocks]. *)
Definition sortedIndices (blocks : list Block) : list nat :=
  map index (sortedItems blocks).

(** The body of the loop of [fixFloatingBlocks] for the copy of one block:
    the block is moved only when it has no support among [fixedBlocks]. *)
Definition fixBlock (b : Block) (fixedBlocks : list Block) : Block :=
  if negb (hasSupport b fixedBlocks (-1)%Z)
  then setPosY b (findSupportSurface b fixedBlocks + height b / 2)
  else b.

(** The loop over [sortedIndices]; each entry carries [blocks[index]]
    (lemma [sortedItems_lookup]). *)
Fixpoint fixLoop (todo : list Item) (fixedBlocks : list Block) : list Block :=
  match todo with
  | [] => fixedBlocks
  | it :: tl => fixLoop tl (fixedBlocks ++ [fixBlock (block it) fixedBlocks])
  end.

(** [fixFloatingBlocks(blocks)] *)
Definition fixFloatingBlocks (blocks : list Block) : list Block :=
  fixLoop (sortedItems blocks) [].

End ValidityAgent.

(** ** Vectors, meshes and colours of the rendering library

    The part of the scene-graph library the engine calls, on exact reals.
    A mesh hangs directly under the scene root, so its world position is
    its [position]. *)

Module Three.
Local Open Scope R_scope.

Record Vector3 : Type := mkVector3 { vx : R; vy : R; vz : R }.

Definition subVectors (a b : Vector3) : Vector3 :=
  {| vx := vx a - vx b; vy := vy a - vy b; vz := vz a - vz b |}.

Definition multiplyScalar (v : Vector3) (s : R) : Vector3 :=
  {| vx := vx v * s; vy := vy v * s; vz := vz v * s |}.

Definition dot (a b : Vector3) : R := vx a * vx b + vy a * vy b + vz a * vz b.

Definition length (v : Vector3) : R :=
  sqrt (vx v * vx v + vy v * vy v + vz v * vz v).

Definition distanceTo (a b : Vector3) : R := length (subVectors a b).

(** [normalize()] divides by [length() || 1]: the zero vector stays zero. *)
Definition normalize (v : Vector3) : Vector3 :=
  let l := length v in
  multiplyScalar v (1 / (if Req_dec_T l 0 then 1 else l)).

Record Mesh : Type := mkMesh { position : Vector3; scale : Vector3 }.

Definition getWorldPosition (m : Mesh) : Vector3 := position m.

Record Color : Type := mkColor { r : R; g : R; b : R }.

(** [SRGBToLinear(c)] of the library's colour management: the decoding
    curve of sRGB. *)
Definition SRGBToLinear (c : R) : R :=
  if Rlt_dec c 0.04045 then c * 0.0773993808
  else Rpower (c * 0.9478672986 + 0.0521327014) 2.4.

(** [new THREE.Color(hex)]: one byte per channel, scaled to [0, 1] and,
    the hexadecimal value being an sRGB colour, converted to the linear
    working colour space. *)
Definition colorHex (hex : Z) : Color :=
  {| r := SRGBToLinear (IZR (Z.land (Z.shiftr hex 16) 255) / 255);
     g := SRGBToLinear (IZR (Z.land (Z.shiftr hex 8) 255) / 255);
     b := SRGBToLinear (IZR (Z.land hex 255) / 255) |}.

(** [new THREE.Color().lerpColors(c1, c2, alpha)] *)
Definition lerpColors (c1 c2 : Color) (alpha : R) : Color :=
  {| r := r c1 + (r c2 - r c1) * alpha;
     g := g c1 + (g c2 - g c1) * alpha;
     b := b c1 + (b c2 - b c1) * alpha |}.

End Three.

(** ** Materials and simulation blocks *)

Module MaterialSystem.
Import Three.
Local Open Scope R_scope.

Inductive MaterialType : Type := STEEL | CONCRETE | WOOD | ALUMINUM.

Inductive BoundaryCondition : Type := FIXED | PINNED | FREE.

Inductive ForceType : Type := COMPRESSION | TENSION | SHEAR | BENDING.

Record MaterialProperties : Type := mkMaterial
  { materialType : MaterialType;
    density : R;
    maxCompression : R;
    maxTension : R;
    maxShear : R;
    youngsModulus : R }.

(** [MaterialLibrary.getMaterial(type)] *)
Definition getMaterial (t : MaterialType) : MaterialProperties :=
  match t with
  | STEEL =>
      {| materialType := STEEL; density := 7850; maxCompression := 400e6;
         maxTension := 400e6; maxShear := 250e6; youngsModulus := 200e9 |}
  | CONCRETE =>
      {| materialType := CONCRETE; density := 2400; maxCompression := 30e6;
         maxTension := 3e6; maxShear := 5e6; youngsModulus := 30e9 |}
  | WOOD =>
      {| materialType := WOOD; density := 600; maxCompression := 30e6;
         maxTension := 60e6; maxShear := 10e6; youngsModulus := 11e9 |}
  | ALUMINUM =>
      {| materialType := ALUMINUM; density := 2700; maxCompression := 300e6;
         maxTension := 300e6; maxShear := 200e6; youngsModulus := 69e9 |}
  end.

Record BlockProperties : Type := mkProperties
  { mesh : Mesh;
    material : MaterialProperties;
    boundaryCondition : BoundaryCondition;
    mass : R;
    volume : R;
    stress : R;
    failed : bool }.

Record SimulationBlock : Type := mkSimulationBlock
  { properties : BlockProperties;
    originalPosition : Vector3;
    originalScale : Vector3;
    deformationFactor : R }.

(** Field assignments on [this.properties]. *)
Definition setStress (blk : SimulationBlock) (v : R) : SimulationBlock :=
  let p := properties blk in
  {| properties :=
       {| mesh := mesh p; material := material p;
          boundaryCondition := boundaryCondition p; mass := mass p;
          volume := volume p; stress := v; failed := failed p |};
     originalPosition := originalPosition blk;
     originalScale := originalScale blk;
     deformationFactor := deformationFactor blk |}.

Definition setFailed (blk : SimulationBlock) (v : bool) : SimulationBlock :=
  let p := properties blk in
  {| properties :=
       {| mesh := mesh p; material := material p;
          boundaryCondition := boundaryCondition p; mass := mass p;
          volume := volume p; stress := stress p; failed := v |};
     originalPosition := originalPosition blk;
     originalScale := originalScale blk;
     deformationFactor := deformationFactor blk |}.

Definition setMesh (blk : SimulationBlock) (m : Mesh) : SimulationBlock :=
  let p := properties blk in
  {| properties :=
       {| mesh := m; material := material p;
          boundaryCondition := boundaryCondition p; mass := mass p;
          volume := volume p; stress := stress p; failed := failed p |};
     originalPosition := originalPosition blk;
     originalScale := originalScale blk;
     deformationFactor := deformationFactor blk |}.

Definition setDeformationFactor (blk : SimulationBlock) (v : R)
  : SimulationBlock :=
  {| properties := properties blk;
     originalPosition := originalPosition blk;
     originalScale := originalScale blk;
     deformationFactor := v |}.

(** The constructor; [boxSize] is the size of the mesh's bounding box, as
    [Box3.setFromObject(mesh).getSize] measures it. *)
Definition newSimulationBlock (m : Mesh) (boxSize : Vector3)
           (t : MaterialType) (boundary : BoundaryCondition)
  : SimulationBlock :=
  let mat := getMaterial t in
  let vol := vx boxSize * vy boxSize * vz boxSize in
  let mss := density mat * vol in
  {| properties :=
       {| mesh := m; material := mat; boundaryCondition := boundary;
          mass := mss; volume := vol; stress := 0; failed := false |};
     originalPosition := position m;
     originalScale := scale m;
     deformationFactor := 1 |}.

(** The [switch] of [calculateStress]. *)
Definition stressLimit (mat : MaterialProperties) (forceType : ForceType) : R :=
  match forceType with
  | COMPRESSION => maxCompression mat
  | TENSION => maxTension mat
  | SHEAR => maxShear mat
  | BENDING => Rmin (maxTension mat) (maxCompression mat)
  end.

(** [calculateStress(appliedForce, forceType)] *)
Definition calculateStress (blk : SimulationBlock) (appliedForce : R)
           (forceType : ForceType) : SimulationBlock :=
  let limit := stressLimit (material (properties blk)) forceType in
  let blk1 := setStress blk (Rabs appliedForce / limit) in
  if Rge_dec (stress (properties blk1)) 1
  then setFailed blk1 true
  else blk1.

(** [applyDeformation(scaleFactor)] *)
Definition applyDeformation (blk : SimulationBlock) (scaleFactor : R)
  : SimulationBlock :=
  match boundaryCondition (properties blk) with
  | FIXED => blk
  | _ =>
      let blk1 :=
        setDeformationFactor blk
          (1 + stress (properties blk) * 0.1 * scaleFactor) in
      setMesh blk1
        {| position := position (mesh (properties blk1));
           scale := multiplyScalar (originalScale blk1)
                                   (deformationFactor blk1) |}
  end.

(** [resetDeformation()] *)
Definition resetDeformation (blk : SimulationBlock) : SimulationBlock :=
  setDeformationFactor
    (setMesh blk {| position := originalPosition blk;
                    scale := originalScale blk |})
    1.

(** [reset()]; the emissive colour it clears is not part of the model. *)
Definition reset (blk : SimulationBlock) : SimulationBlock :=
  setFailed (setStress (resetDeformation blk) 0) false.

End MaterialSystem.

(** ** The simulation engine *)

Module FEASimulationEngine.
Import Three MaterialSystem.
Local Open Scope R_scope.

(** [interface ForceVector]; the arrow and the labels are display only. *)
Record ForceVector : Type := mkForceVector
  { id : nat;
    forcePosition : Vector3;
    direction : Vector3;
    magnitude : R }.

(** The engine: the registered blocks in insertion order of the [Map], and
    the private fields.  [gravity] is never assigned after its
    initialisation, so it is a constant. *)
Record Engine : Type := mkEngine
  { blocks : list SimulationBlock;
    deformationScale : R;
    currentForceVector : option ForceVector }.

Definition gravity : R := 9.81.

Definition newEngine : Engine :=
  {| blocks := []; deformationScale := 5; currentForceVector := None |}.

(** [alignment] of the callback of [runSimulation]. *)
Definition alignmentTo (forceVector : ForceVector) (m : Mesh) : R :=
  let meshPosition := getWorldPosition m in
  let directionToMesh :=
    normalize (subVectors meshPosition (forcePosition forceVector)) in
  dot directionToMesh (direction forceVector).

(** [effectiveForce] of the callback of [runSimulation]. *)
Definition effectiveForceOn (forceVector : ForceVector) (m : Mesh) : R :=
  let meshPosition := getWorldPosition m in
  let distanceToForce := distanceTo meshPosition (forcePosition forceVector) in
  let alignment := alignmentTo forceVector m in
  let distanceFactor := 1 / Rmax 1 (distanceToForce ^ 2) in
  magnitude forceVector * Rabs alignment * distanceFactor * 1e8.

(** The callback of [this.blocks.forEach] in [runSimulation], up to the
    colouring, which only writes vertex colours. *)
Definition simulateBlock (scaleFactor : R) (forceVector : ForceVector)
           (blk : SimulationBlock) : SimulationBlock :=
  let m := mesh (properties blk) in
  let alignment := alignmentTo forceVector m in
  let effectiveForce := effectiveForceOn forceVector m in
  let blk1 :=
    if Rgt_dec alignment 0.7 then calculateStress blk effectiveForce COMPRESSION
    else if Rlt_dec alignment (-0.7)
         then calculateStress blk effectiveForce TENSION
         else calculateStress blk effectiveForce SHEAR in
  let blk2 :=
    match boundaryCondition (properties blk1) with
    | FIXED => blk1
    | _ =>
        let gravitationalForce := mass (properties blk1) * gravity in
        let gravityStress :=
          gravitationalForce / maxCompression (material (properties blk1)) in
        setStress blk1 (stress (properties blk1) + gravityStress)
    end in
  applyDeformation blk2 scaleFactor.

Record SimulationResult : Type := mkSimulationResult
  { totalBlocks : nat;
    failedBlocks : nat;
    maxStress : R;
    results : list (R * bool) }.

(** [runSimulation(forceVector)]: the new engine state and the returned
    summary; entry [k] of [results] belongs to the mesh of block [k]. *)
Definition runSimulation (e : Engine) (forceVector : ForceVector)
  : Engine * SimulationResult :=
  let blocks' := map (simulateBlock (deformationScale e) forceVector)
                     (blocks e) in
  ({| blocks := blocks';
      deformationScale := deformationScale e;
      currentForceVector := Some forceVector |},
   {| totalBlocks := List.length blocks';
      failedBlocks :=
        List.length (filter (fun blk => failed (properties blk)) blocks');
      maxStress :=
        fold_left (fun acc blk => Rmax acc (stress (properties blk)))
                  blocks' 0;
      results :=
        map (fun blk => (stress (properties blk), failed (properties blk)))
            blocks' |}).

(** [getStressColor(stress, isFailed)] *)
Definition getStressColor (stress : R) (isFailed : bool) : Color :=
  if orb isFailed (if Rge_dec stress 1 then true else false)
  then colorHex 0xff0000
  else if Rlt_dec stress 0.3
  then lerpColors (colorHex 0x00ff00) (colorHex 0x88ff00) (stress / 0.3)
  else if Rlt_dec stress 0.6
  then lerpColors (colorHex 0x88ff00) (colorHex 0xffff00)
                  ((stress - 0.3) / 0.3)
  else lerpColors (colorHex 0xffff00) (colorHex 0xff8800)
                  ((stress - 0.6) / 0.4).

(** [resetSimulation()]; the colour clean-up is not part of the model. *)
Definition resetSimulation (e : Engine) : Engine :=
  {| blocks :=
       map (fun blk => setFailed (setStress (resetDeformation blk) 0) false)
           (blocks e);
     deformationScale := deformationScale e;
     currentForceVector := currentForceVector e |}.

(** [setDeformationScale(scale)] *)
Definition setDeformationScale (e : Engine) (s : R) : Engine :=
  {| blocks := blocks e;
     deformationScale := s;
     currentForceVector := currentForceVector e |}.

(** [clearVectors()] *)
Definition clearVectors (e : Engine) : Engine :=
  {| blocks := map reset (blocks e);
     deformationScale := deformationScale e;
     currentForceVector := None |}.

End FEASimulationEngine.

(** ** Vocabulary of the validator's properties *)

Module SupportGraph.
Import ValidityAgent.
Local Open Scope Q_scope.

(** Order of the sort keys. *)
Definition yLe (a b : Item) : Prop := y a <= y b.

(** [b'] is [b] with at most its [pos[1]] changed. *)
Definition repositioned (b b' : Block) : Prop :=
  exists v, b' = setPosY b v.

End SupportGraph.

(** ** Example structures *)

Module Scenes.
Import ValidityAgent.
Local Open Scope Q_scope.

Definition box (x py w h : Q) : Block :=
  {| type := "box"; pos := (x, py, 0); size := (w, h, 1) |}.

(** Two unit cubes, the upper one placed too high. *)
Definition misplacedStack : list Block := [box 0 0.5 1 1; box 0 5 1 1].

(** The same two cubes listed top first. *)
Definition topFirst : list Block := [box 0 5 1 1; box 0 0.5 1 1].

(** Two plates 5 cm thick, side by side in the air at the same height. *)
Definition hoveringPlates : list Block := [box 0 5 1 0.05; box 0.5 5 1 0.05].

End Scenes.

(** ** Vocabulary of the stress engine's properties *)

Module StressSpec.
Import Three MaterialSystem FEASimulationEngine.
Local Open Scope R_scope.

(** The material limit selected by the alignment thresholds. *)
Definition limitByAlignment (mat : MaterialProperties) (alignment : R) : R :=
  if Rgt_dec alignment 0.7 then maxCompression mat
  else if Rlt_dec alignment (-0.7) then maxTension mat
  else maxShear mat.

(** The stress ratio before self-weight, as the specification words it:
    [magnitude * |alignment| * (1 / max(1, distance^2)) * 1e8 / limit]. *)
Definition forceStressRatio (forceVector : ForceVector)
           (blk : SimulationBlock) : R :=
  let centroid := getWorldPosition (mesh (properties blk)) in
  let origin := forcePosition forceVector in
  let alignment :=
    dot (normalize (subVectors centroid origin)) (direction forceVector) in
  let distance := distanceTo centroid origin in
  magnitude forceVector * Rabs alignment * (1 / Rmax 1 (distance ^ 2)) * 1e8
  / limitByAlignment (material (properties blk)) alignment.

(** The self-weight term, added for every boundary condition but Fixed. *)
Definition selfWeightRatio (blk : SimulationBlock) : R :=
  match boundaryCondition (properties blk) with
  | FIXED => 0
  | _ => mass (properties blk) * 9.81
         / maxCompression (material (properties blk))
  end.

(** Every channel of the colour lies in [0, 1]. *)
Definition inGamut (c : Color) : Prop :=
  0 <= r c <= 1 /\ 0 <= g c <= 1 /\ 0 <= b c <= 1.

(** The material record of the block is an entry of the library. *)
Definition fromLibrary (blk : SimulationBlock) : Prop :=
  exists t, material (properties blk) = getMaterial t.

(** The methods of a block that write its fields. *)
Inductive BlockOp : Type :=
  | CalculateStress (appliedForce : R) (forceType : ForceType)
  | ApplyDeformation (scaleFactor : R)
  | ResetDeformation
  | Reset.

Definition applyBlockOp (blk : SimulationBlock) (op : BlockOp)
  : SimulationBlock :=
  match op with
  | CalculateStress f t => calculateStress blk f t
  | ApplyDeformation s => applyDeformation blk s
  | ResetDeformation => resetDeformation blk
  | Reset => reset blk
  end.

(** The methods of the engine that act on its registered blocks. *)
Inductive EngineOp : Type :=
  | RunSimulation (forceVector : ForceVector)
  | ResetSimulation
  | SetDeformationScale (s : R)
  | ClearVectors.

Definition applyEngineOp (e : Engine) (op : EngineOp) : Engine :=
  match op with
  | RunSimulation fv => fst (runSimulation e fv)
  | ResetSimulation => resetSimulation e
  | SetDeformationScale s => setDeformationScale e s
  | ClearVectors => clearVectors e
  end.

End StressSpec.

(** ** Example simulations *)

Module Loads.
Import Three MaterialSystem FEASimulationEngine.
Local Open Scope R_scope.

Definition unitScale : Vector3 := {| vx := 1; vy := 1; vz := 1 |}.

(** A mesh centred at height [h] above the origin. *)
Definition meshAt (h : R) : Mesh :=
  {| position := {| vx := 0; vy := h; vz := 0 |}; scale := unitScale |}.

(** A force pointing straight down from height [h] above the origin. *)
Definition pushDown (h m : R) : ForceVector :=
  {| id := 1;
     forcePosition := {| vx := 0; vy := h; vz := 0 |};
     direction := {| vx := 0; vy := -1; vz := 0 |};
     magnitude := m |}.

(** A free concrete block 12 m on a side, resting on the ground. *)
Definition concreteMass : SimulationBlock :=
  newSimulationBlock (meshAt 6) {| vx := 12; vy := 12; vz := 12 |}
                     CONCRETE FREE.

Definition massEngine : Engine :=
  {| blocks := [concreteMass]; deformationScale := 5;
     currentForceVector := None |}.

(** A free steel cube of 1 m, resting on the ground. *)
Definition steelCube : SimulationBlock :=
  newSimulationBlock (meshAt 0.5) unitScale STEEL FREE.

(** The same cube as an anchor. *)
Definition steelAnchor : SimulationBlock :=
  newSimulationBlock (meshAt 0.5) unitScale STEEL FIXED.

Definition cubeEngine : Engine :=
  {| blocks := [steelCube]; deformationScale := 5;
     currentForceVector := None |}.

End Loads.

(** ** Vocabulary of the additional validator properties *)

Module OrderSpec.

(** [a] occurs somewhere before [b] in [l]. *)
Definition occursBefore {A : Type} (a b : A) (l : list A) : Prop :=
  exists l1 l2 l3, l = l1 ++ a :: l2 ++ b :: l3.

End OrderSpec.

(** ** Per-vertex stress and the block's own colour ramp *)

Module VertexField.
Import Three MaterialSystem FEASimulationEngine.
Local Open Scope R_scope.

(** [FEASimulationEngine.calculateVertexStress(vertex, block)] *)
Definition calculateVertexStress (e : Engine) (vertex : Vector3)
           (blk : SimulationBlock) : R :=
  match currentForceVector e with
  | None => stress (properties blk)
  | Some forceVector =>
      let distToForce := distanceTo vertex (forcePosition forceVector) in
      let blockCenter := getWorldPosition (mesh (properties blk)) in
      let blockDistToForce :=
        distanceTo blockCenter (forcePosition forceVector) in
      let stressRatio :=
        if Rgt_dec blockDistToForce 0.01
        then distToForce / blockDistToForce else 1 in
      let localStressMultiplier := Rmax 0.5 (Rmin 1.5 (2 - stressRatio)) in
      let baseStress := stress (properties blk) in
      let vertexStress := baseStress * localStressMultiplier in
      Rmin vertexStress 2
  end.

(** [SimulationBlock.getVonMisesColor()] *)
Definition getVonMisesColor (blk : SimulationBlock) : Color :=
  let stress := stress (properties blk) in
  if Rlt_dec stress 0.3
  then lerpColors (colorHex 0x00ff00) (colorHex 0x88ff00) (stress / 0.3)
  else if Rlt_dec stress 0.6
  then lerpColors (colorHex 0x88ff00) (colorHex 0xffff00)
                  ((stress - 0.3) / 0.3)
  else if Rlt_dec stress 1
  then lerpColors (colorHex 0xffff00) (colorHex 0xff0000)
                  ((stress - 0.6) / 0.4)
  else colorHex 0xff0000.

End VertexField.

(** ** The gradient stress visualizer *)

Module GradientStressVisualizer.
Import Three FEASimulationEngine.
Local Open Scope R_scope.

(** [stressIntensity] of [applyGradientStress(mesh, forceVector)] *)
Definition stressIntensity (m : Mesh) (forceVector : ForceVector) : R :=
  let meshPosition := getWorldPosition m in
  let distance := distanceTo meshPosition (forcePosition forceVector) in
  let meshToForce :=
    normalize (subVectors meshPosition (forcePosition forceVector)) in
  let alignment := dot meshToForce (direction forceVector) in
  if Rlt_dec distance 5
  then
    let distanceFactor := 1 - distance / 5 in
    let alignmentFactor := Rmax 0 alignment in
    distanceFactor * alignmentFactor * magnitude forceVector
  else 0.

(** [vertexStress] of the loop of [applyGradientShader], for the vertex at
    world position [localToWorld]. *)
Definition vertexStress (localToWorld : Vector3) (stressIntensity : R)
           (forceVector : ForceVector) : R :=
  let distToForce := distanceTo localToWorld (forcePosition forceVector) in
  let dirToVertex :=
    normalize (subVectors localToWorld (forcePosition forceVector)) in
  let alignment := dot dirToVertex (direction forceVector) in
  if andb (if Rlt_dec distToForce 3 then true else false)
          (if Rgt_dec alignment 0 then true else false)
  then
    let distFactor := 1 - distToForce / 3 in
    distFactor * alignment * stressIntensity
  else 0.

(** [getStressColor(stress)] of the visualizer *)
Definition getStressColor (stress : R) : Color :=
  if Rlt_dec stress 0.5
  then lerpColors (colorHex 0x00aaff) (colorHex 0xffff00) (stress * 2)
  else lerpColors (colorHex 0xffff00) (colorHex 0xff0000)
                  ((stress - 0.5) * 2).

End GradientStressVisualizer.

(** ** The force vector manager

    The keyboard and mouse placement of a force vector, and the creation of
    one from the VR controllers.  Arrows and labels are display only; of the
    temporary arrow the model keeps its position, which is the origin of
    the vector once confirmed. *)

Module ForceVectorManager.
Import Three FEASimulationEngine.
Local Open Scope R_scope.

Record Manager : Type := mkManager
  { vectors : list ForceVector;
    nextId : nat;
    activeVector : option ForceVector;
    isPlacingVector : bool;
    isWaitingForClick : bool;
    tempArrow : option Vector3;
    tempDirection : Vector3;
    tempMagnitude : R }.

(** The field initialisers of the class. *)
Definition newManager : Manager :=
  {| vectors := []; nextId := 1; activeVector := None;
     isPlacingVector := false; isWaitingForClick := false;
     tempArrow := None;
     tempDirection := {| vx := 0; vy := -1; vz := 0 |};
     tempMagnitude := 1.5 |}.

Definition keyIs (key name : string) : bool := String.eqb key name.

Definition add (a c : Vector3) : Vector3 :=
  {| vx := vx a + vx c; vy := vy a + vy c; vz := vz a + vz c |}.

(** [startPlacingVector()] *)
Definition startPlacingVector (m : Manager) : Manager :=
  {| vectors := vectors m; nextId := nextId m;
     activeVector := activeVector m;
     isPlacingVector := isPlacingVector m; isWaitingForClick := true;
     tempArrow := tempArrow m; tempDirection := tempDirection m;
     tempMagnitude := tempMagnitude m |}.

(** [handleMouseClick(event)], for the point the ray cast returns; it
    calls [createTemporaryArrow], which resets direction and magnitude. *)
Definition handleMouseClick (m : Manager) (intersectPoint : Vector3)
  : Manager :=
  let point := {| vx := vx intersectPoint; vy := 1.5;
                  vz := vz intersectPoint |} in
  {| vectors := vectors m; nextId := nextId m;
     activeVector := activeVector m;
     isPlacingVector := true; isWaitingForClick := false;
     tempArrow := Some point;
     tempDirection := {| vx := 0; vy := -1; vz := 0 |};
     tempMagnitude := 1.5 |}.

Definition setTempArrow (m : Manager) (p : Vector3) : Manager :=
  {| vectors := vectors m; nextId := nextId m;
     activeVector := activeVector m;
     isPlacingVector := isPlacingVector m;
     isWaitingForClick := isWaitingForClick m;
     tempArrow := Some p; tempDirection := tempDirection m;
     tempMagnitude := tempMagnitude m |}.

Definition setTempDirection (m : Manager) (d : Vector3) : Manager :=
  {| vectors := vectors m; nextId := nextId m;
     activeVector := activeVector m;
     isPlacingVector := isPlacingVector m;
     isWaitingForClick := isWaitingForClick m;
     tempArrow := tempArrow m; tempDirection := d;
     tempMagnitude := tempMagnitude m |}.

Definition setTempMagnitude (m : Manager) (v : R) : Manager :=
  {| vectors := vectors m; nextId := nextId m;
     activeVector := activeVector m;
     isPlacingVector := isPlacingVector m;
     isWaitingForClick := isWaitingForClick m;
     tempArrow := tempArrow m; tempDirection := tempDirection m;
     tempMagnitude := v |}.

(** How a [case] of the [switch] of [adjustVectorDirection] ends: with
    [break], leaving a new direction to normalise, or with [return]. *)
Inductive SwitchExit : Type :=
  | Break (newDir : Vector3)
  | Return (m : Manager).

(** [adjustVectorDirection(key)] *)
Definition adjustVectorDirection (m : Manager) (key : string) : Manager :=
  match tempArrow m with
  | None => m
  | Some arrowPosition =>
      if keyIs key "a" || keyIs key "A"
      then setTempArrow m
             (add arrowPosition (multiplyScalar (tempDirection m) 0.3))
      else if keyIs key "x" || keyIs key "X"
      then setTempArrow m
             {| vx := vx arrowPosition; vy := vy arrowPosition + 0.3;
                vz := vz arrowPosition |}
      else
        let newDir := tempDirection m in
        let exit :=
          if keyIs key "ArrowUp"
          then Break {| vx := vx newDir; vy := vy newDir + 0.2;
                        vz := vz newDir |}
          else if keyIs key "ArrowDown"
          then Break {| vx := vx newDir; vy := vy newDir - 0.2;
                        vz := vz newDir |}
          else if keyIs key "ArrowLeft"
          then Break {| vx := vx newDir - 0.2; vy := vy newDir;
                        vz := vz newDir |}
          else if keyIs key "ArrowRight"
          then Break {| vx := vx newDir + 0.2; vy := vy newDir;
                        vz := vz newDir |}
          else if keyIs key "w" || keyIs key "W"
          then Break {| vx := vx newDir; vy := vy newDir;
                        vz := vz newDir - 0.2 |}
          else if keyIs key "s" || keyIs key "S"
          then Break {| vx := vx newDir; vy := vy newDir;
                        vz := vz newDir + 0.2 |}
          else if keyIs key "+" || keyIs key "="
          then Return (setTempMagnitude m (Rmin (tempMagnitude m + 0.5) 5))
          else if keyIs key "-" || keyIs key "_"
          then Return (setTempMagnitude m (Rmax (tempMagnitude m - 0.5) 0.5))
          else Break newDir in
        match exit with
        | Break newDir' => setTempDirection m (normalize newDir')
        | Return m' => m'
        end
  end.

(** [confirmVector()] *)
Definition confirmVector (m : Manager) : Manager :=
  match tempArrow m with
  | None => m
  | Some origin =>
      let vector := {| id := nextId m; forcePosition := origin;
                       direction := tempDirection m;
                       magnitude := tempMagnitude m |} in
      {| vectors := vectors m ++ [vector]; nextId := S (nextId m);
         activeVector := Some vector;
         isPlacingVector := false;
         isWaitingForClick := isWaitingForClick m;
         tempArrow := None; tempDirection := tempDirection m;
         tempMagnitude := tempMagnitude m |}
  end.

(** [cancelPlacing()] *)
Definition cancelPlacing (m : Manager) : Manager :=
  {| vectors := vectors m; nextId := nextId m;
     activeVector := activeVector m;
     isPlacingVector := false; isWaitingForClick := false;
     tempArrow := None; tempDirection := tempDirection m;
     tempMagnitude := tempMagnitude m |}.

(** [clearVectors()] *)
Definition clearVectors (m : Manager) : Manager :=
  {| vectors := []; nextId := nextId m; activeVector := None;
     isPlacingVector := false;
     isWaitingForClick := isWaitingForClick m;
     tempArrow := None; tempDirection := tempDirection m;
     tempMagnitude := tempMagnitude m |}.

(** [createVectorFromVR(position, direction, magnitude)] *)
Definition createVectorFromVR (m : Manager) (position direction : Vector3)
           (magnitude : R) : Manager :=
  let vector := {| id := nextId m; forcePosition := position;
                   direction := direction; magnitude := magnitude |} in
  {| vectors := vectors m ++ [vector]; nextId := S (nextId m);
     activeVector := Some vector;
     isPlacingVector := isPlacingVector m;
     isWaitingForClick := isWaitingForClick m;
     tempArrow := tempArrow m; tempDirection := tempDirection m;
     tempMagnitude := tempMagnitude m |}.

(** [XRControllerManager.confirmEndPoint], the only caller of
    [createVectorFromVR], for the start point it holds and the end point
    the controller points at. *)
Definition confirmEndPoint (m : Manager) (startPosition endPosition : Vector3)
  : Manager :=
  let direction := subVectors endPosition startPosition in
  let magnitude := Three.length direction in
  createVectorFromVR m startPosition (normalize direction) magnitude.

(** [getVectorById(id)] *)
Definition getVectorById (m : Manager) (i : nat) : option ForceVector :=
  find (fun v => Nat.eqb (id v) i) (vectors m).

(** The [keydown] listener. *)
Definition onKeyDown (m : Manager) (key : string) : Manager :=
  if keyIs key "f" || keyIs key "F"
  then
    if negb (isPlacingVector m) && negb (isWaitingForClick m)
    then startPlacingVector m
    else if isPlacingVector m then confirmVector m else m
  else if keyIs key "Escape"
  then cancelPlacing m
  else if isPlacingVector m then adjustVectorDirection m key else m.

(** The [click] listener. *)
Definition onClick (m : Manager) (intersectPoint : Vector3) : Manager :=
  if isWaitingForClick m then handleMouseClick m intersectPoint else m.

(** What can happen to a manager. *)
Inductive Event : Type :=
  | KeyDown (key : string)
  | Click (intersectPoint : Vector3)
  | EndPointConfirmed (startPosition endPosition : Vector3)
  | VectorsCleared.

Definition step (m : Manager) (ev : Event) : Manager :=
  match ev with
  | KeyDown key => onKeyDown m key
  | Click p => onClick m p
  | EndPointConfirmed s e => confirmEndPoint m s e
  | VectorsCleared => clearVectors m
  end.

(** The manager after a sequence of events, from construction. *)
Definition run (events : list Event) : Manager :=
  fold_left step events newManager.

(** No vector comes from the VR controllers. *)
Definition keyboardOnly (events : list Event) : Prop :=
  Forall (fun ev => match ev with
                    | EndPointConfirmed _ _ => False
                    | _ => True
                    end) events.

End ForceVectorManager.

(** ** Vocabulary of the manager's properties *)

Module ManagerSpec.
Import Three FEASimulationEngine.
Local Open Scope R_scope.

(** A force the engine can be run with: its magnitude is not negative, and
    its direction is a unit vector unless the magnitude is 0. *)
Definition admissibleForce (v : ForceVector) : Prop :=
  0 <= magnitude v
  /\ (Three.length (direction v) = 1 \/ magnitude v = 0).

(** A force as the keyboard placement produces it. *)
Definition keyboardForce (v : ForceVector) : Prop :=
  0.5 <= magnitude v <= 5 /\ Three.length (direction v) = 1.

End ManagerSpec.

(** ** Example placements *)

Module Placements.
Import Three FEASimulationEngine ForceVectorManager.
Local Open Scope R_scope.

(** Start placing, click, lengthen once, tilt left, confirm. *)
Definition tiltedPlacement : list Event :=
  [KeyDown "f"; Click {| vx := 2; vy := 0; vz := 1 |}; KeyDown "+";
   KeyDown "ArrowLeft"; KeyDown "f"].

(** The same, followed by a vector drawn with the VR controllers. *)
Definition mixedPlacement : list Event :=
  tiltedPlacement
  ++ [EndPointConfirmed {| vx := 0; vy := 2; vz := 0 |}
                        {| vx := 0; vy := 0; vz := 0 |}].

End Placements.

(** ** The engine's block registry and the stress test that fills it

    [FEASimulationEngine.blocks] is a [Map] keyed by mesh objects.  A mesh
    object is named by a handle; the entries are kept in insertion order,
    which is the order [forEach] visits them in. *)

Module BlockRegistry.
Import Three MaterialSystem FEASimulationEngine.
Local Open Scope R_scope.

Definition MeshRef : Type := nat.

(** The engine with its keys: [entries] pairs each registered mesh with its
    block. *)
Record Registry : Type := mkRegistry
  { entries : list (MeshRef * SimulationBlock);
    registryScale : R;
    registryForce : option ForceVector }.

(** The engine of the previous section: the blocks without their keys. *)
Definition toEngine (reg : Registry) : Engine :=
  {| blocks := map snd (entries reg);
     deformationScale := registryScale reg;
     currentForceVector := registryForce reg |}.

(** [Map.prototype.set]: an existing key keeps its place. *)
Fixpoint mapSet (l : list (MeshRef * SimulationBlock)) (key : MeshRef)
         (blk : SimulationBlock) : list (MeshRef * SimulationBlock) :=
  match l with
  | [] => [(key, blk)]
  | (k, old) :: tl =>
      if Nat.eqb k key then (k, blk) :: tl else (k, old) :: mapSet tl key blk
  end.

(** [Map.prototype.get] *)
Fixpoint mapGet (l : list (MeshRef * SimulationBlock)) (key : MeshRef)
  : option SimulationBlock :=
  match l with
  | [] => None
  | (k, blk) :: tl => if Nat.eqb k key then Some blk else mapGet tl key
  end.

(** [Map.prototype.delete] *)
Definition mapDelete (l : list (MeshRef * SimulationBlock)) (key : MeshRef)
  : list (MeshRef * SimulationBlock) :=
  filter (fun kv => negb (Nat.eqb (fst kv) key)) l.

(** [addBlock(mesh, material, boundary)], for the mesh object [key] in
    state [m] with measured bounding box [boxSize]. *)
Definition addBlock (reg : Registry) (key : MeshRef) (m : Mesh)
           (boxSize : Vector3) (material : MaterialType)
           (boundary : BoundaryCondition) : Registry :=
  let blk := newSimulationBlock m boxSize material boundary in
  {| entries := mapSet (entries reg) key blk;
     registryScale := registryScale reg;
     registryForce := registryForce reg |}.

(** [removeBlock(mesh)] *)
Definition removeBlock (reg : Registry) (key : MeshRef) : Registry :=
  {| entries := mapDelete (entries reg) key;
     registryScale := registryScale reg;
     registryForce := registryForce reg |}.

(** [getBlock(mesh)] *)
Definition getBlock (reg : Registry) (key : MeshRef)
  : option SimulationBlock :=
  mapGet (entries reg) key.

(** [getAllBlocks()] *)
Definition getAllBlocks (reg : Registry) : list SimulationBlock :=
  map snd (entries reg).

(** An entry of [allObjects] in the stress test: a mesh, with its handle,
    its state and its bounding box, or some other object. *)
Inductive SceneObject : Type :=
  | MeshObject (key : MeshRef) (m : Mesh) (boxSize : Vector3)
  | OtherObject.

(** The auto-registration loop of the stress test. *)
Definition autoRegister (reg : Registry) (allObjects : list SceneObject)
  : Registry :=
  fold_left
    (fun acc obj =>
       match obj with
       | MeshObject key m boxSize =>
           match getBlock acc key with
           | None => addBlock acc key m boxSize STEEL FREE
           | Some _ => acc
           end
       | OtherObject => acc
       end)
    allObjects reg.

(** [runSimulation] on the keyed engine: the blocks keep their keys, and
    [results] is keyed like the blocks. *)
Definition runKeyed (reg : Registry) (forceVector : ForceVector)
  : Registry * SimulationResult * list (MeshRef * (R * bool)) :=
  let '(e', res) := runSimulation (toEngine reg) forceVector in
  ({| entries := combine (map fst (entries reg)) (blocks e');
      registryScale := deformationScale e';
      registryForce := currentForceVector e' |},
   res,
   combine (map fst (entries reg)) (results res)).

(** [runStressTest] of the application: nothing happens without an active
    vector; otherwise unregistered meshes are registered and the
    simulation is run with the active vector. *)
Definition runStressTest (activeVector : option ForceVector) (reg : Registry)
           (allObjects : list SceneObject)
  : Registry * option SimulationResult :=
  match activeVector with
  | None => (reg, None)
  | Some forceVector =>
      let reg1 := autoRegister reg allObjects in
      let '(reg2, res, _) := runKeyed reg1 forceVector in
      (reg2, Some res)
  end.

End BlockRegistry.

(** ** Vocabulary of the additional engine properties *)

Module ForceSpec.
Import Three FEASimulationEngine.
Local Open Scope R_scope.

(** The same force pointing the other way. *)
Definition reverseForce (fv : ForceVector) : ForceVector :=
  {| id := id fv; forcePosition := forcePosition fv;
     direction := multiplyScalar (direction fv) (-1);
     magnitude := magnitude fv |}.

End ForceSpec.

(** ** The validity agent on binary64 numbers

    The same class with its numbers as the engine computes them: IEEE 754
    binary64 values with round-to-nearest-even, signed zeros, infinities
    and NaN.  Literals such as [0.1] denote the nearest binary64 value, as
    they do in the source. *)

Module Math.
Local Open Scope float_scope.

(** [Math.abs(x)] *)
Definition abs (x : float) : float := PrimFloat.abs x.

(** [Math.max(a, b)]: NaN when an argument is NaN (binary64 values carry a
    single NaN), and [+0] above [-0]. *)
Definition max (a b : float) : float :=
  if PrimFloat.is_nan a then a
  else if PrimFloat.is_nan b then b
  else if a <? b then b
  else if b <? a then a
  else if PrimFloat.get_sign a then b else a.

End Math.

Module ValidityAgent64.
Local Open Scope float_scope.

(** [interface Block { type: string; pos: number[]; size: number[] }] *)
Record Block : Type := mkBlock
  { type : string;
    pos : float * float * float;
    size : float * float * float }.

Definition posY (b : Block) : float := let '(_, y, _) := pos b in y.
Definition height (b : Block) : float := let '(_, h, _) := size b in h.

(** [block.pos[1] = v] *)
Definition setPosY (b : Block) (v : float) : Block :=
  let '(x, _, z) := pos b in
  {| type := type b; pos := (x, v, z); size := size b |}.

(** [checkOverlap(min1, max1, min2, max2)] *)
Definition checkOverlap (min1 max1 min2 max2 : float) : bool :=
  negb ((max1 <? min2) || (max2 <? min1)).

(** The horizontal test shared by [hasSupport] and [findSupportSurface]. *)
Definition footprintsOverlap (b other : Block) : bool :=
  let '(x, _, z) := pos b in
  let '(width, _, depth) := size b in
  let '(ox, _, oz) := pos other in
  let '(ow, _, od) := size other in
  let xOverlap := checkOverlap (x - width / 2) (x + width / 2)
                               (ox - ow / 2) (ox + ow / 2) in
  let zOverlap := checkOverlap (z - depth / 2) (z + depth / 2)
                               (oz - od / 2) (oz + od / 2) in
  xOverlap && zOverlap.

(** [onGround = Math.abs(y - height / 2) < 0.1] *)
Definition onGround (b : Block) : bool :=
  Math.abs (posY b - height b / 2) <? 0.1.

(** [verticallyAligned = Math.abs(bottomY - otherTopY) < 0.1] *)
Definition verticallyAligned (b other : Block) : bool :=
  let bottomY := posY b - height b / 2 in
  let otherTopY := posY other + height other / 2 in
  Math.abs (bottomY - otherTopY) <? 0.1.

(** One iteration of the search loop of [hasSupport]. *)
Definition supports (b other : Block) : bool :=
  if verticallyAligned b other then footprintsOverlap b other else false.

(** The [for] loop of [hasSupport], from index [i] on; the entry at
    [currentIndex] is skipped. *)
Fixpoint hasSupportFrom (b : Block) (rest : list Block) (i currentIndex : Z)
  : bool :=
  match rest with
  | [] => false
  | otherBlock :: tl =>
      if Z.eqb i currentIndex then hasSupportFrom b tl (i + 1)%Z currentIndex
      else if supports b otherBlock then true
      else hasSupportFrom b tl (i + 1)%Z currentIndex
  end.

(** [hasSupport(block, allBlocks, currentIndex)] *)
Definition hasSupport (b : Block) (allBlocks : list Block) (currentIndex : Z)
  : bool :=
  if onGround b then true else hasSupportFrom b allBlocks 0%Z currentIndex.

(** The messages pushed on [issues], kept structured. *)
Inductive Issue : Type :=
  | NoBlocksInStructure
  | BlockIsFloating (i : nat) (p : float * float * float).

Record Validation : Type := mkValidation
  { valid : bool;
    issues : list Issue }.

(** The checking loop of [validateStructure], from index [i] on. *)
Fixpoint validateFrom (blocks rest : list Block) (i : nat) : list Issue :=
  match rest with
  | [] => []
  | b :: tl =>
      if hasSupport b blocks (Z.of_nat i)
      then validateFrom blocks tl (S i)
      else BlockIsFloating i (pos b) :: validateFrom blocks tl (S i)
  end.

(** [validateStructure(blocks)] *)
Definition validateStructure (blocks : list Block) : Validation :=
  match blocks with
  | [] => {| valid := false; issues := [NoBlocksInStructure] |}
  | _ =>
      let issues := validateFrom blocks blocks 0 in
      {| valid := match issues with [] => true | _ => false end;
         issues := issues |}
  end.

(** [topY = oy + oh / 2] *)
Definition topY (other : Block) : float := posY other + height other / 2.

(** [findSupportSurface(block, placedBlocks)] *)
Definition findSupportSurface (b : Block) (placedBlocks : list Block) : float :=
  fold_left
    (fun highestSupport otherBlock =>
       if footprintsOverlap b otherBlock
       then Math.max highestSupport (topY otherBlock)
       else highestSupport)
    placedBlocks 0.

(** The entries [{ block, index, y: block.pos[1] }] that are sorted. *)
Record Item : Type := mkItem
  { block : Block;
    index : nat;
    y : float }.

Fixpoint itemsFrom (i : nat) (blocks : list Block) : list Item :=
  match blocks with
  | [] => []
  | b :: tl => {| block := b; index := i; y := posY b |} :: itemsFrom (S i) tl
  end.

(** [.sort((a, b) => a.y - b.y)], as a stable insertion sort: an entry
    moves behind another only when the comparator's value is positive (a
    NaN value counts as [+0]). *)
Fixpoint insertItem (a : Item) (l : list Item) : list Item :=
  match l with
  | [] => [a]
  | b :: tl => if 0 <? y a - y b then b :: insertItem a tl else a :: l
  end.

Definition sortByY (l : list Item) : list Item := fold_right insertItem [] l.

Definition sortedItems (blocks : list Block) : list Item :=
  sortByY (itemsFrom 0 blocks).

(** [sortedIndices] of [fixFloatingBlocks]. *)
Definition sortedIndices (blocks : list Block) : list nat :=
  map index (sortedItems blocks).

(** The body of the loop of [fixFloatingBlocks] for the copy of one block. *)
Definition fixBlock (b : Block) (fixedBlocks : list Block) : Block :=
  if negb (hasSupport b fixedBlocks (-1)%Z)
  then setPosY b (findSupportSurface b fixedBlocks + height b / 2)
  else b.

(** The loop over [sortedIndices]; each entry carries [blocks[index]]. *)
Fixpoint fixLoop (todo : list Item) (fixedBlocks : list Block) : list Block :=
  match todo with
  | [] => fixedBlocks
  | it :: tl => fixLoop tl (fixedBlocks ++ [fixBlock (block it) fixedBlocks])
  end.

(** [fixFloatingBlocks(blocks)] *)
Definition fixFloatingBlocks (blocks : list Block) : list Block :=
  fixLoop (sortedItems blocks) [].

End ValidityAgent64.

(** ** The array reads of the validity agent

    The loops of the class as they are written, by index.  Reading a
    property of [blocks[i]] throws a [TypeError] when the index is out of
    range; every other operation of the class returns for all numbers.  The
    functions below make that one way to throw explicit. *)

Module ArrayReads.
Import ValidityAgent64.

(** How a call completes. *)
Inductive Completion (A : Type) : Type :=
  | Returns (a : A)
  | Throws.
Arguments Returns {A} a.
Arguments Throws {A}.

(** [for (let i = 0; i < allBlocks.length; i++)] of [hasSupport], with
    [steps] iterations left. *)
Fixpoint hasSupportLoop (b : Block) (allBlocks : list Block) (currentIndex : Z)
         (steps i : nat) : Completion bool :=
  match steps with
  | O => Returns false
  | S steps' =>
      if Z.eqb (Z.of_nat i) currentIndex
      then hasSupportLoop b allBlocks currentIndex steps' (S i)
      else
        match nth_error allBlocks i with
        | None => Throws
        | Some otherBlock =>
            if supports b otherBlock then Returns true
            else hasSupportLoop b allBlocks currentIndex steps' (S i)
        end
  end.

(** [hasSupport(block, allBlocks, currentIndex)] *)
Definition hasSupport (b : Block) (allBlocks : list Block) (currentIndex : Z)
  : Completion bool :=
  if onGround b then Returns true
  else hasSupportLoop b allBlocks currentIndex (List.length allBlocks) 0.

(** [for (let i = 0; i < blocks.length; i++)] of [validateStructure]. *)
Fixpoint validateLoop (blocks : list Block) (steps i : nat)
  : Completion (list Issue) :=
  match steps with
  | O => Returns []
  | S steps' =>
      match nth_error blocks i with
      | None => Throws
      | Some b =>
          match hasSupport b blocks (Z.of_nat i) with
          | Throws => Throws
          | Returns supported =>
              match validateLoop blocks steps' (S i) with
              | Throws => Throws
              | Returns later =>
                  Returns (if supported then later
                           else BlockIsFloating i (pos b) :: later)
              end
          end
      end
  end.

(** [validateStructure(blocks)] *)
Definition validateStructure (blocks : list Block) : Completion Validation :=
  match blocks with
  | [] => Returns {| valid := false; issues := [NoBlocksInStructure] |}
  | _ =>
      match validateLoop blocks (List.length blocks) 0 with
      | Throws => Throws
      | Returns issues =>
          Returns {| valid := match issues with [] => true | _ => false end;
                     issues := issues |}
      end
  end.

(** [for (const index of sortedIndices)] of [fixFloatingBlocks]: the block
    is read back as [blocks[index]]. *)
Fixpoint fixLoop (blocks : list Block) (todo : list nat)
         (fixedBlocks : list Block) : Completion (list Block) :=
  match todo with
  | [] => Returns fixedBlocks
  | index :: tl =>
      match nth_error blocks index with
      | None => Throws
      | Some b =>
          match hasSupport b fixedBlocks (-1)%Z with
          | Throws => Throws
          | Returns supported =>
              let b' :=
                if negb supported
                then setPosY b (findSupportSurface b fixedBlocks + height b / 2)
                else b in
              fixLoop blocks tl (fixedBlocks ++ [b'])
          end
      end
  end.

(** [fixFloatingBlocks(blocks)] *)
Definition fixFloatingBlocks (blocks : list Block) : Completion (list Block) :=
  fixLoop blocks (sortedIndices blocks) [].

End ArrayReads.

(** ** Vocabulary of the binary64 properties *)

Module SupportGraph64.
Import ValidityAgent64.
Local Open Scope float_scope.

(** The rests-on relation of the support graph: the entry at index [i]
    rests on the different entry at index [j]. *)
Definition restsOn (blocks : list Block) (i j : nat) : Prop :=
  exists b c, nth_error blocks i = Some b /\ nth_error blocks j = Some c
              /\ j <> i /\ supports b c = true.

(** Every block is on the ground or rests on another block of the list. *)
Definition locallySupported (blocks : list Block) : Prop :=
  forall i b, nth_error blocks i = Some b ->
              onGround b = true \/ exists j, restsOn blocks i j.

(** Reachability from the ground plane along rests-on edges. *)
Inductive groundReachable (blocks : list Block) : nat -> Prop :=
  | reach_ground i b :
      nth_error blocks i = Some b -> onGround b = true ->
      groundReachable blocks i
  | reach_step i j :
      restsOn blocks i j -> groundReachable blocks j ->
      groundReachable blocks i.

(** Sizes are positive and no two blocks share a centre. *)
Definition nonDegenerate (blocks : list Block) : Prop :=
  Forall (fun b => let '(w, h, d) := size b in
                   (0 <? w) = true /\ (0 <? h) = true /\ (0 <? d) = true)
         blocks
  /\ NoDup (map pos blocks).


(** The bottom face of [b] as the validator recomputes it once the fix
    pass has put the block on a surface at height [s]:
    [(s + height / 2) - height / 2]. *)
Definition bottomOn (b : Block) (s : float) : float :=
  (s + height b / 2) - height b / 2.

(** Rounding keeps the block within the tolerance of the ground ... *)
Definition settlesOnGround (b : Block) : Prop :=
  (Math.abs (bottomOn b 0) <? 0.1) = true.

(** ... and of the top face of [c]. *)
Definition settlesOn (b c : Block) : Prop :=
  (Math.abs (bottomOn b (topY c) - topY c) <? 0.1) = true.

End SupportGraph64.

(** ** Example structures in binary64 *)

Module Scenes64.
Import ValidityAgent64.
Local Open Scope float_scope.

Definition box (x py w h : float) : Block :=
  {| type := "box"; pos := (x, py, 0); size := (w, h, 1) |}.

(** Two unit cubes, the upper one placed too high. *)
Definition misplacedStack : list Block := [box 0 0.5 1 1; box 0 5 1 1].

(** Two plates 5 cm thick, side by side in the air at the same height. *)
Definition hoveringPlates : list Block := [box 0 5 1 0.05; box 0.5 5 1 0.05].

(** The same with plates as thick as the tolerance. *)
Definition hoveringSlabs : list Block := [box 0 5 1 0.1; box 0.5 5 1 0.1].

(** A grounded column 5.02 m tall, a plate above its rim and a second plate
    beside the column that touches only the first plate. *)
Definition columnAndPlates : list Block :=
  [box 0 2.51 1 5.02; box 0.9 4.9 1 0.05; box 1.8 5 1 0.05].

(** A grounded slab 2^53 tall and a block far above it. *)
Definition tallSlab : list Block :=
  [box 0 0x1p52 1 0x1p53; box 0 0x1p60 1 1.8].

End Scenes64.

(** ** The caller of the validity agent

    The callback that the structure generator maps over the variants it
    receives: validate, fix when invalid, validate again. *)

Module VariantCheck.
Import ValidityAgent64.

(** Which of the three console branches the callback takes. *)
Inductive Outcome : Type :=
  | ValidNoFloatingBlocks
  | FixedSuccessfully
  | CouldNotBeFullyFixed.

(** The callback, on the [data] of one variant: the data it returns and the
    branch it logs. *)
Definition validateVariant (data : list Block) : list Block * Outcome :=
  let validation := validateStructure data in
  if negb (valid validation)
  then
    let fixedData := fixFloatingBlocks data in
    let revalidation := validateStructure fixedData in
    if valid revalidation
    then (fixedData, FixedSuccessfully)
    else (fixedData, CouldNotBeFullyFixed)
  else (data, ValidNoFloatingBlocks).

End VariantCheck.

(** ** Vocabulary of the additional binary64 properties *)

Module OrderSpec64.
Import ValidityAgent64.
Local Open Scope float_scope.

(** The comparator of the sort puts no block behind a later one:
    [a.y - b.y] is not positive for [a] listed before [b]. *)
Definition keyOrdered (blocks : list Block) : Prop :=
  StronglySorted (fun a b => (0 <? posY a - posY b) = false) blocks.

(** Every block has support among the blocks listed before it. *)
Definition carriedByEarlier (blocks : list Block) : Prop :=
  forall k b, nth_error blocks k = Some b ->
              hasSupport b (firstn k blocks) (-1) = true.

End OrderSpec64.

(** ** Proof steps for binary64 numbers *)

Module Binary64Tactics.

(** Case analysis on the comparisons of exponents and mantissas. *)
Ltac compare_cases :=
  repeat match goal with s : bool |- _ => destruct s end; simpl;
  try discriminate; auto;
  repeat match goal with
         | |- context [Z.compare ?a ?b] =>
             destruct (Z.compare_spec a b); subst; simpl
         end; try discriminate; auto; try lia;
  rewrite ?Pos.compare_cont_spec; unfold Pos.switch_Eq;
  repeat match goal with
         | |- context [Pos.compare ?a ?b] =>
             destruct (Pos.compare_spec a b); subst; simpl
         end; try discriminate; auto; try lia.

(** Two points differ when a test tells them apart. *)
Ltac distinct_points key :=
  repeat (constructor;
          [ let H := fresh in
            intros H; simpl in H;
            repeat (destruct H as [H|H]); try contradiction;
            apply (f_equal key) in H; vm_compute in H; discriminate H
          | ]);
  constructor.

End Binary64Tactics.

(** ** Facts about the validity agent *)

Section ValidityFacts.
Import ValidityAgent SupportGraph.
Local Open Scope Q_scope.

Lemma Qltb_lt (a b : Q) : Qltb a b = true <-> a < b.
Proof.
  unfold Qltb. rewrite negb_true_iff, <- not_true_iff_false, Qle_bool_iff.
  split; [apply Qnot_le_lt | apply Qlt_not_le].
Qed.

Lemma Qltb_ge (a b : Q) : Qltb a b = false <-> b <= a.
Proof.
  unfold Qltb. rewrite negb_false_iff. apply Qle_bool_iff.
Qed.

(** *** The stable sort *)

Lemma insertItem_perm (a : Item) (l : list Item) :
  Permutation (a :: l) (insertItem a l).
Proof.
  induction l as [|b tl IH]; simpl; auto.
  destruct (Qle_bool (y a) (y b)); auto.
  eapply perm_trans; [apply perm_swap|]. now constructor.
Qed.

Lemma sortByY_perm (l : list Item) : Permutation l (sortByY l).
Proof.
  induction l as [|a tl IH]; simpl; auto.
  eapply perm_trans; [|apply insertItem_perm]. now constructor.
Qed.

Lemma insertItem_sorted (a : Item) (l : list Item) :
  StronglySorted yLe l -> StronglySorted yLe (insertItem a l).
Proof.
  induction 1 as [|b tl Hs IH Hb]; simpl.
  - constructor; constructor.
  - destruct (Qle_bool (y a) (y b)) eqn:Hab.
    + apply Qle_bool_iff in Hab. constructor.
      * now constructor.
      * constructor; [exact Hab|].
        eapply Forall_impl; [|exact Hb]. intros c Hc. unfold yLe in *.
        eapply Qle_trans; eauto.
    + constructor; [exact IH|].
      assert (Hba : yLe b a).
      { unfold yLe. apply Qlt_le_weak, Qltb_lt. unfold Qltb. now rewrite Hab. }
      eapply Permutation_Forall; [apply insertItem_perm|].
      now constructor.
Qed.

Lemma sortByY_sorted (l : list Item) : StronglySorted yLe (sortByY l).
Proof.
  induction l as [|a tl IH]; simpl; [constructor | now apply insertItem_sorted].
Qed.

(** *** The sort entries *)

Lemma itemsFrom_In (i : nat) (blocks : list Block) (it : Item) :
  In it (itemsFrom i blocks) ->
  (i <= index it)%nat /\ nth_error blocks (index it - i) = Some (block it)
  /\ y it = posY (block it).
Proof.
  revert i. induction blocks as [|b tl IH]; intros i; simpl; [tauto|].
  intros [<-|H]; simpl.
  - rewrite Nat.sub_diag. auto.
  - destruct (IH _ H) as (Hle & Hn & Hy). repeat split; auto; [lia|].
    replace (index it - i)%nat with (S (index it - S i)) by lia. exact Hn.
Qed.

Lemma itemsFrom_nth (i k : nat) (blocks : list Block) (c : Block) :
  nth_error blocks k = Some c ->
  In {| block := c; index := i + k; y := posY c |} (itemsFrom i blocks).
Proof.
  revert i k. induction blocks as [|b tl IH]; intros i k; [destruct k; discriminate|].
  destruct k as [|k]; simpl.
  - intros [= ->]. left. now rewrite Nat.add_0_r.
  - intros H. right. replace (i + S k)%nat with (S i + k)%nat by lia.
    now apply IH.
Qed.

Lemma itemsFrom_block (i : nat) (blocks : list Block) :
  map block (itemsFrom i blocks) = blocks.
Proof.
  revert i. induction blocks as [|b tl IH]; intros i; simpl; [|rewrite IH]; auto.
Qed.

Lemma itemsFrom_index (i : nat) (blocks : list Block) :
  map index (itemsFrom i blocks) = seq i (List.length blocks).
Proof.
  revert i. induction blocks as [|b tl IH]; intros i; simpl; [|rewrite IH]; auto.
Qed.

(** Each entry of the sorted list carries [blocks[index]] and its height
    key. *)
Lemma sortedItems_lookup (blocks : list Block) (it : Item) :
  In it (sortedItems blocks) ->
  nth_error blocks (index it) = Some (block it) /\ y it = posY (block it).
Proof.
  intros H. apply (Permutation_in _ (Permutation_sym (sortByY_perm _))) in H.
  apply itemsFrom_In in H. destruct H as (_ & Hn & Hy).
  now rewrite Nat.sub_0_r in Hn.
Qed.

Lemma sortedItems_blocks (blocks : list Block) :
  Permutation (map block (sortedItems blocks)) blocks.
Proof.
  rewrite <- (itemsFrom_block 0 blocks) at 2.
  apply Permutation_map, Permutation_sym, sortByY_perm.
Qed.

Lemma sortedIndices_perm (blocks : list Block) :
  Permutation (sortedIndices blocks) (seq 0 (List.length blocks)).
Proof.
  unfold sortedIndices. rewrite <- (itemsFrom_index 0 blocks).
  apply Permutation_map, Permutation_sym, sortByY_perm.
Qed.


(** *** The repositioning step *)

Lemma fixBlock_repositioned (b : Block) (placed : list Block) :
  repositioned b (fixBlock b placed).
Proof.
  unfold fixBlock, repositioned. destruct (negb _); eauto.
  exists (posY b). now destruct b as [t [[x y0] z] [[w h] d]].
Qed.

(** *** The loop of the fix pass *)

Lemma fixLoop_repositioned (todo : list Item) (placed : list Block) :
  exists moved, fixLoop todo placed = placed ++ moved
                /\ Forall2 repositioned (map block todo) moved.
Proof.
  revert placed. induction todo as [|it tl IH]; intros placed; simpl.
  - exists []. now rewrite app_nil_r.
  - destruct (IH (placed ++ [fixBlock (block it) placed])) as (mv & He & Hf).
    exists (fixBlock (block it) placed :: mv). rewrite He, <- app_assoc.
    split; [reflexivity|]. constructor; auto. apply fixBlock_repositioned.
Qed.

Lemma sortedItems_length (blocks : list Block) :
  List.length (sortedItems blocks) = List.length blocks.
Proof.
  rewrite <- (length_map block).
  apply Permutation_length, sortedItems_blocks.
Qed.

(** *** Order of the output *)

Lemma StronglySorted_nth {A} (R : A -> A -> Prop) (l : list A) (i j : nat)
      (a b : A) :
  StronglySorted R l -> (i < j)%nat ->
  nth_error l i = Some a -> nth_error l j = Some b -> R a b.
Proof.
  intros Hs. revert i j. induction Hs as [|x tl Hs IH Hx]; intros i j Hij Hi Hj.
  - destruct i; discriminate.
  - destruct j as [|j]; [lia|]. simpl in Hj. destruct i as [|i]; simpl in Hi.
    + injection Hi as <-. rewrite Forall_forall in Hx. apply Hx.
      eapply nth_error_In; eauto.
    + apply (IH i j); auto. lia.
Qed.

(** If the sort leaves every index in place, the input heights were
    already in non-decreasing order. *)
Lemma sortedIndices_identity (blocks : list Block) (i j : nat) (a b : Block) :
  sortedIndices blocks = seq 0 (List.length blocks) ->
  (i < j)%nat -> nth_error blocks i = Some a -> nth_error blocks j = Some b ->
  posY a <= posY b.
Proof.
  intros Hid Hij Ha Hb.
  assert (Hk : forall k c, nth_error blocks k = Some c ->
            exists it, nth_error (sortedItems blocks) k = Some it
                       /\ posY c = y it).
  { intros k c Hc.
    assert (Hlen : (k < List.length blocks)%nat) by (apply nth_error_Some; congruence).
    destruct (nth_error (sortedItems blocks) k) as [it|] eqn:Hit.
    - exists it. split; auto.
      assert (Hidx : nth_error (sortedIndices blocks) k = Some (index it)).
      { unfold sortedIndices. now rewrite nth_error_map, Hit. }
      rewrite Hid, nth_error_seq in Hidx.
      destruct (Nat.ltb_spec k (List.length blocks)); [|lia].
      simpl in Hidx. injection Hidx as Hidx.
      destruct (sortedItems_lookup blocks it (nth_error_In _ _ Hit)) as [Hn Hy].
      rewrite <- Hidx, Hc in Hn. injection Hn as ->. now rewrite Hy.
    - apply nth_error_None in Hit. rewrite sortedItems_length in Hit. lia. }
  destruct (Hk i a Ha) as (ia & Hia & ->).
  destruct (Hk j b Hb) as (ib & Hib & ->).
  exact (StronglySorted_nth yLe _ i j ia ib (sortByY_sorted _) Hij Hia Hib).
Qed.

End ValidityFacts.

(** ** The validator's claims *)

Section ValidityClaims.
Import ValidityAgent SupportGraph Scenes.
Local Open Scope Q_scope.

(** C9: the fix pass returns the blocks in non-decreasing order of their
    pre-fix [pos[1]], not in input order.  With [sortedIndices] the indices
    in output order: entry [k] of the output is input block
    [sortedIndices[k]] with at most its [pos[1]] changed; the blocks taken
    in that order are a permutation of the input with non-decreasing
    original heights; and when two input blocks are out of height order the
    indices are not the identity, so blocks come back at other indices. *)
Theorem fix_returns_height_order (blocks : list Block) :
  let S := sortedItems blocks in
  Forall2 repositioned (map block S) (fixFloatingBlocks blocks)
  /\ Permutation (map block S) blocks
  /\ Permutation (sortedIndices blocks) (seq 0 (List.length blocks))
  /\ StronglySorted yLe S
  /\ (forall it, In it S ->
        nth_error blocks (index it) = Some (block it)
        /\ y it = posY (block it))
  /\ (forall i j a b, (i < j)%nat ->
        nth_error blocks i = Some a -> nth_error blocks j = Some b ->
        posY b < posY a ->
        sortedIndices blocks <> seq 0 (List.length blocks)).
Proof.
  intros S. split; [|split; [|split; [|split; [|split]]]].
  - unfold fixFloatingBlocks.
    destruct (fixLoop_repositioned (sortedItems blocks) []) as (mv & -> & Hf).
    exact Hf.
  - apply sortedItems_blocks.
  - apply sortedIndices_perm.
  - apply sortByY_sorted.
  - intros it Hit. now apply sortedItems_lookup.
  - intros i j a b Hij Ha Hb Hlt Hid.
    pose proof (sortedIndices_identity blocks i j a b Hid Hij Ha Hb) as Hle.
    apply (Qlt_not_le _ _ Hlt Hle).
Qed.

Lemma fix_returns_height_order_witness :
  sortedIndices topFirst = [1%nat; 0%nat]
  /\ sortedIndices topFirst <> seq 0 (List.length topFirst).
Proof.
  split; [reflexivity|].
  destruct (fix_returns_height_order topFirst) as (_ & _ & _ & _ & _ & H).
  apply (H 0%nat 1%nat (box 0 5 1 1) (box 0 0.5 1 1)).
  - lia.
  - reflexivity.
  - reflexivity.
  - reflexivity.
Defined.

End ValidityClaims.

(** ** Facts about binary64 numbers

    Read off the specification of the primitive operations. *)

Section Binary64Numbers.
Import Binary64Tactics.
Local Open Scope float_scope.

Lemma is_nan_spec (x : float) :
  PrimFloat.is_nan x = match Prim2SF x with S754_nan => true | _ => false end.
Proof.
  unfold PrimFloat.is_nan. rewrite FloatAxioms.eqb_spec. unfold SFeqb.
  destruct (Prim2SF x) as [s|s| |s m e]; simpl; auto.
  - now destruct s.
  - rewrite Z.compare_refl, Pos.compare_cont_refl. now destruct s.
Qed.

Lemma is_finite_spec (x : float) :
  PrimFloat.is_finite x
  = match Prim2SF x with
    | S754_zero _ | S754_finite _ _ _ => true
    | _ => false
    end.
Proof.
  unfold PrimFloat.is_finite, PrimFloat.is_infinity.
  rewrite is_nan_spec, FloatAxioms.eqb_spec, FloatAxioms.abs_spec.
  change (Prim2SF infinity) with (S754_infinity false).
  destruct (Prim2SF x) as [s|s| |s m e]; simpl; auto.
Qed.

(** A finite number put on ground level and taken off again leaves a
    zero: [|(0 + x) - x| < 0.1]. *)
Lemma ground_round_trip (x : float) :
  PrimFloat.is_finite x = true ->
  (PrimFloat.abs ((0 + x) - x) <? 0.1) = true.
Proof.
  rewrite is_finite_spec, FloatAxioms.ltb_spec, FloatAxioms.abs_spec,
    FloatAxioms.sub_spec, FloatAxioms.add_spec.
  change (Prim2SF 0) with (S754_zero false).
  destruct (Prim2SF x) as [s|s| |s m e]; simpl; try discriminate; intros _.
  - destruct s; reflexivity.
  - unfold SF64sub, SF64add. simpl. rewrite Z.min_id, Z.sub_diag. simpl.
    destruct s; simpl; rewrite ?Z.pos_sub_diag; reflexivity.
Qed.

(** A round trip [((t + x) - x) - t] that stays below a bound was made
    with a finite [x]. *)
Lemma round_trip_finite (t x u : float) :
  (PrimFloat.abs (((t + x) - x) - t) <? u) = true ->
  PrimFloat.is_finite x = true.
Proof.
  rewrite is_finite_spec, FloatAxioms.ltb_spec, FloatAxioms.abs_spec,
    !FloatAxioms.sub_spec, FloatAxioms.add_spec.
  destruct (Prim2SF x) as [s|s| |s m e]; simpl; auto.
  - destruct (Prim2SF t) as [s'|s'| |s' m' e']; simpl;
      try (destruct s, s'; simpl; discriminate); try discriminate.
  - destruct (Prim2SF t) as [s'|s'| |s' m' e']; simpl; discriminate.
Qed.

Lemma SFltb_asym (x y : spec_float) :
  SFltb x y = true -> SFltb y x = false.
Proof.
  unfold SFltb.
  destruct x as [sx|sx| |sx mx ex], y as [sy|sy| |sy my ey];
    simpl; try discriminate; try congruence; compare_cases.
Qed.

Lemma SFltb_cotrans (x y z : spec_float) :
  y <> S754_nan -> SFltb x z = true -> SFltb x y = true \/ SFltb y z = true.
Proof.
  unfold SFltb.
  destruct x as [sx|sx| |sx mx ex], y as [sy|sy| |sy my ey],
           z as [sz|sz| |sz mz ez];
    simpl; try discriminate; try congruence; intros _; compare_cases.
Qed.

(** [<] on binary64 numbers is asymmetric ... *)
Lemma ltb_asym (x y : float) : (x <? y) = true -> (y <? x) = false.
Proof. rewrite !FloatAxioms.ltb_spec. apply SFltb_asym. Qed.

Lemma ltb_irrefl (x : float) : (x <? x) = false.
Proof.
  destruct (x <? x) eqn:H; [|reflexivity].
  pose proof (ltb_asym _ _ H). congruence.
Qed.

(** ... and whatever is below [z] is below every number [y] that is not
    itself below [z], NaN apart. *)
Lemma ltb_cotrans (x y z : float) :
  PrimFloat.is_nan y = false -> (x <? z) = true ->
  (x <? y) = true \/ (y <? z) = true.
Proof.
  rewrite is_nan_spec, !FloatAxioms.ltb_spec. intros Hy.
  apply SFltb_cotrans. intros E. now rewrite E in Hy.
Qed.

Lemma Math_max_cases (a b : float) : Math.max a b = a \/ Math.max a b = b.
Proof.
  unfold Math.max.
  destruct (PrimFloat.is_nan a); auto. destruct (PrimFloat.is_nan b); auto.
  destruct (a <? b); auto. destruct (b <? a); auto.
  destruct (PrimFloat.get_sign a); auto.
Qed.

(** [Math.max] is NaN exactly when an argument is, and otherwise lies below
    neither argument. *)
Lemma Math_max_bounds (a b : float) :
  PrimFloat.is_nan (Math.max a b) = false ->
  PrimFloat.is_nan a = false /\ PrimFloat.is_nan b = false
  /\ (Math.max a b <? a) = false /\ (Math.max a b <? b) = false.
Proof.
  unfold Math.max.
  destruct (PrimFloat.is_nan a) eqn:Ha; [congruence|].
  destruct (PrimFloat.is_nan b) eqn:Hb; [congruence|].
  intros _. split; [reflexivity|]. split; [reflexivity|].
  destruct (a <? b) eqn:Hab.
  - split; [now apply ltb_asym | apply ltb_irrefl].
  - destruct (b <? a) eqn:Hba.
    + split; [apply ltb_irrefl | exact Hab].
    + destruct (PrimFloat.get_sign a);
        split; auto using ltb_irrefl.
Qed.

End Binary64Numbers.

(** ** Facts about the validity agent on binary64 numbers *)

Section Binary64Facts.
Import ValidityAgent64 SupportGraph64.
Local Open Scope float_scope.

Lemma hasSupportFrom_true_b64 (b : Block) (rest : list Block) (i cur : Z) :
  hasSupportFrom b rest i cur = true <->
  exists k c, nth_error rest k = Some c /\ (i + Z.of_nat k)%Z <> cur
              /\ supports b c = true.
Proof.
  revert i. induction rest as [|o tl IH]; intros i; simpl.
  - split; [discriminate|]. intros (k & c & Hk & _). destruct k; discriminate.
  - destruct (Z.eqb_spec i cur) as [->|Hne].
    + rewrite IH. split.
      * intros (k & c & Hk & Hi & Hs). exists (S k), c. repeat split; auto.
        lia.
      * intros (k & c & Hk & Hi & Hs). destruct k as [|k]; [lia|].
        exists k, c. repeat split; auto. lia.
    + destruct (supports b o) eqn:Hso.
      * split; [|reflexivity]. intros _. exists 0%nat, o.
        repeat split; auto. lia.
      * rewrite IH. split.
        -- intros (k & c & Hk & Hi & Hs). exists (S k), c.
           repeat split; auto. lia.
        -- intros (k & c & Hk & Hi & Hs). destruct k as [|k].
           ++ simpl in Hk. injection Hk as <-. congruence.
           ++ exists k, c. repeat split; auto. lia.
Qed.

Lemma hasSupport_true_b64 (b : Block) (allBlocks : list Block) (cur : Z) :
  hasSupport b allBlocks cur = true <->
  onGround b = true \/
  exists k c, nth_error allBlocks k = Some c /\ Z.of_nat k <> cur
              /\ supports b c = true.
Proof.
  unfold hasSupport. destruct (onGround b).
  - split; auto.
  - rewrite hasSupportFrom_true_b64. split.
    + intros H. right. exact H.
    + intros [H|H]; [discriminate | exact H].
Qed.

Lemma validateFrom_nil_b64 (blocks rest : list Block) (i : nat) :
  validateFrom blocks rest i = [] <->
  forall k b, nth_error rest k = Some b ->
              hasSupport b blocks (Z.of_nat (i + k)) = true.
Proof.
  revert i. induction rest as [|b tl IH]; intros i; simpl.
  - split; auto. intros _ k b Hk. destruct k; discriminate.
  - destruct (hasSupport b blocks (Z.of_nat i)) eqn:Hb.
    + rewrite IH. split.
      * intros H k c Hk. destruct k as [|k]; simpl in Hk.
        -- injection Hk as <-. now rewrite Nat.add_0_r.
        -- rewrite Nat.add_succ_r. now apply H.
      * intros H k c Hk. specialize (H (S k) c Hk).
        now rewrite Nat.add_succ_r in H.
    + split; [discriminate|]. intros H. specialize (H 0%nat b eq_refl).
      rewrite Nat.add_0_r in H. congruence.
Qed.

Lemma validateStructure_valid_b64 (blocks : list Block) :
  valid (validateStructure blocks) = true <->
  blocks <> [] /\
  forall i b, nth_error blocks i = Some b ->
              hasSupport b blocks (Z.of_nat i) = true.
Proof.
  destruct blocks as [|b0 tl].
  - simpl. split; [discriminate | intros [H _]; congruence].
  - unfold validateStructure. cbn [valid].
    pose proof (validateFrom_nil_b64 (b0 :: tl) (b0 :: tl) 0) as Hn.
    destruct (validateFrom (b0 :: tl) (b0 :: tl) 0) eqn:Hv.
    + split; [|reflexivity]. intros _. split; [discriminate|].
      intros i b Hi. now apply (proj1 Hn eq_refl i b).
    + split; [discriminate|]. intros [_ H].
      assert (i :: l = []) by (apply Hn; intros k b Hk; now apply H).
      discriminate.
Qed.

Lemma validateStructure_locallySupported_b64 (blocks : list Block) :
  valid (validateStructure blocks) = true <->
  blocks <> [] /\ locallySupported blocks.
Proof.
  rewrite validateStructure_valid_b64. apply and_iff_compat_l.
  unfold locallySupported, restsOn. split; intros H i b Hi.
  - apply H in Hi as Hs. apply hasSupport_true_b64 in Hs.
    destruct Hs as [Hg|(k & c & Hk & Hne & Hs)]; [now left|right].
    exists k, b, c. repeat split; auto; try lia.
  - apply hasSupport_true_b64.
    destruct (H i b Hi) as [Hg|(j & b' & c & Hb & Hc & Hne & Hs)].
    + now left.
    + right. exists j, c. rewrite Hi in Hb. injection Hb as <-.
      repeat split; auto; try lia.
Qed.


(** *** The sort *)

Lemma insertItem_perm_b64 (a : Item) (l : list Item) :
  Permutation (a :: l) (insertItem a l).
Proof.
  induction l as [|b tl IH]; simpl; auto.
  destruct (0 <? y a - y b); auto.
  eapply perm_trans; [apply perm_swap|]. now constructor.
Qed.

Lemma sortByY_perm_b64 (l : list Item) : Permutation l (sortByY l).
Proof.
  induction l as [|a tl IH]; simpl; auto.
  eapply perm_trans; [|apply insertItem_perm_b64]. now constructor.
Qed.

Lemma itemsFrom_In_b64 (i : nat) (blocks : list Block) (it : Item) :
  In it (itemsFrom i blocks) ->
  (i <= index it)%nat /\ nth_error blocks (index it - i) = Some (block it)
  /\ y it = posY (block it).
Proof.
  revert i. induction blocks as [|b tl IH]; intros i; simpl; [tauto|].
  intros [<-|H]; simpl.
  - rewrite Nat.sub_diag. auto.
  - destruct (IH _ H) as (Hle & Hn & Hy). repeat split; auto; [lia|].
    replace (index it - i)%nat with (S (index it - S i)) by lia. exact Hn.
Qed.

Lemma itemsFrom_block_b64 (i : nat) (blocks : list Block) :
  map block (itemsFrom i blocks) = blocks.
Proof.
  revert i. induction blocks as [|b tl IH]; intros i; simpl; [|rewrite IH]; auto.
Qed.

Lemma itemsFrom_index_b64 (i : nat) (blocks : list Block) :
  map index (itemsFrom i blocks) = seq i (List.length blocks).
Proof.
  revert i. induction blocks as [|b tl IH]; intros i; simpl; [|rewrite IH]; auto.
Qed.

(** Each entry of the sorted list carries [blocks[index]] and its key. *)
Lemma sortedItems_lookup_b64 (blocks : list Block) (it : Item) :
  In it (sortedItems blocks) ->
  nth_error blocks (index it) = Some (block it) /\ y it = posY (block it).
Proof.
  intros H. apply (Permutation_in _ (Permutation_sym (sortByY_perm_b64 _))) in H.
  apply itemsFrom_In_b64 in H. destruct H as (_ & Hn & Hy).
  now rewrite Nat.sub_0_r in Hn.
Qed.

Lemma sortedItems_blocks_b64 (blocks : list Block) :
  Permutation (map block (sortedItems blocks)) blocks.
Proof.
  rewrite <- (itemsFrom_block_b64 0 blocks) at 2.
  apply Permutation_map, Permutation_sym, sortByY_perm_b64.
Qed.

Lemma sortedItems_length_b64 (blocks : list Block) :
  List.length (sortedItems blocks) = List.length blocks.
Proof.
  rewrite <- (length_map block).
  apply Permutation_length, sortedItems_blocks_b64.
Qed.

(** *** The loop of the fix pass *)

Lemma fixLoop_extends_b64 (todo : list Item) (placed : list Block) :
  exists moved, fixLoop todo placed = placed ++ moved
                /\ List.length moved = List.length todo.
Proof.
  revert placed. induction todo as [|it tl IH]; intros placed; simpl.
  - exists []. now rewrite app_nil_r.
  - destruct (IH (placed ++ [fixBlock (block it) placed])) as (mv & He & Hl).
    exists (fixBlock (block it) placed :: mv). rewrite He, <- app_assoc.
    split; [reflexivity | simpl; now rewrite Hl].
Qed.

Lemma fixFloatingBlocks_length_b64 (blocks : list Block) :
  List.length (fixFloatingBlocks blocks) = List.length blocks.
Proof.
  unfold fixFloatingBlocks.
  destruct (fixLoop_extends_b64 (sortedItems blocks) []) as (mv & -> & Hl).
  simpl. rewrite Hl. apply sortedItems_length_b64.
Qed.

(** *** The loops by index *)

Lemma hasSupportLoop_returns (b : Block) (done rest : list Block) (cur : Z) :
  ArrayReads.hasSupportLoop b (done ++ rest) cur
                            (List.length rest) (List.length done)
  = ArrayReads.Returns
      (hasSupportFrom b rest (Z.of_nat (List.length done)) cur).
Proof.
  revert done. induction rest as [|o tl IH]; intros done; simpl; [reflexivity|].
  assert (Hnext : ArrayReads.hasSupportLoop b (done ++ o :: tl) cur
                    (List.length tl) (S (List.length done))
                  = ArrayReads.Returns
                      (hasSupportFrom b tl (Z.of_nat (List.length done) + 1) cur)).
  { specialize (IH (done ++ [o])). rewrite <- app_assoc in IH. simpl in IH.
    rewrite length_app in IH. simpl in IH.
    rewrite Nat.add_1_r in IH. rewrite IH. do 2 f_equal. lia. }
  destruct (Z.eqb (Z.of_nat (List.length done)) cur); [exact Hnext|].
  rewrite nth_error_app2, Nat.sub_diag by lia. simpl.
  destruct (supports b o); [reflexivity | exact Hnext].
Qed.

Lemma hasSupport_returns (b : Block) (allBlocks : list Block) (cur : Z) :
  ArrayReads.hasSupport b allBlocks cur
  = ArrayReads.Returns (hasSupport b allBlocks cur).
Proof.
  unfold ArrayReads.hasSupport, hasSupport.
  destruct (onGround b); [reflexivity|].
  exact (hasSupportLoop_returns b [] allBlocks cur).
Qed.

Lemma validateLoop_returns (blocks done rest : list Block) :
  blocks = done ++ rest ->
  ArrayReads.validateLoop blocks (List.length rest) (List.length done)
  = ArrayReads.Returns (validateFrom blocks rest (List.length done)).
Proof.
  revert done. induction rest as [|b tl IH]; intros done Hb; simpl;
    [reflexivity|].
  rewrite Hb at 1. rewrite nth_error_app2, Nat.sub_diag by lia. simpl.
  rewrite hasSupport_returns.
  specialize (IH (done ++ [b])). rewrite length_app in IH. simpl in IH.
  rewrite Nat.add_1_r in IH. rewrite IH by (now rewrite <- app_assoc).
  now destruct (hasSupport b blocks (Z.of_nat (List.length done))).
Qed.

Lemma fixLoop_returns (blocks : list Block) (todo : list Item)
      (placed : list Block) :
  (forall it, In it todo -> nth_error blocks (index it) = Some (block it)) ->
  ArrayReads.fixLoop blocks (map index todo) placed
  = ArrayReads.Returns (fixLoop todo placed).
Proof.
  revert placed. induction todo as [|it tl IH]; intros placed H; simpl;
    [reflexivity|].
  rewrite (H it (or_introl eq_refl)), hasSupport_returns.
  rewrite IH by (intros x Hx; apply H; now right).
  reflexivity.
Qed.

End Binary64Facts.

(** ** The fix pass on binary64 numbers *)

Section Binary64Fix.
Import ValidityAgent64 SupportGraph64 OrderSpec64.
Local Open Scope float_scope.

(** The surface found is ground level or the top of a placed block under
    the footprint. *)
Lemma findSupportSurface_cases_b64 (b : Block) (placed : list Block) :
  findSupportSurface b placed = 0 \/
  exists k c, nth_error placed k = Some c /\ footprintsOverlap b c = true
              /\ findSupportSurface b placed = topY c.
Proof.
  unfold findSupportSurface.
  induction placed as [|c tl IH] using rev_ind; simpl; [now left|].
  rewrite fold_left_app. simpl.
  set (acc := fold_left _ tl 0) in *.
  assert (Hold : acc = 0 \/ exists k c0, nth_error (tl ++ [c]) k = Some c0 /\
            footprintsOverlap b c0 = true /\ acc = topY c0).
  { destruct IH as [H|(k & c0 & Hk & Ho & He)]; [now left|right].
    exists k, c0. repeat split; auto.
    rewrite nth_error_app1; auto. apply nth_error_Some. congruence. }
  destruct (footprintsOverlap b c) eqn:Hov; [|exact Hold].
  destruct (Math_max_cases acc (topY c)) as [->| ->]; [exact Hold|].
  right. exists (List.length tl), c. repeat split; auto.
  rewrite nth_error_app2, Nat.sub_diag; auto.
Qed.

Lemma setPosY_fields_b64 (b : Block) (v : float) :
  type (setPosY b v) = type b /\ size (setPosY b v) = size b
  /\ posY (setPosY b v) = v /\ height (setPosY b v) = height b
  /\ forall c, footprintsOverlap (setPosY b v) c = footprintsOverlap b c.
Proof.
  destruct b as [t [[x y0] z] [[w h] d]]. cbv [setPosY posY height pos size type].
  repeat split.
Qed.

(** After its turn in the loop a block is on the ground or rests on one of
    the blocks placed before it, as long as rounding keeps its recomputed
    bottom face within the tolerance of the surface it was put on. *)
Lemma fixBlock_supported_b64 (b : Block) (placed : list Block) :
  settlesOnGround b ->
  (forall c, In c placed -> settlesOn b c) ->
  onGround (fixBlock b placed) = true \/
  exists k c, nth_error placed k = Some c
              /\ supports (fixBlock b placed) c = true.
Proof.
  intros Hg Hon.
  unfold fixBlock. destruct (hasSupport b placed (-1)) eqn:Hs; simpl.
  - apply hasSupport_true_b64 in Hs.
    destruct Hs as [H|(k & c & Hk & _ & H)]; eauto.
  - destruct (setPosY_fields_b64 b (findSupportSurface b placed + height b / 2))
      as (_ & _ & Hy & Hh & Hov).
    destruct (findSupportSurface_cases_b64 b placed)
      as [H0|(k & c & Hk & Ho & He)].
    + left. unfold onGround. rewrite Hy, Hh, H0. exact Hg.
    + right. exists k, c. split; auto.
      pose proof (Hon c (nth_error_In _ _ Hk)) as Hc.
      unfold settlesOn, bottomOn, topY in Hc.
      unfold supports, verticallyAligned. rewrite Hy, Hh, Hov, He, Ho.
      unfold topY. now rewrite Hc.
Qed.

Lemma locallySupported_snoc_b64 (placed : list Block) (b : Block) :
  locallySupported placed ->
  (onGround b = true \/
   exists k c, nth_error placed k = Some c /\ supports b c = true) ->
  locallySupported (placed ++ [b]).
Proof.
  intros Hp Hb i x Hi.
  destruct (Nat.lt_ge_cases i (List.length placed)) as [Hlt|Hge].
  - rewrite nth_error_app1 in Hi by exact Hlt.
    destruct (Hp i x Hi) as [Hg|(j & b' & c & Hb' & Hc & Hne & Hs)]; [now left|].
    right. exists j, b', c. repeat split; auto.
    + rewrite nth_error_app1; auto.
    + rewrite nth_error_app1; auto. apply nth_error_Some. congruence.
  - rewrite nth_error_app2 in Hi by exact Hge.
    destruct (i - List.length placed)%nat as [|n] eqn:Hn; simpl in Hi;
      [|destruct n; discriminate].
    injection Hi as <-.
    destruct Hb as [Hg|(k & c & Hk & Hs)]; [now left|].
    assert (k < List.length placed)%nat by (apply nth_error_Some; congruence).
    right. exists k, b, c. repeat split; auto; [| |lia].
    + rewrite nth_error_app2 by exact Hge. now rewrite Hn.
    + rewrite nth_error_app1; auto.
Qed.

Lemma fixLoop_locallySupported_b64 (todo : list Item) (placed : list Block) :
  (forall it, In it todo -> settlesOnGround (block it)) ->
  (forall it c, In it todo -> In c (fixLoop todo placed) ->
                settlesOn (block it) c) ->
  locallySupported placed -> locallySupported (fixLoop todo placed).
Proof.
  revert placed. induction todo as [|it tl IH]; intros placed Hg Hon Hp;
    simpl; auto.
  simpl in Hon.
  destruct (fixLoop_extends_b64 tl (placed ++ [fixBlock (block it) placed]))
    as (mv & He & _).
  apply IH.
  - intros x Hx. apply Hg. now right.
  - intros x c Hx Hc. apply Hon; [now right | exact Hc].
  - apply locallySupported_snoc_b64; auto.
    apply fixBlock_supported_b64.
    + apply Hg. now left.
    + intros c Hc. apply Hon; [now left|].
      rewrite He, <- app_assoc. apply in_or_app. now left.
Qed.

(** *** Inputs already in processing order *)

Lemma insertItem_first_b64 (a : Item) (l : list Item) :
  Forall (fun b => (0 <? y a - y b) = false) l -> insertItem a l = a :: l.
Proof.
  destruct l as [|b tl]; [reflexivity|].
  intros H. inversion H as [|? ? Hab _]; subst. simpl. now rewrite Hab.
Qed.

Lemma itemsFrom_ordered_b64 (i : nat) (blocks : list Block) :
  keyOrdered blocks ->
  StronglySorted (fun a b => (0 <? y a - y b) = false) (itemsFrom i blocks).
Proof.
  intros H. revert i. induction H as [|b tl Hs IH Hb]; intros i; simpl.
  - constructor.
  - constructor; [apply IH|].
    apply Forall_forall. intros it Hit.
    destruct (itemsFrom_In_b64 _ _ _ Hit) as (_ & Hn & Hy).
    simpl. rewrite Hy.
    rewrite Forall_forall in Hb. apply Hb. eapply nth_error_In; eauto.
Qed.

Lemma sortByY_ordered_id_b64 (l : list Item) :
  StronglySorted (fun a b => (0 <? y a - y b) = false) l -> sortByY l = l.
Proof.
  induction 1 as [|a tl Hs IH Ha]; simpl; [reflexivity|].
  rewrite IH. now apply insertItem_first_b64.
Qed.

Lemma fixLoop_noop_b64 (todo : list Item) (placed : list Block) :
  (forall P it T, todo = P ++ it :: T ->
     hasSupport (block it) (placed ++ map block P) (-1) = true) ->
  fixLoop todo placed = placed ++ map block todo.
Proof.
  revert placed. induction todo as [|it tl IH]; intros placed H; simpl.
  - now rewrite app_nil_r.
  - assert (Hit : fixBlock (block it) placed = block it).
    { unfold fixBlock. specialize (H [] it tl eq_refl). simpl in H.
      rewrite app_nil_r in H. now rewrite H. }
    rewrite Hit, IH.
    + now rewrite <- app_assoc.
    + intros P x T ->. specialize (H (it :: P) x T eq_refl).
      simpl in H. now rewrite <- app_assoc.
Qed.

(** The sort leaves a list in processing order as it is. *)
Lemma sortedItems_ordered_b64 (blocks : list Block) :
  keyOrdered blocks -> sortedItems blocks = itemsFrom 0 blocks.
Proof.
  intros Hs. unfold sortedItems. apply sortByY_ordered_id_b64.
  now apply itemsFrom_ordered_b64.
Qed.

(** When the sort changes nothing and every block is carried by earlier
    ones, the loop of the fix pass rebuilds the input. *)
Lemma fix_of_carried_b64 (blocks : list Block) :
  sortedItems blocks = itemsFrom 0 blocks ->
  carriedByEarlier blocks -> fixFloatingBlocks blocks = blocks.
Proof.
  intros Hid Hc. unfold fixFloatingBlocks. rewrite Hid, fixLoop_noop_b64.
  - simpl. apply itemsFrom_block_b64.
  - intros P it T HS. simpl.
    assert (HP : map block P = firstn (List.length P) blocks).
    { rewrite <- (itemsFrom_block_b64 0 blocks) at 1. rewrite HS.
      rewrite map_app, <- (length_map block P).
      now rewrite firstn_app, firstn_all, Nat.sub_diag, app_nil_r. }
    rewrite HP. apply Hc.
    rewrite <- (itemsFrom_block_b64 0 blocks), HS, map_app.
    rewrite nth_error_app2 by (rewrite length_map; lia).
    now rewrite length_map, Nat.sub_diag.
Qed.



(** A block that settles on some top face has a finite height, and then
    settles on the ground as well. *)
Lemma settlesOn_ground (b c : Block) : settlesOn b c -> settlesOnGround b.
Proof.
  unfold settlesOn, settlesOnGround, bottomOn, Math.abs. intros H.
  apply ground_round_trip. exact (round_trip_finite _ _ _ H).
Qed.

(** Rounding losing no block, the ground test passes for every input
    block. *)
Lemma settles_all_ground (blocks : list Block) :
  blocks <> [] ->
  (forall b c, In b blocks -> In c (fixFloatingBlocks blocks) ->
               settlesOn b c) ->
  forall b, In b blocks -> settlesOnGround b.
Proof.
  intros Hne Hon b Hb.
  destruct (fixFloatingBlocks blocks) as [|c out] eqn:Hout.
  - apply (f_equal (@List.length Block)) in Hout.
    rewrite fixFloatingBlocks_length_b64 in Hout.
    destruct blocks; [congruence|discriminate].
  - apply (settlesOn_ground b c). apply Hon; [exact Hb | now left].
Qed.

Lemma sortedItems_In_b64 (blocks : list Block) (it : Item) :
  In it (sortedItems blocks) -> In (block it) blocks.
Proof.
  intros Hit. apply sortedItems_lookup_b64 in Hit.
  destruct Hit as [Hn _]. eapply nth_error_In; eauto.
Qed.

(** The fixed structure validates when rounding loses no block ... *)
Lemma fixFloatingBlocks_valid_b64 (blocks : list Block) :
  blocks <> [] ->
  (forall b c, In b blocks -> In c (fixFloatingBlocks blocks) ->
               settlesOn b c) ->
  valid (validateStructure (fixFloatingBlocks blocks)) = true.
Proof.
  intros Hne Hon.
  pose proof (settles_all_ground blocks Hne Hon) as Hg.
  apply validateStructure_locallySupported_b64. split.
  - intros H. apply (f_equal (@List.length Block)) in H.
    rewrite fixFloatingBlocks_length_b64 in H.
    destruct blocks; [congruence|discriminate].
  - apply fixLoop_locallySupported_b64.
    + intros it Hit. apply Hg. now apply sortedItems_In_b64.
    + intros it c Hit Hc. apply Hon; [now apply sortedItems_In_b64 | exact Hc].
    + intros i b Hi. destruct i; discriminate.
Qed.


End Binary64Fix.

(** ** The validator's claims on binary64 numbers *)

Section Binary64Claims.
Import ValidityAgent64 SupportGraph64 Scenes64 OrderSpec64 Binary64Tactics.
Local Open Scope float_scope.

(** C2, as stated, fails: [validateStructure] on zero blocks does not
    return [valid == true] with an empty issue list. *)
Lemma validate_empty_not_valid :
  ~ (valid (validateStructure []) = true /\ issues (validateStructure []) = []).
Proof. intros [H _]. discriminate H. Qed.

(** C2 (amended): for every list of blocks, whatever numbers it holds, no
    array read of [validateStructure] or [fixFloatingBlocks] is out of
    range, so both calls return and throw nothing; they return the data
    the loops compute, and the fix pass returns as many blocks as it was
    given.  On zero blocks the validator returns [valid == false] with the
    single issue "No blocks in structure". *)
Theorem validate_fix_return_data :
  (forall blocks : list Block,
     ArrayReads.validateStructure blocks
     = ArrayReads.Returns (validateStructure blocks)
     /\ ArrayReads.fixFloatingBlocks blocks
        = ArrayReads.Returns (fixFloatingBlocks blocks)
     /\ List.length (fixFloatingBlocks blocks) = List.length blocks)
  /\ validateStructure [] = {| valid := false; issues := [NoBlocksInStructure] |}
  /\ fixFloatingBlocks [] = [].
Proof.
  split; [|split; reflexivity].
  intros blocks. split; [|split].
  - destruct blocks as [|b0 tl]; [reflexivity|].
    pose proof (validateLoop_returns (b0 :: tl) [] (b0 :: tl) eq_refl) as H.
    change (List.length (@nil Block)) with 0%nat in H.
    unfold ArrayReads.validateStructure, validateStructure.
    now rewrite H.
  - unfold ArrayReads.fixFloatingBlocks, fixFloatingBlocks, sortedIndices.
    apply fixLoop_returns. intros it Hit.
    now apply sortedItems_lookup_b64.
  - apply fixFloatingBlocks_length_b64.
Qed.

(** The loops by index do throw once an index is out of range: reading
    entry 0 of an empty array. *)
Example fixLoop_throws_out_of_range :
  ArrayReads.fixLoop [] [0%nat] [] = ArrayReads.Throws
  /\ ArrayReads.validateLoop [] 1 0 = ArrayReads.Throws.
Proof. split; reflexivity. Qed.

(** C3: the code breaks the claim.  Two plates 5 cm thick hovering side by
    side at y = 5 pass validation with no issue, although neither is on
    the ground and no chain of rests-on edges leads from either to the
    ground: each is accepted as the support of the other. *)
Theorem hovering_plates_valid_unreachable :
  validateStructure hoveringPlates = {| valid := true; issues := [] |}
  /\ (forall b, In b hoveringPlates -> onGround b = false)
  /\ restsOn hoveringPlates 0 1 /\ restsOn hoveringPlates 1 0
  /\ (forall i, ~ groundReachable hoveringPlates i).
Proof.
  split; [reflexivity|]. split; [|split; [|split]].
  - intros b [<-|[<-|[]]]; reflexivity.
  - eexists _, _. repeat split; try reflexivity. discriminate.
  - eexists _, _. repeat split; try reflexivity. discriminate.
  - intros i H. induction H as [i b Hi Hg|i j Hr Hj IH]; [|exact IH].
    destruct i as [|[|i]]; simpl in Hi.
    + injection Hi as <-. discriminate Hg.
    + injection Hi as <-. discriminate Hg.
    + destruct i; discriminate Hi.
Qed.

(** The same happens with plates exactly as thick as the tolerance: the
    distance between the bottom face 4.95 and the top face 5.05 comes out
    as 0.0999999999999996, below 0.1. *)
Example hovering_slabs_valid_unreachable :
  validateStructure hoveringSlabs = {| valid := true; issues := [] |}
  /\ (forall b, In b hoveringSlabs -> onGround b = false)
  /\ Math.abs ((5 - 0.1 / 2) - (5 + 0.1 / 2)) = 0.099999999999999645.
Proof.
  split; [reflexivity|]. split; [|reflexivity].
  intros b [<-|[<-|[]]]; reflexivity.
Qed.




(** The proviso is needed: on a grounded slab 2^53 tall the block above is
    put at 2^53 + 0.9, which rounds to 2^53; its bottom face is then
    recomputed as 2^53 - 1, and the validator reports the fixed block as
    floating. *)
Example fix_of_tall_slab_stays_invalid :
  nonDegenerate tallSlab
  /\ (exists b, In b tallSlab /\ onGround b = true)
  /\ validateStructure (fixFloatingBlocks tallSlab)
     = {| valid := false;
          issues := [BlockIsFloating 1 (0, 0x1p53, 0)] |}
  /\ Math.abs (bottomOn (box 0 0x1p60 1 1.8) (topY (box 0 0x1p52 1 0x1p53))
               - topY (box 0 0x1p52 1 0x1p53)) = 1.
Proof.
  split; [|split; [|split]].
  - split.
    + repeat constructor.
    + distinct_points (fun p : float * float * float =>
                         snd (fst p) <? 0x1p53).
  - exists (box 0 0x1p52 1 0x1p53). split; [now left | reflexivity].
  - reflexivity.
  - reflexivity.
Qed.

End Binary64Claims.

(** ** Facts about the stress engine *)

Section EngineFacts.
Import Three MaterialSystem FEASimulationEngine StressSpec Loads.
Local Open Scope R_scope.

Lemma calculateStress_stress (blk : SimulationBlock) (f : R) (t : ForceType) :
  stress (properties (calculateStress blk f t))
  = Rabs f / stressLimit (material (properties blk)) t.
Proof. unfold calculateStress. destruct (Rge_dec _ 1); reflexivity. Qed.

Lemma calculateStress_failed (blk : SimulationBlock) (f : R) (t : ForceType) :
  failed (properties (calculateStress blk f t))
  = if Rge_dec (Rabs f / stressLimit (material (properties blk)) t) 1
    then true else failed (properties blk).
Proof. unfold calculateStress. simpl. destruct (Rge_dec _ 1); reflexivity. Qed.

Lemma calculateStress_frame (blk : SimulationBlock) (f : R) (t : ForceType) :
  let blk' := calculateStress blk f t in
  mesh (properties blk') = mesh (properties blk)
  /\ material (properties blk') = material (properties blk)
  /\ boundaryCondition (properties blk') = boundaryCondition (properties blk)
  /\ mass (properties blk') = mass (properties blk)
  /\ originalScale blk' = originalScale blk.
Proof. unfold calculateStress. destruct (Rge_dec _ 1); repeat split. Qed.

Lemma applyDeformation_frame (blk : SimulationBlock) (s : R) :
  stress (properties (applyDeformation blk s)) = stress (properties blk)
  /\ failed (properties (applyDeformation blk s)) = failed (properties blk).
Proof.
  unfold applyDeformation. destruct (boundaryCondition _); split; reflexivity.
Qed.

(** The stress and the failure flag a block comes out with from the
    callback of [runSimulation]. *)
Lemma simulateBlock_stress (sf : R) (fv : ForceVector) (blk : SimulationBlock) :
  let m := mesh (properties blk) in
  stress (properties (simulateBlock sf fv blk))
  = Rabs (effectiveForceOn fv m)
    / limitByAlignment (material (properties blk)) (alignmentTo fv m)
    + selfWeightRatio blk.
Proof.
  intros m. unfold simulateBlock. fold m.
  rewrite (proj1 (applyDeformation_frame _ _)).
  unfold limitByAlignment, selfWeightRatio, gravity.
  destruct (Rgt_dec (alignmentTo fv m) 0.7);
    [|destruct (Rlt_dec (alignmentTo fv m) (-0.7))];
  match goal with
  | |- context [calculateStress blk ?f ?t] =>
      destruct (calculateStress_frame blk f t) as (_ & Hmat & Hbc & Hmass & _);
      rewrite Hbc; destruct (boundaryCondition (properties blk)); simpl;
      rewrite ?Hmat, ?Hmass, calculateStress_stress; simpl; lra
  end.
Qed.

Lemma simulateBlock_failed (sf : R) (fv : ForceVector) (blk : SimulationBlock) :
  let m := mesh (properties blk) in
  failed (properties (simulateBlock sf fv blk))
  = if Rge_dec (Rabs (effectiveForceOn fv m)
                / limitByAlignment (material (properties blk))
                                   (alignmentTo fv m)) 1
    then true else failed (properties blk).
Proof.
  intros m. unfold simulateBlock. fold m.
  rewrite (proj2 (applyDeformation_frame _ _)).
  unfold limitByAlignment.
  destruct (Rgt_dec (alignmentTo fv m) 0.7);
    [|destruct (Rlt_dec (alignmentTo fv m) (-0.7))];
  match goal with
  | |- context [calculateStress blk ?f ?t] =>
      destruct (calculateStress_frame blk f t) as (_ & _ & Hbc & _ & _);
      rewrite Hbc; destruct (boundaryCondition (properties blk)); simpl;
      rewrite calculateStress_failed; reflexivity
  end.
Qed.

Lemma distanceFactor_pos (d : R) : 0 < 1 / Rmax 1 (d ^ 2).
Proof.
  apply Rdiv_lt_0_compat; [lra|].
  apply Rlt_le_trans with 1; [lra | apply Rmax_l].
Qed.

Lemma effectiveForceOn_nonneg (fv : ForceVector) (m : Mesh) :
  0 <= magnitude fv -> 0 <= effectiveForceOn fv m.
Proof.
  intros Hm. unfold effectiveForceOn.
  pose proof (Rabs_pos (alignmentTo fv m)) as Ha.
  pose proof (distanceFactor_pos
                (distanceTo (getWorldPosition m) (forcePosition fv))) as Hd.
  apply Rmult_le_pos; [|lra].
  apply Rmult_le_pos; [|lra].
  now apply Rmult_le_pos.
Qed.

(** With a non-negative magnitude the code's stress is the specified
    formula. *)
Lemma simulateBlock_formula (sf : R) (fv : ForceVector) (blk : SimulationBlock) :
  0 <= magnitude fv ->
  stress (properties (simulateBlock sf fv blk))
  = forceStressRatio fv blk + selfWeightRatio blk.
Proof.
  intros Hm. rewrite simulateBlock_stress. f_equal.
  rewrite Rabs_pos_eq by now apply effectiveForceOn_nonneg.
  reflexivity.
Qed.

Lemma runSimulation_nth (e : Engine) (fv : ForceVector) (k : nat)
      (blk : SimulationBlock) :
  nth_error (blocks e) k = Some blk ->
  let blk' := simulateBlock (deformationScale e) fv blk in
  nth_error (blocks (fst (runSimulation e fv))) k = Some blk'
  /\ nth_error (results (snd (runSimulation e fv))) k
     = Some (stress (properties blk'), failed (properties blk')).
Proof.
  intros Hk blk'. simpl. rewrite !nth_error_map, Hk. split; reflexivity.
Qed.

Lemma library_limits_pos (t : MaterialType) (a : R) :
  0 < limitByAlignment (getMaterial t) a.
Proof.
  unfold limitByAlignment.
  destruct (Rgt_dec a 0.7); [|destruct (Rlt_dec a (-0.7))];
    destruct t; simpl; lra.
Qed.

(** *** A force straight above a mesh *)

Lemma pushDown_geometry (h0 h1 m : R) (msh : Mesh) :
  position msh = {| vx := 0; vy := h0; vz := 0 |} ->
  h0 < h1 ->
  alignmentTo (pushDown h1 m) msh = 1
  /\ effectiveForceOn (pushDown h1 m) msh
     = m * (1 / Rmax 1 ((h1 - h0) ^ 2)) * 1e8.
Proof.
  intros Hpos Hh.
  assert (Hlen : Three.length (subVectors (getWorldPosition msh)
                                    (forcePosition (pushDown h1 m)))
                 = h1 - h0).
  { unfold Three.length, getWorldPosition. rewrite Hpos. simpl.
    replace ((0 - 0) * (0 - 0) + (h0 - h1) * (h0 - h1) + (0 - 0) * (0 - 0))
      with ((h1 - h0) * (h1 - h0)) by ring.
    apply sqrt_square. lra. }
  assert (Ha : alignmentTo (pushDown h1 m) msh = 1).
  { unfold alignmentTo, normalize. rewrite Hlen.
    destruct (Req_dec_T (h1 - h0) 0) as [H0|_]; [lra|].
    unfold dot, getWorldPosition. rewrite Hpos. simpl. field. lra. }
  split; [exact Ha|].
  unfold effectiveForceOn. rewrite Ha. unfold distanceTo. rewrite Hlen.
  rewrite Rabs_R1. simpl magnitude. now rewrite Rmult_1_r.
Qed.

(** From at least one metre above, the force is a compression and its
    stress ratio is [m * 1e8 / distance^2 / maxCompression]. *)
Lemma pushDown_forceRatio (h0 h1 m : R) (blk : SimulationBlock) :
  position (mesh (properties blk)) = {| vx := 0; vy := h0; vz := 0 |} ->
  h0 + 1 <= h1 -> 0 <= m ->
  let msh := mesh (properties blk) in
  Rabs (effectiveForceOn (pushDown h1 m) msh)
  / limitByAlignment (material (properties blk))
                     (alignmentTo (pushDown h1 m) msh)
  = m * 1e8 / (h1 - h0) ^ 2 / maxCompression (material (properties blk)).
Proof.
  intros Hpos Hh Hm msh.
  destruct (pushDown_geometry h0 h1 m msh Hpos) as [Ha He]; [lra|].
  rewrite Ha, He. unfold limitByAlignment.
  destruct (Rgt_dec 1 0.7) as [_|Hn]; [|lra].
  assert (HD : 1 <= (h1 - h0) ^ 2) by nra.
  rewrite Rmax_right by exact HD.
  rewrite Rabs_pos_eq.
  - unfold Rdiv. ring.
  - apply Rmult_le_pos; [|lra]. apply Rmult_le_pos; [exact Hm|].
    left. apply Rdiv_lt_0_compat; lra.
Qed.

Lemma simulateBlock_frame (sf : R) (fv : ForceVector) (blk : SimulationBlock) :
  let blk' := simulateBlock sf fv blk in
  position (mesh (properties blk')) = position (mesh (properties blk))
  /\ material (properties blk') = material (properties blk)
  /\ boundaryCondition (properties blk') = boundaryCondition (properties blk)
  /\ mass (properties blk') = mass (properties blk).
Proof.
  unfold simulateBlock, applyDeformation.
  destruct (Rgt_dec _ 0.7); [|destruct (Rlt_dec _ (-0.7))];
  match goal with
  | |- context [calculateStress blk ?f ?t] =>
      destruct (calculateStress_frame blk f t) as (Hmesh & Hmat & Hbc & Hmass & _);
      rewrite Hbc; destruct (boundaryCondition (properties blk)) eqn:Hb;
      simpl; rewrite ?Hbc, ?Hmesh, ?Hmat, ?Hmass, ?Hb; repeat split; auto
  end.
Qed.

(** *** Colours *)

Lemma SRGBToLinear_0 : SRGBToLinear 0 = 0.
Proof. unfold SRGBToLinear. destruct (Rlt_dec 0 0.04045); lra. Qed.

Lemma SRGBToLinear_1 : SRGBToLinear 1 = 1.
Proof.
  unfold SRGBToLinear. destruct (Rlt_dec 1 0.04045); [lra|].
  replace (1 * 0.9478672986 + 0.0521327014) with 1 by lra.
  unfold Rpower. now rewrite ln_1, Rmult_0_r, exp_0.
Qed.

(** The decoding curve maps [0, 1] into [0, 1] and keeps what is positive
    positive. *)
Lemma SRGBToLinear_bounds (c : R) :
  0 <= c <= 1 -> 0 <= SRGBToLinear c <= 1 /\ (0 < c -> 0 < SRGBToLinear c).
Proof.
  intros [H0 H1]. unfold SRGBToLinear.
  destruct (Rlt_dec c 0.04045) as [Hlt|Hge].
  - split; [lra | intros; lra].
  - set (x := c * 0.9478672986 + 0.0521327014).
    assert (Hx : 0 < x <= 1) by (unfold x; lra).
    pose proof (exp_pos (2.4 * ln x)) as Hpos. unfold Rpower.
    split; [|intros _; exact Hpos]. split; [lra|].
    assert (Hln : ln x <= 0).
    { rewrite <- ln_1. destruct (proj2 Hx) as [Hl|He].
      - left. apply ln_increasing; lra.
      - rewrite He. lra. }
    rewrite <- exp_0. destruct (Req_dec (2.4 * ln x) 0) as [E|NE].
    + rewrite E. lra.
    + left. apply exp_increasing. nra.
Qed.

Lemma colorHex_red : colorHex 0xff0000 = {| r := 1; g := 0; b := 0 |}.
Proof.
  unfold colorHex.
  change (Z.land (Z.shiftr 0xff0000 16) 255) with 255%Z.
  change (Z.land (Z.shiftr 0xff0000 8) 255) with 0%Z.
  change (Z.land 0xff0000 255) with 0%Z.
  replace (255 / 255) with 1 by lra. replace (0 / 255) with 0 by lra.
  now rewrite SRGBToLinear_0, SRGBToLinear_1.
Qed.

Lemma colorHex_inGamut (hex : Z) : inGamut (colorHex hex).
Proof.
  assert (H : forall z, 0 <= SRGBToLinear (IZR (Z.land z 255) / 255) <= 1).
  { intros z.
    assert (Hz : (0 <= Z.land z 255 <= 255)%Z).
    { assert (He : Z.land z 255 = (z mod 256)%Z)
        by (apply (Z.land_ones z 8); lia).
      rewrite He.
      pose proof (Z.mod_pos_bound z 256 eq_refl) as Hb. lia. }
    destruct Hz as [Hz0 Hz1]. apply IZR_le in Hz0, Hz1.
    apply SRGBToLinear_bounds. lra. }
  unfold inGamut, colorHex. simpl. repeat split; apply H.
Qed.

Lemma lerpColors_inGamut (c1 c2 : Color) (t : R) :
  inGamut c1 -> inGamut c2 -> 0 <= t <= 1 -> inGamut (lerpColors c1 c2 t).
Proof.
  unfold inGamut, lerpColors. simpl.
  intros (Hr1 & Hg1 & Hb1) (Hr2 & Hg2 & Hb2) Ht.
  repeat split; nra.
Qed.

End EngineFacts.

(** ** The stress engine's claims *)

Section EngineClaims.
Import Three MaterialSystem FEASimulationEngine StressSpec Loads.
Local Open Scope R_scope.

(** C5: for every block processed by [runSimulation] under a force of
    non-negative magnitude, the resulting stress is
    [magnitude * |alignment| * (1 / max(1, distance^2)) * 1e8] divided by the
    limit the alignment thresholds select, plus [mass * 9.81 /
    maxCompression] unless the block is Fixed; the same value is reported in
    [results]. *)
Theorem runSimulation_stress_ratio (e : Engine) (fv : ForceVector) (k : nat)
        (blk : SimulationBlock) :
  0 <= magnitude fv ->
  nth_error (blocks e) k = Some blk ->
  exists blk',
    nth_error (blocks (fst (runSimulation e fv))) k = Some blk'
    /\ stress (properties blk')
       = forceStressRatio fv blk + selfWeightRatio blk
    /\ nth_error (results (snd (runSimulation e fv))) k
       = Some (stress (properties blk'), failed (properties blk')).
Proof.
  intros Hm Hk. destruct (runSimulation_nth e fv k blk Hk) as [Hb Hr].
  exists (simulateBlock (deformationScale e) fv blk).
  split; [exact Hb|]. split; [|exact Hr].
  now apply simulateBlock_formula.
Qed.

Lemma runSimulation_stress_ratio_witness :
  exists blk',
    nth_error (blocks (fst (runSimulation cubeEngine (pushDown 2 1)))) 0
    = Some blk'
    /\ stress (properties blk')
       = forceStressRatio (pushDown 2 1) steelCube + selfWeightRatio steelCube.
Proof.
  assert (Hm : 0 <= magnitude (pushDown 2 1)) by (simpl; lra).
  destruct (runSimulation_stress_ratio cubeEngine (pushDown 2 1) 0 steelCube
              Hm eq_refl) as (blk' & Hb & Hs & _).
  exists blk'. split; assumption.
Defined.

(** C6: with the blocks, the force origin and the force direction held
    fixed, a larger (non-negative) magnitude never yields a smaller stress
    for any block whose material comes from the library. *)
Theorem runSimulation_monotone_in_magnitude
        (e : Engine) (fv1 fv2 : ForceVector) (k : nat) (blk : SimulationBlock) :
  forcePosition fv1 = forcePosition fv2 ->
  direction fv1 = direction fv2 ->
  0 <= magnitude fv1 <= magnitude fv2 ->
  nth_error (blocks e) k = Some blk ->
  fromLibrary blk ->
  exists s1 f1 s2 f2,
    nth_error (results (snd (runSimulation e fv1))) k = Some (s1, f1)
    /\ nth_error (results (snd (runSimulation e fv2))) k = Some (s2, f2)
    /\ s1 <= s2.
Proof.
  intros Hp Hd [Hm1 Hm12] Hk [t Ht].
  destruct (runSimulation_nth e fv1 k blk Hk) as [_ Hr1].
  destruct (runSimulation_nth e fv2 k blk Hk) as [_ Hr2].
  do 4 eexists. split; [exact Hr1|]. split; [exact Hr2|].
  rewrite !simulateBlock_formula by lra.
  apply Rplus_le_compat_r.
  unfold forceStressRatio. rewrite Hp, Hd, Ht.
  set (a := dot _ _). set (d := distanceTo _ _).
  pose proof (library_limits_pos t a) as HL.
  pose proof (Rabs_pos a) as Ha.
  pose proof (distanceFactor_pos d) as Hdf.
  apply Rmult_le_compat_r; [left; now apply Rinv_0_lt_compat|].
  apply Rmult_le_compat_r; [lra|].
  apply Rmult_le_compat_r; [lra|].
  apply Rmult_le_compat_r; [lra|exact Hm12].
Qed.

Lemma runSimulation_monotone_in_magnitude_witness :
  exists s1 f1 s2 f2,
    nth_error (results (snd (runSimulation cubeEngine (pushDown 2 1)))) 0
    = Some (s1, f1)
    /\ nth_error (results (snd (runSimulation cubeEngine (pushDown 2 3)))) 0
       = Some (s2, f2)
    /\ s1 <= s2.
Proof.
  apply (runSimulation_monotone_in_magnitude
           cubeEngine (pushDown 2 1) (pushDown 2 3) 0 steelCube).
  - reflexivity.
  - reflexivity.
  - simpl; lra.
  - reflexivity.
  - exists STEEL. reflexivity.
Defined.

(** C7: [applyDeformation] leaves a Fixed block untouched, its mesh scale
    in particular, whatever its stress and the scale factor; any other
    block gets its original scale times
    [1 + stress * 0.1 * scaleFactor]. *)
Theorem applyDeformation_boundary (blk : SimulationBlock) (scaleFactor : R) :
  (boundaryCondition (properties blk) = FIXED ->
     applyDeformation blk scaleFactor = blk
     /\ scale (mesh (properties (applyDeformation blk scaleFactor)))
        = scale (mesh (properties blk)))
  /\ (boundaryCondition (properties blk) <> FIXED ->
        scale (mesh (properties (applyDeformation blk scaleFactor)))
        = multiplyScalar (originalScale blk)
            (1 + stress (properties blk) * 0.1 * scaleFactor)).
Proof.
  unfold applyDeformation.
  destruct (boundaryCondition (properties blk)); split; intros H;
    try discriminate; try (now split); try reflexivity; congruence.
Qed.

Lemma applyDeformation_boundary_witness :
  applyDeformation (setStress steelAnchor 3) 5 = setStress steelAnchor 3
  /\ scale (mesh (properties (applyDeformation (setStress steelCube 3) 5)))
     = multiplyScalar unitScale (1 + 3 * 0.1 * 5).
Proof.
  split.
  - apply (applyDeformation_boundary (setStress steelAnchor 3) 5).
    reflexivity.
  - apply (applyDeformation_boundary (setStress steelCube 3) 5).
    discriminate.
Defined.

(** C8: the colour mapping is total; a failed flag or a ratio of at least 1
    always gives the same pure red; below 1 the colour interpolates
    green to yellow-green on [0, 0.3), yellow-green to yellow on
    [0.3, 0.6) and yellow to orange on [0.6, 1); and for every ratio in
    [0, +inf) the channels are defined values in [0, 1]. *)
Theorem getStressColor_total_piecewise (s : R) (isFailed : bool) :
  colorHex 0xff0000 = {| r := 1; g := 0; b := 0 |}
  /\ (isFailed = true \/ 1 <= s ->
      getStressColor s isFailed = colorHex 0xff0000)
  /\ (isFailed = false -> s < 0.3 ->
      getStressColor s isFailed
      = lerpColors (colorHex 0x00ff00) (colorHex 0x88ff00) (s / 0.3))
  /\ (isFailed = false -> 0.3 <= s < 0.6 ->
      getStressColor s isFailed
      = lerpColors (colorHex 0x88ff00) (colorHex 0xffff00) ((s - 0.3) / 0.3))
  /\ (isFailed = false -> 0.6 <= s < 1 ->
      getStressColor s isFailed
      = lerpColors (colorHex 0xffff00) (colorHex 0xff8800) ((s - 0.6) / 0.4))
  /\ (0 <= s -> inGamut (getStressColor s isFailed)).
Proof.
  split; [exact colorHex_red|].
  unfold getStressColor.
  split; [|split; [|split; [|split]]].
  - intros [-> | Hs]; [reflexivity|].
    destruct (Rge_dec s 1) as [_|Hn]; [|lra].
    now rewrite orb_true_r.
  - intros -> Hs. destruct (Rge_dec s 1); [lra|]. simpl.
    destruct (Rlt_dec s 0.3); [reflexivity|lra].
  - intros -> Hs. destruct (Rge_dec s 1); [lra|]. simpl.
    destruct (Rlt_dec s 0.3); [lra|].
    destruct (Rlt_dec s 0.6); [reflexivity|lra].
  - intros -> Hs. destruct (Rge_dec s 1); [lra|]. simpl.
    destruct (Rlt_dec s 0.3); [lra|].
    destruct (Rlt_dec s 0.6); [lra|reflexivity].
  - intros Hs.
    destruct (isFailed || (if Rge_dec s 1 then true else false)) eqn:Hred;
      [apply colorHex_inGamut|].
    apply orb_false_iff in Hred. destruct Hred as [_ Hlt].
    destruct (Rge_dec s 1) as [|Hlt1]; [discriminate|].
    destruct (Rlt_dec s 0.3); [|destruct (Rlt_dec s 0.6)];
      apply lerpColors_inGamut; try apply colorHex_inGamut;
      split; try (apply Rle_div_r || idtac); unfold Rdiv; lra.
Qed.

Lemma getStressColor_total_piecewise_witness :
  getStressColor 0.45 false
  = lerpColors (colorHex 0x88ff00) (colorHex 0xffff00) ((0.45 - 0.3) / 0.3)
  /\ getStressColor 0.45 true = colorHex 0xff0000
  /\ inGamut (getStressColor 0.45 false).
Proof.
  destruct (getStressColor_total_piecewise 0.45 false)
    as (_ & _ & _ & Hmid & _ & Hgamut).
  destruct (getStressColor_total_piecewise 0.45 true) as (_ & Hred & _).
  split; [apply Hmid; [reflexivity | lra]|].
  split; [apply Hred; left; reflexivity|].
  apply Hgamut. lra.
Defined.

(** C1 (defect in the code): a free concrete block 12 m on a side under a
    light force from 10 m above comes out of [runSimulation] with a stress
    ratio of 1.4061344, of which 1.3561344 is self-weight, and with
    [failed == false]: the flag is decided before the self-weight term is
    added and is not revisited. *)
Theorem self_weight_failure_unflagged :
  results (snd (runSimulation massEngine (pushDown 16 1.5)))
  = [(1.4061344, false)]
  /\ failedBlocks (snd (runSimulation massEngine (pushDown 16 1.5))) = 0%nat
  /\ 1 <= 1.4061344.
Proof.
  assert (Hratio :
    Rabs (effectiveForceOn (pushDown 16 1.5) (mesh (properties concreteMass)))
    / limitByAlignment (material (properties concreteMass))
        (alignmentTo (pushDown 16 1.5) (mesh (properties concreteMass)))
    = 0.05).
  { rewrite (pushDown_forceRatio 6 16 1.5 concreteMass eq_refl) by lra.
    simpl. lra. }
  assert (Hf : failed (properties (simulateBlock 5 (pushDown 16 1.5)
                                                 concreteMass)) = false).
  { rewrite simulateBlock_failed, Hratio.
    destruct (Rge_dec 0.05 1); [lra | reflexivity]. }
  assert (Hs : stress (properties (simulateBlock 5 (pushDown 16 1.5)
                                                 concreteMass)) = 1.4061344).
  { rewrite simulateBlock_stress, Hratio.
    unfold selfWeightRatio. simpl. lra. }
  split; [|split; [|lra]].
  - cbn [runSimulation snd results massEngine blocks deformationScale map].
    now rewrite Hs, Hf.
  - cbn [runSimulation snd failedBlocks massEngine blocks deformationScale
         map filter].
    now rewrite Hf.
Qed.

(** C10: the failure flag is sticky.  [calculateStress] never clears it,
    so a block that is failed before [runSimulation] is failed after it and
    is reported failed in [results], whatever the force; of the block's
    methods only [reset], and of the engine's methods only
    [resetSimulation] and [clearVectors], turn a set flag off, and these
    three always leave it off.  No method of the engine drops a block:
    [resetSimulation] and [clearVectors] leave at every index the block
    that was there, reset, with its material, boundary condition and mass;
    and the flag of a block that has been reset is set by the next run
    exactly when that run's own force ratio reaches 1. *)
Theorem failed_flag_sticky :
  (forall blk f t,
     failed (properties blk) = true ->
     failed (properties (calculateStress blk f t)) = true)
  /\ (forall e fv k blk,
        nth_error (blocks e) k = Some blk ->
        failed (properties blk) = true ->
        exists blk',
          nth_error (blocks (fst (runSimulation e fv))) k = Some blk'
          /\ failed (properties blk') = true
          /\ nth_error (results (snd (runSimulation e fv))) k
             = Some (stress (properties blk'), true))
  /\ (forall blk op,
        failed (properties blk) = true ->
        failed (properties (applyBlockOp blk op)) = false ->
        op = Reset)
  /\ (forall e op k blk blk',
        nth_error (blocks e) k = Some blk ->
        nth_error (blocks (applyEngineOp e op)) k = Some blk' ->
        failed (properties blk) = true ->
        failed (properties blk') = false ->
        op = ResetSimulation \/ op = ClearVectors)
  /\ (forall blk, failed (properties (reset blk)) = false)
  /\ (forall e blk,
        In blk (blocks (resetSimulation e)) \/ In blk (blocks (clearVectors e)) ->
        failed (properties blk) = false)
  /\ (forall e op,
        List.length (blocks (applyEngineOp e op)) = List.length (blocks e))
  /\ (forall e k blk,
        nth_error (blocks e) k = Some blk ->
        nth_error (blocks (resetSimulation e)) k = Some (reset blk)
        /\ nth_error (blocks (clearVectors e)) k = Some (reset blk))
  /\ (forall blk,
        material (properties (reset blk)) = material (properties blk)
        /\ boundaryCondition (properties (reset blk))
           = boundaryCondition (properties blk)
        /\ mass (properties (reset blk)) = mass (properties blk)
        /\ position (mesh (properties (reset blk))) = originalPosition blk)
  /\ (forall blk sf fv,
        failed (properties (simulateBlock sf fv (reset blk))) = true <->
        Rabs (effectiveForceOn fv (mesh (properties (reset blk))))
        / limitByAlignment (material (properties blk))
            (alignmentTo fv (mesh (properties (reset blk)))) >= 1).
Proof.
  assert (Hcalc : forall blk f t,
            failed (properties blk) = true ->
            failed (properties (calculateStress blk f t)) = true).
  { intros blk f t H. rewrite calculateStress_failed.
    now destruct (Rge_dec _ 1). }
  assert (Hsim : forall sf fv blk,
            failed (properties blk) = true ->
            failed (properties (simulateBlock sf fv blk)) = true).
  { intros sf fv blk H. rewrite simulateBlock_failed.
    now destruct (Rge_dec _ 1). }
  split; [exact Hcalc|].
  split; [|split; [|split; [|split; [|split; [|split; [|split; [|split]]]]]]].
  - intros e fv k blk Hk Hf.
    destruct (runSimulation_nth e fv k blk Hk) as [Hb Hr].
    exists (simulateBlock (deformationScale e) fv blk).
    split; [exact Hb|]. rewrite Hr, (Hsim _ _ _ Hf). auto.
  - intros blk op Hf Hoff. destruct op as [f t|sf| |]; simpl in Hoff.
    + rewrite (Hcalc _ _ _ Hf) in Hoff. discriminate.
    + rewrite (proj2 (applyDeformation_frame _ _)), Hf in Hoff. discriminate.
    + unfold resetDeformation in Hoff. simpl in Hoff. congruence.
    + reflexivity.
  - intros e op k blk blk' Hk Hk' Hf Hoff.
    destruct op as [fv| |sf|]; simpl in Hk'; auto.
    + destruct (runSimulation_nth e fv k blk Hk) as [Hb _].
      simpl in Hb. rewrite Hb in Hk'. injection Hk' as <-.
      rewrite (Hsim _ _ _ Hf) in Hoff. discriminate.
    + rewrite Hk in Hk'. injection Hk' as <-. congruence.
  - intros blk. reflexivity.
  - intros e blk [H|H]; simpl in H; apply in_map_iff in H;
      destruct H as (b0 & <- & _); reflexivity.
  - intros e op. destruct op as [fv| |sf|]; simpl;
      rewrite ?length_map; reflexivity.
  - intros e k blk Hk. simpl. rewrite !nth_error_map, Hk.
    split; reflexivity.
  - intros blk. repeat split.
  - intros blk sf fv. rewrite simulateBlock_failed.
    change (material (properties (reset blk)))
      with (material (properties blk)).
    change (failed (properties (reset blk))) with false.
    destruct (Rge_dec _ 1) as [Hge|Hlt].
    + split; auto.
    + split; [discriminate | intros H; contradiction].
Qed.

Lemma failed_flag_sticky_witness :
  exists blk',
    nth_error
      (blocks (fst (runSimulation
                      (fst (runSimulation cubeEngine (pushDown 2 20)))
                      (pushDown 2 1)))) 0
    = Some blk'
    /\ failed (properties blk') = true
    /\ nth_error
         (results (snd (runSimulation
                          (fst (runSimulation cubeEngine (pushDown 2 20)))
                          (pushDown 2 1)))) 0
       = Some (stress (properties blk'), true).
Proof.
  destruct failed_flag_sticky as (_ & Hrun & _).
  apply (Hrun (fst (runSimulation cubeEngine (pushDown 2 20)))
              (pushDown 2 1) 0%nat
              (simulateBlock 5 (pushDown 2 20) steelCube) eq_refl).
  rewrite simulateBlock_failed.
  rewrite (pushDown_forceRatio 0.5 2 20 steelCube eq_refl) by lra.
  destruct (Rge_dec _ 1) as [_|Hn]; [reflexivity|].
  exfalso. apply Hn. simpl. lra.
Defined.

(** The flag outlives the load: the steel cube that failed under a force of
    20 is run again under a force of 1 and comes out with a stress ratio
    below 1 and [failed == true]. *)
Example weaker_rerun_reports_failed :
  exists s,
    results (snd (runSimulation
                    (fst (runSimulation cubeEngine (pushDown 2 20)))
                    (pushDown 2 1)))
    = [(s, true)]
    /\ s < 1.
Proof.
  set (blk1 := simulateBlock 5 (pushDown 2 20) steelCube).
  destruct (simulateBlock_frame 5 (pushDown 2 20) steelCube)
    as (Hpos & Hmat & Hbc & Hmass). fold blk1 in Hpos, Hmat, Hbc, Hmass.
  assert (Hf1 : failed (properties blk1) = true).
  { unfold blk1. rewrite simulateBlock_failed.
    rewrite (pushDown_forceRatio 0.5 2 20 steelCube eq_refl) by lra.
    destruct (Rge_dec _ 1) as [_|Hn]; [reflexivity|].
    exfalso. apply Hn. simpl. lra. }
  assert (Hratio :
    Rabs (effectiveForceOn (pushDown 2 1) (mesh (properties blk1)))
    / limitByAlignment (material (properties blk1))
        (alignmentTo (pushDown 2 1) (mesh (properties blk1)))
    = 1 / 9).
  { rewrite (pushDown_forceRatio 0.5 2 1 blk1 Hpos) by lra.
    rewrite Hmat. simpl. lra. }
  exists (stress (properties (simulateBlock 5 (pushDown 2 1) blk1))).
  split.
  - cbn [runSimulation snd fst results cubeEngine blocks deformationScale
         map]. fold blk1.
    rewrite simulateBlock_failed, Hf1.
    now destruct (Rge_dec _ 1).
  - rewrite simulateBlock_stress, Hratio.
    unfold selfWeightRatio. rewrite Hbc, Hmat, Hmass. simpl. lra.
Qed.

End EngineClaims.

(** ** Further properties of the validity agent *)

Section ValidityExtras.
Import ValidityAgent SupportGraph Scenes OrderSpec.
Local Open Scope Q_scope.

Lemma validateFrom_In (blocks rest : list Block) (i0 i : nat) (p : Q * Q * Q) :
  In (BlockIsFloating i p) (validateFrom blocks rest i0) <->
  exists k b, i = (i0 + k)%nat /\ nth_error rest k = Some b /\ pos b = p
              /\ hasSupport b blocks (Z.of_nat i) = false.
Proof.
  revert i0. induction rest as [|b tl IH]; intros i0; simpl.
  - split; [tauto|]. intros (k & b & _ & Hk & _). destruct k; discriminate.
  - assert (Htl : In (BlockIsFloating i p) (validateFrom blocks tl (S i0)) <->
              exists k c, i = (i0 + S k)%nat /\ nth_error tl k = Some c
                          /\ pos c = p /\ hasSupport c blocks (Z.of_nat i) = false).
    { rewrite IH. split; intros (k & c & Hi & H); exists k, c;
        (split; [lia | exact H]). }
    destruct (hasSupport b blocks (Z.of_nat i0)) eqn:Hb.
    + rewrite Htl. split.
      * intros (k & c & Hi & H). exists (S k), c. auto.
      * intros (k & c & Hi & Hk & Hp & Hs). destruct k as [|k].
        -- simpl in Hk. injection Hk as <-. rewrite Nat.add_0_r in Hi.
           subst i. congruence.
        -- exists k, c. auto.
    + simpl. rewrite Htl. split.
      * intros [Heq|(k & c & Hi & H)].
        -- injection Heq as <- <-. exists 0%nat, b.
           rewrite Nat.add_0_r. auto.
        -- exists (S k), c. auto.
      * intros (k & c & Hi & Hk & Hp & Hs). destruct k as [|k].
        -- simpl in Hk. injection Hk as <-. rewrite Nat.add_0_r in Hi.
           subst. now left.
        -- right. exists k, c. auto.
Qed.

Lemma validateFrom_length (blocks rest : list Block) (i0 : nat) :
  (List.length (validateFrom blocks rest i0) <= List.length rest)%nat.
Proof.
  revert i0. induction rest as [|b tl IH]; intros i0; simpl; [lia|].
  specialize (IH (S i0)). destruct (hasSupport b blocks (Z.of_nat i0)); simpl; lia.
Qed.

(** X1: on a non-empty structure the issue list names exactly the blocks
    that fail [hasSupport] at their own index, each with its position; it
    never holds more entries than there are blocks. *)
Theorem validateStructure_issues_exact (blocks : list Block) :
  blocks <> [] ->
  (forall i p,
     In (BlockIsFloating i p) (issues (validateStructure blocks)) <->
     exists b, nth_error blocks i = Some b /\ pos b = p
               /\ hasSupport b blocks (Z.of_nat i) = false)
  /\ ~ In NoBlocksInStructure (issues (validateStructure blocks))
  /\ (List.length (issues (validateStructure blocks)) <= List.length blocks)%nat.
Proof.
  intros Hne. destruct blocks as [|b0 tl]; [congruence|].
  unfold validateStructure. cbn [issues].
  split; [|split].
  - intros i p. rewrite validateFrom_In. split.
    + intros (k & b & -> & H). exists b. exact H.
    + intros (b & H). exists i, b. split; [reflexivity | exact H].
  - generalize (b0 :: tl) at 1. generalize 0%nat. generalize (b0 :: tl).
    induction l as [|b tl' IH]; intros n bl; simpl; [tauto|].
    destruct (hasSupport b bl (Z.of_nat n)); simpl; [apply IH|].
    intros [H|H]; [discriminate | exact (IH _ _ H)].
  - apply validateFrom_length.
Qed.

Lemma validateStructure_issues_exact_witness :
  In (BlockIsFloating 1 (0, 5, 0)) (issues (validateStructure misplacedStack)).
Proof.
  assert (Hne : misplacedStack <> []) by discriminate.
  destruct (validateStructure_issues_exact misplacedStack Hne) as [H _].
  apply H. exists (box 0 5 1 1). repeat split.
Defined.

(** X2: [checkOverlap] is symmetric in the two ranges, and on two
    well-formed ranges it holds exactly when the closed intervals share a
    point, so ranges that only touch at an end overlap. *)
Theorem checkOverlap_shared_point (min1 max1 min2 max2 : Q) :
  checkOverlap min1 max1 min2 max2 = checkOverlap min2 max2 min1 max1
  /\ (min1 <= max1 -> min2 <= max2 ->
      (checkOverlap min1 max1 min2 max2 = true <->
       exists x, (min1 <= x /\ x <= max1) /\ (min2 <= x /\ x <= max2))).
Proof.
  split.
  - unfold checkOverlap. now rewrite orb_comm.
  - intros H1 H2. unfold checkOverlap.
    rewrite negb_true_iff, orb_false_iff, !Qltb_ge. split.
    + intros [Ha Hb]. destruct (Qlt_le_dec min1 min2) as [Hlt|Hle].
      * exists min2. repeat split; lra.
      * exists min1. repeat split; lra.
    + intros (x & [Ha Hb] & [Hc Hd]). split; lra.
Qed.

Lemma checkOverlap_shared_point_witness :
  checkOverlap 0 1 1 2 = true.
Proof.
  destruct (checkOverlap_shared_point 0 1 1 2) as [_ H].
  apply H; try lra.
  exists 1. repeat split; lra.
Defined.

Lemma fixLoop_keeps_grounded (todo : list Item) (placed : list Block) :
  exists moved, fixLoop todo placed = placed ++ moved
    /\ Forall2 (fun it b' => onGround (block it) = true -> b' = block it)
               todo moved.
Proof.
  revert placed. induction todo as [|it tl IH]; intros placed; simpl.
  - exists []. now rewrite app_nil_r.
  - destruct (IH (placed ++ [fixBlock (block it) placed])) as (mv & He & Hf).
    exists (fixBlock (block it) placed :: mv). rewrite He, <- app_assoc.
    split; [reflexivity|]. constructor; auto.
    intros Hg. unfold fixBlock, hasSupport. now rewrite Hg.
Qed.

Lemma Forall2_nth_left {A B} (R : A -> B -> Prop) (l1 : list A)
      (l2 : list B) (k : nat) (x : A) :
  Forall2 R l1 l2 -> nth_error l1 k = Some x ->
  exists y2, nth_error l2 k = Some y2 /\ R x y2.
Proof.
  intros H. revert k. induction H as [|x' y' l1 l2 Hxy Hl IH]; intros k Hk.
  - destruct k; discriminate.
  - destruct k as [|k]; simpl in *.
    + injection Hk as <-. eauto.
    + now apply IH.
Qed.

(** X4: the fix pass never moves a block that is on the ground: it comes
    back unchanged, at the output index its height gives it. *)
Theorem fix_keeps_grounded_blocks (blocks : list Block) (k : nat) (it : Item) :
  nth_error (sortedItems blocks) k = Some it ->
  onGround (block it) = true ->
  nth_error (fixFloatingBlocks blocks) k = Some (block it)
  /\ In (block it) blocks.
Proof.
  intros Hk Hg. split.
  - unfold fixFloatingBlocks.
    destruct (fixLoop_keeps_grounded (sortedItems blocks) []) as (mv & -> & Hf).
    simpl. destruct (Forall2_nth_left _ _ _ _ _ Hf Hk) as (b' & Hb' & Heq).
    now rewrite Hb', (Heq Hg).
  - apply nth_error_In in Hk. apply sortedItems_lookup in Hk.
    destruct Hk as [Hn _]. eapply nth_error_In; eauto.
Qed.

Lemma fix_keeps_grounded_blocks_witness :
  nth_error (fixFloatingBlocks topFirst) 0 = Some (box 0 0.5 1 1).
Proof.
  apply (fix_keeps_grounded_blocks topFirst 0
           {| block := box 0 0.5 1 1; index := 1; y := 0.5 |}).
  - reflexivity.
  - reflexivity.
Defined.

(** *** Stability of the sort *)

Lemma occursBefore_cons {A} (x a b : A) (l : list A) :
  occursBefore a b l -> occursBefore a b (x :: l).
Proof.
  intros (l1 & l2 & l3 & ->). exists (x :: l1), l2, l3. reflexivity.
Qed.

Lemma occursBefore_head {A} (a b : A) (l : list A) :
  In b l -> occursBefore a b (a :: l).
Proof.
  intros H. apply in_split in H. destruct H as (l2 & l3 & ->).
  exists [], l2, l3. reflexivity.
Qed.

Lemma occursBefore_inv {A} (x a b : A) (l : list A) :
  occursBefore a b (x :: l) ->
  (x = a /\ In b l) \/ occursBefore a b l.
Proof.
  intros (l1 & l2 & l3 & H). destruct l1 as [|x' l1]; simpl in H.
  - injection H as -> ->. left. split; [reflexivity|].
    apply in_or_app. right. now left.
  - injection H as -> ->. right. exists l1, l2, l3. reflexivity.
Qed.

Lemma insertItem_keeps_order (x a b : Item) (l : list Item) :
  occursBefore a b l -> occursBefore a b (insertItem x l).
Proof.
  induction l as [|e tl IH]; intros H.
  - destruct H as (l1 & l2 & l3 & H). destruct l1; discriminate.
  - simpl. destruct (Qle_bool (y x) (y e)).
    + now apply occursBefore_cons.
    + apply occursBefore_inv in H. destruct H as [[-> Hb]|H].
      * apply occursBefore_head.
        eapply Permutation_in; [apply insertItem_perm|]. now right.
      * apply occursBefore_cons. now apply IH.
Qed.

Lemma insertItem_before_larger (x b : Item) (l : list Item) :
  In b l -> y x <= y b -> occursBefore x b (insertItem x l).
Proof.
  induction l as [|e tl IH]; intros Hin Hle; [destruct Hin|].
  simpl. destruct (Qle_bool (y x) (y e)) eqn:Hxe.
  - now apply occursBefore_head.
  - apply occursBefore_cons. apply IH; auto.
    destruct Hin as [->|Hin]; auto.
    apply Qle_bool_iff in Hle. congruence.
Qed.

Lemma sortByY_stable (a b : Item) (l : list Item) :
  occursBefore a b l -> y a <= y b -> occursBefore a b (sortByY l).
Proof.
  induction l as [|x tl IH]; intros H Hle.
  - destruct H as (l1 & l2 & l3 & H). destruct l1; discriminate.
  - simpl. apply occursBefore_inv in H. destruct H as [[-> Hb]|H].
    + apply insertItem_before_larger; auto.
      eapply Permutation_in; [apply sortByY_perm | exact Hb].
    + apply insertItem_keeps_order. now apply IH.
Qed.

Lemma itemsFrom_occursBefore (i0 i j : nat) (blocks : list Block) (a b : Block) :
  (i < j)%nat -> nth_error blocks i = Some a -> nth_error blocks j = Some b ->
  occursBefore {| block := a; index := i0 + i; y := posY a |}
               {| block := b; index := i0 + j; y := posY b |}
               (itemsFrom i0 blocks).
Proof.
  revert i0 i j. induction blocks as [|c tl IH]; intros i0 i j Hij Ha Hb.
  - destruct i; discriminate.
  - destruct j as [|j]; [lia|]. simpl in Hb. destruct i as [|i]; simpl in Ha.
    + injection Ha as ->. simpl. rewrite Nat.add_0_r.
      apply occursBefore_head.
      replace (i0 + S j)%nat with (S i0 + j)%nat by lia.
      now apply itemsFrom_nth.
    + simpl. apply occursBefore_cons.
      replace (i0 + S i)%nat with (S i0 + i)%nat by lia.
      replace (i0 + S j)%nat with (S i0 + j)%nat by lia.
      apply IH; auto. lia.
Qed.

Lemma occursBefore_map {A B} (f : A -> B) (a b : A) (l : list A) :
  occursBefore a b l -> occursBefore (f a) (f b) (map f l).
Proof.
  intros (l1 & l2 & l3 & ->). exists (map f l1), (map f l2), (map f l3).
  now rewrite map_app, map_cons, map_app, map_cons.
Qed.

(** X6: the sort is stable: of two input blocks, the earlier one also comes
    first in the processing order of the fix pass unless it is strictly
    higher; blocks of equal height keep their input order. *)
Theorem sortedIndices_stable (blocks : list Block) (i j : nat) (a b : Block) :
  (i < j)%nat ->
  nth_error blocks i = Some a -> nth_error blocks j = Some b ->
  posY a <= posY b ->
  occursBefore i j (sortedIndices blocks).
Proof.
  intros Hij Ha Hb Hle.
  pose proof (itemsFrom_occursBefore 0 i j blocks a b Hij Ha Hb) as H.
  apply sortByY_stable in H; [|exact Hle].
  apply (occursBefore_map index) in H. exact H.
Qed.

Lemma sortedIndices_stable_witness :
  occursBefore 0%nat 1%nat (sortedIndices hoveringPlates).
Proof.
  apply (sortedIndices_stable hoveringPlates 0 1
           (box 0 5 1 0.05) (box 0.5 5 1 0.05)).
  - lia.
  - reflexivity.
  - reflexivity.
  - apply Qle_refl.
Defined.

End ValidityExtras.

(** ** Further properties of the validity agent on binary64 numbers *)

Section Binary64Extras.
Import ValidityAgent64 SupportGraph64 Scenes64 VariantCheck OrderSpec64.
Local Open Scope float_scope.

Lemma supportFold_bounds_b64 (b : Block) (placed : list Block) (acc : float) :
  let f := fun highestSupport otherBlock =>
             if footprintsOverlap b otherBlock
             then Math.max highestSupport (topY otherBlock)
             else highestSupport in
  PrimFloat.is_nan (fold_left f placed acc) = false ->
  PrimFloat.is_nan acc = false
  /\ (fold_left f placed acc <? acc) = false
  /\ forall c, In c placed -> footprintsOverlap b c = true ->
               PrimFloat.is_nan (topY c) = false
               /\ (fold_left f placed acc <? topY c) = false.
Proof.
  intros f. revert acc. induction placed as [|o tl IH]; intros acc Hn; simpl in *.
  - split; [exact Hn|]. split; [apply ltb_irrefl | tauto].
  - destruct (IH (f acc o) Hn) as (Hn' & Hacc & Hin).
    set (s := fold_left f tl (f acc o)) in *.
    assert (Hbelow : forall t, PrimFloat.is_nan (f acc o) = false ->
              (f acc o <? t) = false -> (s <? t) = false).
    { intros t Hf Ht. destruct (s <? t) eqn:Hst; [|reflexivity].
      destruct (ltb_cotrans s (f acc o) t Hf Hst); congruence. }
    destruct (footprintsOverlap b o) eqn:Hov.
    + assert (Hfe : f acc o = Math.max acc (topY o))
        by (unfold f; now rewrite Hov).
      rewrite Hfe in Hn', Hbelow.
      destruct (Math_max_bounds _ _ Hn') as (Ha & Ht & Hma & Hmt).
      split; [exact Ha|]. split; [now apply Hbelow|].
      intros c [<-|Hc] Hovc; [|now apply Hin].
      split; [exact Ht | now apply Hbelow].
    + assert (Hfe : f acc o = acc) by (unfold f; now rewrite Hov).
      rewrite Hfe in Hn', Hacc.
      split; [exact Hn'|]. split; [exact Hacc|].
      intros c [<-|Hc] Hovc; [congruence | now apply Hin].
Qed.

(** X3: the surface on which the fix pass puts a block is ground level or
    the top face of a placed block under the block's footprint; unless it
    is NaN, neither the ground nor any such top face lies above it.  A
    block that is moved gets its centre half its height above that
    surface. *)
Theorem findSupportSurface_highest (b : Block) (placed : list Block) :
  (findSupportSurface b placed = 0
   \/ exists c, In c placed /\ footprintsOverlap b c = true
                /\ findSupportSurface b placed = topY c)
  /\ (PrimFloat.is_nan (findSupportSurface b placed) = false ->
      (findSupportSurface b placed <? 0) = false
      /\ forall c, In c placed -> footprintsOverlap b c = true ->
                   PrimFloat.is_nan (topY c) = false
                   /\ (findSupportSurface b placed <? topY c) = false)
  /\ (hasSupport b placed (-1) = false ->
      posY (fixBlock b placed)
      = findSupportSurface b placed + height b / 2).
Proof.
  split; [|split].
  - destruct (findSupportSurface_cases_b64 b placed)
      as [H|(k & c & Hk & Hov & He)]; [now left|].
    right. exists c. split; [eapply nth_error_In; eauto | auto].
  - intros Hn. destruct (supportFold_bounds_b64 b placed 0 Hn) as (_ & H0 & Hc).
    split; [exact H0 | exact Hc].
  - intros Hs. unfold fixBlock. rewrite Hs. simpl.
    now destruct (setPosY_fields_b64 b
                    (findSupportSurface b placed + height b / 2))
      as (_ & _ & -> & _).
Qed.

(** X5: when the comparator of the sort puts no block behind a later one,
    the sort leaves every index in place; if moreover every block has
    support among the blocks listed before it, the fix pass returns the
    input itself. *)
Theorem fix_ordered_carried_is_identity (blocks : list Block) :
  keyOrdered blocks ->
  sortedIndices blocks = seq 0 (List.length blocks)
  /\ (carriedByEarlier blocks -> fixFloatingBlocks blocks = blocks).
Proof.
  intros Hs. pose proof (sortedItems_ordered_b64 blocks Hs) as Hid. split.
  - unfold sortedIndices. rewrite Hid. apply itemsFrom_index_b64.
  - intros Hc. now apply fix_of_carried_b64.
Qed.

Lemma fix_ordered_carried_is_identity_witness :
  fixFloatingBlocks (fixFloatingBlocks misplacedStack)
  = fixFloatingBlocks misplacedStack.
Proof.
  assert (Hs : keyOrdered (fixFloatingBlocks misplacedStack)).
  { repeat constructor. }
  destruct (fix_ordered_carried_is_identity _ Hs) as [_ H].
  apply H. intros k b Hk.
  destruct k as [|[|k]]; simpl in Hk.
  - injection Hk as <-. reflexivity.
  - injection Hk as <-. reflexivity.
  - destruct k; discriminate Hk.
Defined.

(** *** The variant check of the caller *)

(** X7: the variant check returns an empty variant as it is, through its
    "could not be fully fixed" branch, and a variant that validates
    untouched; it returns as many blocks as it was given; whenever it takes
    another branch than "could not be fully fixed" the data it returns
    validates; and a non-empty variant in which rounding loses no block
    never takes that branch. *)
Theorem validateVariant_outcome (data : list Block) :
  (data = [] -> validateVariant data = ([], CouldNotBeFullyFixed))
  /\ (valid (validateStructure data) = true ->
      validateVariant data = (data, ValidNoFloatingBlocks))
  /\ List.length (fst (validateVariant data)) = List.length data
  /\ (snd (validateVariant data) <> CouldNotBeFullyFixed ->
      valid (validateStructure (fst (validateVariant data))) = true)
  /\ (data <> [] ->
      (forall b c, In b data -> In c (fixFloatingBlocks data) ->
                   settlesOn b c) ->
      valid (validateStructure (fst (validateVariant data))) = true
      /\ snd (validateVariant data) <> CouldNotBeFullyFixed).
Proof.
  split; [|split; [|split; [|split]]].
  - intros ->. reflexivity.
  - intros Hv. unfold validateVariant. now rewrite Hv.
  - unfold validateVariant.
    destruct (valid (validateStructure data)); cbn [negb]; [reflexivity|].
    destruct (valid (validateStructure (fixFloatingBlocks data)));
      cbn [fst]; apply fixFloatingBlocks_length_b64.
  - unfold validateVariant.
    destruct (valid (validateStructure data)) eqn:Hv; cbn [negb fst snd];
      [intros _; exact Hv|].
    destruct (valid (validateStructure (fixFloatingBlocks data))) eqn:Hf;
      cbn [fst snd]; [intros _; exact Hf | congruence].
  - intros Hne Hon.
    pose proof (fixFloatingBlocks_valid_b64 data Hne Hon) as Hfix.
    unfold validateVariant.
    destruct (valid (validateStructure data)) eqn:Hv; cbn [negb fst snd].
    + split; [exact Hv | discriminate].
    + rewrite Hfix. cbn [fst snd]. split; [exact Hfix | discriminate].
Qed.

(** The third branch is taken for a non-empty variant when rounding loses
    a block. *)
Example tall_slab_could_not_be_fixed :
  snd (validateVariant tallSlab) = CouldNotBeFullyFixed
  /\ snd (validateVariant columnAndPlates) = FixedSuccessfully.
Proof. split; reflexivity. Qed.

End Binary64Extras.

(** ** Further properties of the stress engine *)

Section EngineExtras.
Import Three MaterialSystem FEASimulationEngine StressSpec Loads.
Local Open Scope R_scope.

Lemma div_ge_bound (a b c : R) : 0 < c -> b * c <= a -> b <= a / c.
Proof.
  intros Hc H. assert (He : a / c * c = a) by (field; lra). nra.
Qed.

Lemma div_le_bound (a b c : R) : 0 < c -> a <= b * c -> a / c <= b.
Proof.
  intros Hc H. assert (He : a / c * c = a) by (field; lra). nra.
Qed.

(** *** The returned summary *)

Lemma maxStress_fold_bounds (l : list SimulationBlock) (acc : R) :
  let f := fun acc blk => Rmax acc (stress (properties blk)) in
  acc <= fold_left f l acc
  /\ (forall blk, In blk l -> stress (properties blk) <= fold_left f l acc)
  /\ (fold_left f l acc = acc
      \/ exists blk, In blk l /\ fold_left f l acc = stress (properties blk)).
Proof.
  intros f. revert acc. induction l as [|b tl IH]; intros acc; simpl.
  - split; [lra|]. split; [tauto | now left].
  - destruct (IH (f acc b)) as (Hacc & Hin & Hat).
    assert (Hl : acc <= f acc b) by apply Rmax_l.
    assert (Hr : stress (properties b) <= f acc b) by apply Rmax_r.
    split; [lra|]. split.
    + intros blk [<-|Hb]; [lra | now apply Hin].
    + destruct Hat as [He|(blk & Hb & He)].
      * rewrite He. unfold f.
        unfold Rmax. destruct (Rle_dec acc (stress (properties b)));
          [right; exists b; auto | now left].
      * right. exists blk. auto.
Qed.

(** X8: the summary [runSimulation] returns is consistent with its
    per-block results: it counts every registered block, [failedBlocks] is
    the number of results flagged failed and never exceeds [totalBlocks],
    and [maxStress] is non-negative, bounds every reported stress and is
    either 0 or one of the reported stresses. *)
Theorem runSimulation_summary (e : Engine) (fv : ForceVector) :
  let res := snd (runSimulation e fv) in
  totalBlocks res = List.length (blocks e)
  /\ List.length (results res) = totalBlocks res
  /\ failedBlocks res = List.length (filter snd (results res))
  /\ (failedBlocks res <= totalBlocks res)%nat
  /\ 0 <= maxStress res
  /\ (forall s f, In (s, f) (results res) -> s <= maxStress res)
  /\ (maxStress res = 0 \/ exists f, In (maxStress res, f) (results res)).
Proof.
  cbn [runSimulation snd totalBlocks failedBlocks maxStress results].
  set (bl := map (simulateBlock (deformationScale e) fv) (blocks e)).
  destruct (maxStress_fold_bounds bl 0) as (H0 & Hin & Hat).
  split; [unfold bl; apply length_map|].
  split; [apply length_map|].
  split.
  { clear. induction bl as [|b tl IH]; simpl; [reflexivity|].
    destruct (failed (properties b)); simpl; now rewrite IH. }
  split; [apply filter_length_le|].
  split; [exact H0|]. split.
  - intros s f Hsf. apply in_map_iff in Hsf.
    destruct Hsf as (blk & [= <- <-] & Hb). now apply Hin.
  - destruct Hat as [He|(blk & Hb & He)]; [now left|right].
    exists (failed (properties blk)). rewrite He.
    apply (in_map (fun blk => (stress (properties blk),
                               failed (properties blk)))) in Hb. exact Hb.
Qed.

(** *** What a run writes and what it leaves alone *)

Lemma calculateStress_constants (blk : SimulationBlock) (f : R)
      (t : ForceType) :
  let blk' := calculateStress blk f t in
  volume (properties blk') = volume (properties blk)
  /\ originalPosition blk' = originalPosition blk
  /\ deformationFactor blk' = deformationFactor blk
  /\ reset blk' = reset blk.
Proof. unfold calculateStress. destruct (Rge_dec _ 1); repeat split. Qed.

(** The callback is a stress step, then the self-weight step, then the
    deformation step. *)
Lemma simulateBlock_steps (sf : R) (fv : ForceVector) (blk : SimulationBlock) :
  exists f t,
    simulateBlock sf fv blk
    = applyDeformation
        (match boundaryCondition (properties (calculateStress blk f t)) with
         | FIXED => calculateStress blk f t
         | _ =>
             setStress (calculateStress blk f t)
               (stress (properties (calculateStress blk f t))
                + mass (properties (calculateStress blk f t)) * gravity
                  / maxCompression
                      (material (properties (calculateStress blk f t))))
         end) sf.
Proof.
  unfold simulateBlock.
  destruct (Rgt_dec _ 0.7); [|destruct (Rlt_dec _ (-0.7))];
    do 2 eexists; reflexivity.
Qed.

Lemma afterStress_fields (cs : SimulationBlock) (w sf : R) :
  let out := applyDeformation
               (match boundaryCondition (properties cs) with
                | FIXED => cs
                | _ => setStress cs w
                end) sf in
  volume (properties out) = volume (properties cs)
  /\ originalPosition out = originalPosition cs
  /\ originalScale out = originalScale cs
  /\ reset out = reset cs
  /\ match boundaryCondition (properties cs) with
     | FIXED =>
         mesh (properties out) = mesh (properties cs)
         /\ deformationFactor out = deformationFactor cs
     | _ =>
         mesh (properties out)
         = {| position := position (mesh (properties cs));
              scale := multiplyScalar (originalScale cs)
                         (1 + stress (properties out) * 0.1 * sf) |}
         /\ deformationFactor out = 1 + stress (properties out) * 0.1 * sf
     end.
Proof.
  destruct cs as [[m mat bc ms vol s f] op os df].
  unfold applyDeformation, setStress, setMesh, setDeformationFactor, reset,
         resetDeformation, setFailed.
  destruct bc; cbv beta iota zeta;
    cbn [mesh properties volume stress originalPosition originalScale
         deformationFactor boundaryCondition position scale material mass
         failed];
    repeat (split; [reflexivity|]); split; reflexivity.
Qed.

Lemma simulateBlock_constants (sf : R) (fv : ForceVector)
      (blk : SimulationBlock) :
  let blk' := simulateBlock sf fv blk in
  volume (properties blk') = volume (properties blk)
  /\ originalPosition blk' = originalPosition blk
  /\ originalScale blk' = originalScale blk.
Proof.
  destruct (simulateBlock_steps sf fv blk) as (f & t & ->).
  match goal with
  | |- context [setStress _ ?w] =>
      pose proof (afterStress_fields (calculateStress blk f t) w sf) as H
  end.
  cbv zeta in H |- *. set (out := applyDeformation _ sf) in *.
  destruct H as (Hv & Hop & Hos & _).
  destruct (calculateStress_constants blk f t) as (Hv' & Hop' & _).
  destruct (calculateStress_frame blk f t) as (_ & _ & _ & _ & Hos').
  rewrite Hv, Hop, Hos. auto.
Qed.

Lemma simulateBlock_mesh (sf : R) (fv : ForceVector) (blk : SimulationBlock) :
  let blk' := simulateBlock sf fv blk in
  match boundaryCondition (properties blk) with
  | FIXED =>
      mesh (properties blk') = mesh (properties blk)
      /\ deformationFactor blk' = deformationFactor blk
  | _ =>
      mesh (properties blk')
      = {| position := position (mesh (properties blk));
           scale := multiplyScalar (originalScale blk)
                      (1 + stress (properties blk') * 0.1 * sf) |}
      /\ deformationFactor blk' = 1 + stress (properties blk') * 0.1 * sf
  end.
Proof.
  destruct (simulateBlock_steps sf fv blk) as (f & t & ->).
  match goal with
  | |- context [setStress _ ?w] =>
      pose proof (afterStress_fields (calculateStress blk f t) w sf) as H
  end.
  cbv zeta in H |- *. set (out := applyDeformation _ sf) in *.
  destruct H as (_ & _ & _ & _ & Hm).
  destruct (calculateStress_constants blk f t) as (_ & _ & Hdf & _).
  destruct (calculateStress_frame blk f t) as (Hmesh & _ & Hbc & _ & Hos).
  rewrite Hbc, Hmesh, Hos, Hdf in Hm. exact Hm.
Qed.

(** X9: deformation does not accumulate.  After [runSimulation] a block
    that is not Fixed has its mesh at the unchanged position with scale
    [originalScale * (1 + stress * 0.1 * deformationScale)], [stress] being
    the stress the run reports; a Fixed block keeps its mesh; and the
    stored original scale and position are never written. *)
Theorem runSimulation_deformation (e : Engine) (fv : ForceVector) (k : nat)
        (blk : SimulationBlock) :
  nth_error (blocks e) k = Some blk ->
  exists blk',
    nth_error (blocks (fst (runSimulation e fv))) k = Some blk'
    /\ position (mesh (properties blk')) = position (mesh (properties blk))
    /\ originalScale blk' = originalScale blk
    /\ originalPosition blk' = originalPosition blk
    /\ (boundaryCondition (properties blk) = FIXED ->
        mesh (properties blk') = mesh (properties blk))
    /\ (boundaryCondition (properties blk) <> FIXED ->
        scale (mesh (properties blk'))
        = multiplyScalar (originalScale blk)
            (1 + stress (properties blk') * 0.1 * deformationScale e)).
Proof.
  intros Hk. destruct (runSimulation_nth e fv k blk Hk) as [Hb _].
  exists (simulateBlock (deformationScale e) fv blk).
  destruct (simulateBlock_frame (deformationScale e) fv blk) as (Hpos & _).
  destruct (simulateBlock_constants (deformationScale e) fv blk)
    as (_ & Hop & Hos).
  pose proof (simulateBlock_mesh (deformationScale e) fv blk) as Hm.
  cbv zeta in Hm.
  repeat (split; [assumption|]).
  destruct (boundaryCondition (properties blk)); destruct Hm as [Hm _];
    split; intros H; try congruence; now rewrite Hm.
Qed.

Lemma runSimulation_deformation_witness :
  exists blk',
    nth_error (blocks (fst (runSimulation cubeEngine (pushDown 2 1)))) 0
    = Some blk'
    /\ scale (mesh (properties blk'))
       = multiplyScalar unitScale (1 + stress (properties blk') * 0.1 * 5).
Proof.
  destruct (runSimulation_deformation cubeEngine (pushDown 2 1) 0 steelCube
              eq_refl) as (blk' & Hb & _ & _ & _ & _ & Hs).
  exists blk'. split; [exact Hb|]. apply Hs. discriminate.
Defined.

(** *** Repeating and undoing a run *)

Lemma block_ext (b1 b2 : SimulationBlock) :
  mesh (properties b1) = mesh (properties b2) ->
  material (properties b1) = material (properties b2) ->
  boundaryCondition (properties b1) = boundaryCondition (properties b2) ->
  mass (properties b1) = mass (properties b2) ->
  volume (properties b1) = volume (properties b2) ->
  stress (properties b1) = stress (properties b2) ->
  failed (properties b1) = failed (properties b2) ->
  originalPosition b1 = originalPosition b2 ->
  originalScale b1 = originalScale b2 ->
  deformationFactor b1 = deformationFactor b2 ->
  b1 = b2.
Proof.
  destruct b1 as [[m1 mat1 bc1 ms1 vol1 s1 f1] op1 os1 df1].
  destruct b2 as [[m2 mat2 bc2 ms2 vol2 s2 f2] op2 os2 df2].
  simpl. intros. subst. reflexivity.
Qed.

Lemma alignmentTo_position (fv : ForceVector) (m1 m2 : Mesh) :
  position m1 = position m2 ->
  alignmentTo fv m1 = alignmentTo fv m2
  /\ effectiveForceOn fv m1 = effectiveForceOn fv m2.
Proof.
  intros H. unfold effectiveForceOn, alignmentTo, getWorldPosition.
  now rewrite H.
Qed.

Lemma simulateBlock_idempotent (sf : R) (fv : ForceVector)
      (blk : SimulationBlock) :
  simulateBlock sf fv (simulateBlock sf fv blk) = simulateBlock sf fv blk.
Proof.
  set (blk1 := simulateBlock sf fv blk).
  destruct (simulateBlock_frame sf fv blk) as (Hpos & Hmat & Hbc & Hmass).
  destruct (simulateBlock_constants sf fv blk) as (Hvol & Hop & Hos).
  fold blk1 in Hpos, Hmat, Hbc, Hmass, Hvol, Hop, Hos.
  destruct (simulateBlock_frame sf fv blk1) as (Hpos' & Hmat' & Hbc' & Hmass').
  destruct (simulateBlock_constants sf fv blk1) as (Hvol' & Hop' & Hos').
  destruct (alignmentTo_position fv _ _ Hpos) as [Ha He].
  assert (Hs : stress (properties (simulateBlock sf fv blk1))
               = stress (properties blk1)).
  { unfold blk1 at 2. rewrite !simulateBlock_stress.
    rewrite Ha, He, Hmat. f_equal.
    unfold selfWeightRatio. now rewrite Hbc, Hmass, Hmat. }
  assert (Hf : failed (properties (simulateBlock sf fv blk1))
               = failed (properties blk1)).
  { rewrite simulateBlock_failed. rewrite Ha, He, Hmat.
    unfold blk1. rewrite !simulateBlock_failed.
    now destruct (Rge_dec _ 1). }
  pose proof (simulateBlock_mesh sf fv blk) as Hm. cbv zeta in Hm.
  pose proof (simulateBlock_mesh sf fv blk1) as Hm'. cbv zeta in Hm'.
  fold blk1 in Hm. rewrite Hbc in Hm'.
  apply block_ext; try congruence.
  - destruct (boundaryCondition (properties blk));
      destruct Hm as [Hm _]; destruct Hm' as [Hm' _];
      rewrite Hm'; try reflexivity; rewrite Hm, Hs, Hos; reflexivity.
  - destruct (boundaryCondition (properties blk));
      destruct Hm as [_ Hm]; destruct Hm' as [_ Hm'];
      rewrite Hm'; try reflexivity; rewrite Hm, Hs; reflexivity.
Qed.

(** X10: [runSimulation] is idempotent: running the same force a second
    time leaves every block, the engine state and the returned summary
    exactly as the first run left them. *)
Theorem runSimulation_idempotent (e : Engine) (fv : ForceVector) :
  runSimulation (fst (runSimulation e fv)) fv = runSimulation e fv.
Proof.
  assert (Hb : blocks (fst (runSimulation e fv))
               = map (simulateBlock (deformationScale e) fv) (blocks e))
    by reflexivity.
  assert (Hd : deformationScale (fst (runSimulation e fv))
               = deformationScale e) by reflexivity.
  assert (Hmm : map (simulateBlock (deformationScale e) fv)
                    (map (simulateBlock (deformationScale e) fv) (blocks e))
                = map (simulateBlock (deformationScale e) fv) (blocks e)).
  { rewrite map_map. apply map_ext. intros blk.
    apply simulateBlock_idempotent. }
  unfold runSimulation at 1. rewrite Hb, Hd, Hmm. reflexivity.
Qed.

Lemma reset_after_run (sf : R) (fv : ForceVector) (blk : SimulationBlock) :
  reset (simulateBlock sf fv blk) = reset blk.
Proof.
  destruct (simulateBlock_steps sf fv blk) as (f & t & ->).
  match goal with
  | |- context [setStress _ ?w] =>
      pose proof (afterStress_fields (calculateStress blk f t) w sf) as H
  end.
  cbv zeta in H. set (out := applyDeformation _ sf) in *.
  destruct H as (_ & _ & _ & Hr & _).
  rewrite Hr. apply calculateStress_constants.
Qed.

(** With a reset in between, the weaker run reports the cube as not
    failed. *)
Example reset_then_weaker_rerun_not_failed :
  exists s,
    results (snd (runSimulation
                    (resetSimulation
                       (fst (runSimulation cubeEngine (pushDown 2 20))))
                    (pushDown 2 1)))
    = [(s, false)].
Proof.
  set (blk1 := simulateBlock 5 (pushDown 2 20) steelCube).
  assert (Hreset : reset blk1 = steelCube).
  { unfold blk1. rewrite reset_after_run. reflexivity. }
  exists (stress (properties (simulateBlock 5 (pushDown 2 1) steelCube))).
  cbn [runSimulation resetSimulation snd fst results cubeEngine blocks
       deformationScale map]. fold blk1.
  change (setFailed (setStress (resetDeformation blk1) 0) false)
    with (reset blk1).
  rewrite Hreset. rewrite simulateBlock_failed.
  rewrite (pushDown_forceRatio 0.5 2 1 steelCube eq_refl) by lra.
  destruct (Rge_dec _ 1) as [Hge|_]; [|reflexivity].
  exfalso. simpl in Hge. lra.
Qed.

Lemma reset_idempotent (blk : SimulationBlock) : reset (reset blk) = reset blk.
Proof. destruct blk as [[m mat bc ms vol s f] op os df]. reflexivity. Qed.

Lemma reset_new (m : Mesh) (boxSize : Vector3) (t : MaterialType)
      (bc : BoundaryCondition) :
  reset (newSimulationBlock m boxSize t bc) = newSimulationBlock m boxSize t bc.
Proof. destruct m. reflexivity. Qed.

(** X11: [clearVectors] undoes a run: clearing after [runSimulation] gives
    the state that clearing alone gives, clearing twice changes nothing
    more, and an engine whose blocks are as registered and that holds no
    force is back in its starting state.  [resetSimulation] restores the
    same blocks but keeps the force of the run. *)
Theorem clearVectors_undoes_run (e : Engine) (fv : ForceVector) :
  clearVectors (fst (runSimulation e fv)) = clearVectors e
  /\ clearVectors (clearVectors e) = clearVectors e
  /\ blocks (resetSimulation (fst (runSimulation e fv)))
     = blocks (clearVectors e)
  /\ currentForceVector (resetSimulation (fst (runSimulation e fv)))
     = Some fv
  /\ ((forall blk, In blk (blocks e) -> reset blk = blk) ->
      currentForceVector e = None ->
      clearVectors (fst (runSimulation e fv)) = e).
Proof.
  assert (H1 : clearVectors (fst (runSimulation e fv)) = clearVectors e).
  { unfold clearVectors, runSimulation. cbn [fst blocks deformationScale].
    rewrite map_map.
    now rewrite (map_ext _ reset (fun blk => reset_after_run _ _ _)). }
  split; [exact H1|]. split; [|split; [|split]].
  - unfold clearVectors. cbn [blocks deformationScale]. rewrite map_map.
    now rewrite (map_ext _ reset reset_idempotent).
  - unfold resetSimulation, clearVectors, runSimulation.
    cbn [fst blocks]. rewrite map_map. apply map_ext. intros blk.
    exact (reset_after_run _ _ _).
  - reflexivity.
  - intros Hfresh Hnone. rewrite H1. destruct e as [bl ds cf].
    simpl in *. subst cf. unfold clearVectors. cbn [blocks deformationScale].
    f_equal. rewrite <- (map_id bl) at 2. apply map_ext_in. exact Hfresh.
Qed.

Lemma clearVectors_undoes_run_witness :
  clearVectors (fst (runSimulation cubeEngine (pushDown 2 20))) = cubeEngine.
Proof.
  destruct (clearVectors_undoes_run cubeEngine (pushDown 2 20))
    as (_ & _ & _ & _ & H).
  apply H; [|reflexivity].
  intros blk [<-|[]]. apply reset_new.
Defined.

(** *** Bounds on the alignment and on the effective force *)

Lemma length_sqr (v : Vector3) :
  Three.length v * Three.length v = vx v * vx v + vy v * vy v + vz v * vz v.
Proof. unfold Three.length. apply sqrt_sqrt. nra. Qed.

Lemma length_nonneg (v : Vector3) : 0 <= Three.length v.
Proof. unfold Three.length. apply sqrt_pos. Qed.







(** *** Sign of the stress and soundness of a raised flag *)

Lemma library_maxCompression_pos (t : MaterialType) :
  0 < maxCompression (getMaterial t) /\ 0 < density (getMaterial t).
Proof. destruct t; simpl; split; lra. Qed.

Lemma selfWeightRatio_nonneg (blk : SimulationBlock) :
  fromLibrary blk -> 0 <= mass (properties blk) -> 0 <= selfWeightRatio blk.
Proof.
  intros [t Ht] Hm. unfold selfWeightRatio. rewrite Ht.
  destruct (library_maxCompression_pos t) as [Hc _].
  destruct (boundaryCondition (properties blk)); try lra;
    (apply div_ge_bound; [lra|]); nra.
Qed.

Lemma forceRatio_nonneg (fv : ForceVector) (blk : SimulationBlock) :
  fromLibrary blk ->
  0 <= Rabs (effectiveForceOn fv (mesh (properties blk)))
       / limitByAlignment (material (properties blk))
                          (alignmentTo fv (mesh (properties blk))).
Proof.
  intros [t Ht]. rewrite Ht.
  pose proof (library_limits_pos t (alignmentTo fv (mesh (properties blk)))).
  pose proof (Rabs_pos (effectiveForceOn fv (mesh (properties blk)))).
  apply div_ge_bound; [lra|]. nra.
Qed.

(** X14: for blocks whose material comes from the library and whose mass
    is not negative, every stress [runSimulation] reports is non-negative,
    whatever the force, and a block that was not failed before the run and
    is reported failed has a reported stress of at least 1. *)
Theorem runSimulation_stress_sign (e : Engine) (fv : ForceVector) (k : nat)
        (blk : SimulationBlock) :
  nth_error (blocks e) k = Some blk ->
  fromLibrary blk ->
  0 <= mass (properties blk) ->
  exists s f,
    nth_error (results (snd (runSimulation e fv))) k = Some (s, f)
    /\ 0 <= s
    /\ (failed (properties blk) = false -> f = true -> 1 <= s).
Proof.
  intros Hk Hlib Hm. destruct (runSimulation_nth e fv k blk Hk) as [_ Hr].
  do 2 eexists. split; [exact Hr|].
  rewrite simulateBlock_stress, simulateBlock_failed.
  pose proof (forceRatio_nonneg fv blk Hlib) as Hf.
  pose proof (selfWeightRatio_nonneg blk Hlib Hm) as Hw.
  split; [lra|].
  intros Hold. destruct (Rge_dec _ 1) as [Hge|Hlt]; [lra | congruence].
Qed.

Lemma newSimulationBlock_mass (m : Mesh) (boxSize : Vector3)
      (t : MaterialType) (bc : BoundaryCondition) :
  0 <= vx boxSize -> 0 <= vy boxSize -> 0 <= vz boxSize ->
  fromLibrary (newSimulationBlock m boxSize t bc)
  /\ 0 <= mass (properties (newSimulationBlock m boxSize t bc)).
Proof.
  intros Hx Hy Hz. split; [now exists t|]. simpl.
  destruct (library_maxCompression_pos t) as [_ Hd].
  apply Rmult_le_pos; [lra|]. apply Rmult_le_pos; [|lra].
  now apply Rmult_le_pos.
Qed.

Lemma runSimulation_stress_sign_witness :
  exists s f,
    nth_error (results (snd (runSimulation massEngine (pushDown 16 (-3))))) 0
    = Some (s, f)
    /\ 0 <= s.
Proof.
  assert (Hb : fromLibrary concreteMass /\ 0 <= mass (properties concreteMass)).
  { apply newSimulationBlock_mass; simpl; lra. }
  destruct Hb as [Hlib Hm].
  destruct (runSimulation_stress_sign massEngine (pushDown 16 (-3)) 0
              concreteMass eq_refl Hlib Hm) as (s & f & Hr & Hs & _).
  exists s, f. split; assumption.
Defined.

(** *** Bending *)

(** X26: for a block whose material comes from the library, the stress
    [calculateStress] assigns to a force classified as bending is the
    larger of the stresses it assigns to the same force as tension and as
    compression. *)
Theorem bending_is_most_conservative (blk : SimulationBlock) (f : R) :
  fromLibrary blk ->
  stress (properties (calculateStress blk f BENDING))
  = Rmax (stress (properties (calculateStress blk f TENSION)))
         (stress (properties (calculateStress blk f COMPRESSION))).
Proof.
  intros [t Ht]. rewrite !calculateStress_stress, Ht.
  pose proof (Rabs_pos f) as Hf. set (a := Rabs f) in *.
  assert (Hpos : 0 < maxTension (getMaterial t)
                 /\ 0 < maxCompression (getMaterial t))
    by (destruct t; simpl; lra).
  destruct Hpos as [Ht0 Hc0].
  cbn [stressLimit].
  set (mt := maxTension (getMaterial t)) in *.
  set (mc := maxCompression (getMaterial t)) in *.
  assert (Hdiv : forall x y, 0 < x -> x <= y -> a / y <= a / x).
  { intros x y Hx Hxy. apply div_le_bound; [lra|].
    replace (a / x * y) with (a * (y / x)) by (field; lra).
    assert (1 <= y / x) by (apply div_ge_bound; lra). nra. }
  unfold Rmin. destruct (Rle_dec mt mc) as [Hle|Hgt].
  - rewrite Rmax_left; [reflexivity|]. apply Hdiv; lra.
  - rewrite Rmax_right; [reflexivity|]. apply Hdiv; lra.
Qed.

Lemma bending_is_most_conservative_witness :
  stress (properties (calculateStress concreteMass 6e6 BENDING))
  = Rmax (stress (properties (calculateStress concreteMass 6e6 TENSION)))
         (stress (properties (calculateStress concreteMass 6e6 COMPRESSION))).
Proof.
  apply bending_is_most_conservative. exists CONCRETE. reflexivity.
Defined.

End EngineExtras.

(** ** Properties of the visualisation functions *)

Section VisualisationExtras.
Import Three MaterialSystem FEASimulationEngine StressSpec Loads VertexField.
Local Open Scope R_scope.

Lemma multiplier_range (x : R) : 0.5 <= Rmax 0.5 (Rmin 1.5 (2 - x)) <= 1.5.
Proof.
  split; [apply Rmax_l|].
  apply Rmax_lub; [lra | apply Rmin_l].
Qed.

Lemma multiplier_antitone (x1 x2 : R) :
  x1 <= x2 ->
  Rmax 0.5 (Rmin 1.5 (2 - x2)) <= Rmax 0.5 (Rmin 1.5 (2 - x1)).
Proof.
  intros H. apply Rle_max_compat_l. apply Rle_min_compat_l. lra.
Qed.

(** X15: with a force stored and a non-negative block stress, the stress of
    a vertex lies between half and one and a half times the block stress,
    both capped at 2; at the block's centre it is the block stress capped
    at 2; and of two vertices the one nearer the force origin never gets
    the smaller value. *)
Theorem calculateVertexStress_bounds (e : Engine) (fv : ForceVector)
        (blk : SimulationBlock) :
  currentForceVector e = Some fv ->
  0 <= stress (properties blk) ->
  (forall vertex,
     Rmin (0.5 * stress (properties blk)) 2
     <= calculateVertexStress e vertex blk
     <= Rmin (1.5 * stress (properties blk)) 2)
  /\ calculateVertexStress e (getWorldPosition (mesh (properties blk))) blk
     = Rmin (stress (properties blk)) 2
  /\ (forall v1 v2,
        distanceTo v1 (forcePosition fv) <= distanceTo v2 (forcePosition fv) ->
        calculateVertexStress e v2 blk <= calculateVertexStress e v1 blk).
Proof.
  intros Hfv Hs. unfold calculateVertexStress. rewrite Hfv.
  set (s := stress (properties blk)) in *.
  set (c := distanceTo (getWorldPosition (mesh (properties blk)))
                       (forcePosition fv)).
  split; [|split].
  - intros vertex.
    match goal with
    | |- context [Rmax 0.5 (Rmin 1.5 (2 - ?x))] =>
        pose proof (multiplier_range x) as Hm;
        set (mu := Rmax 0.5 (Rmin 1.5 (2 - x))) in *
    end.
    split; apply Rle_min_compat_r; nra.
  - destruct (Rgt_dec c 0.01) as [Hc|Hc].
    + replace (c / c) with 1 by (field; lra).
      replace (2 - 1) with 1 by lra.
      rewrite (Rmin_right 1.5 1) by lra. rewrite (Rmax_right 0.5 1) by lra.
      now rewrite Rmult_1_r.
    + replace (2 - 1) with 1 by lra.
      rewrite (Rmin_right 1.5 1) by lra. rewrite (Rmax_right 0.5 1) by lra.
      now rewrite Rmult_1_r.
  - intros v1 v2 Hd. apply Rle_min_compat_r.
    apply Rmult_le_compat_l; [exact Hs|].
    apply multiplier_antitone.
    destruct (Rgt_dec c 0.01) as [Hc|Hc]; [|lra].
    apply Rmult_le_compat_r; [|exact Hd].
    left. apply Rinv_0_lt_compat. lra.
Qed.

Lemma calculateVertexStress_bounds_witness :
  calculateVertexStress
    (fst (runSimulation cubeEngine (pushDown 2 1)))
    (getWorldPosition (mesh (properties (setStress steelCube 3))))
    (setStress steelCube 3)
  = Rmin 3 2.
Proof.
  destruct (calculateVertexStress_bounds
              (fst (runSimulation cubeEngine (pushDown 2 1)))
              (pushDown 2 1) (setStress steelCube 3) eq_refl) as (_ & H & _).
  - simpl. lra.
  - exact H.
Defined.

(** *** Colour ramps *)

Lemma colorHex_yellow : colorHex 0xffff00 = {| r := 1; g := 1; b := 0 |}.
Proof.
  unfold colorHex.
  change (Z.land (Z.shiftr 0xffff00 16) 255) with 255%Z.
  change (Z.land (Z.shiftr 0xffff00 8) 255) with 255%Z.
  change (Z.land 0xffff00 255) with 0%Z.
  replace (255 / 255) with 1 by lra. replace (0 / 255) with 0 by lra.
  now rewrite SRGBToLinear_0, SRGBToLinear_1.
Qed.

Lemma colorHex_orange :
  colorHex 0xff8800 = {| r := 1; g := SRGBToLinear (136 / 255); b := 0 |}.
Proof.
  unfold colorHex.
  change (Z.land (Z.shiftr 0xff8800 16) 255) with 255%Z.
  change (Z.land (Z.shiftr 0xff8800 8) 255) with 136%Z.
  change (Z.land 0xff8800 255) with 0%Z.
  replace (255 / 255) with 1 by lra. replace (0 / 255) with 0 by lra.
  now rewrite SRGBToLinear_0, SRGBToLinear_1.
Qed.

Lemma lerpColors_end (c1 c2 : Color) : lerpColors c1 c2 1 = c2.
Proof. destruct c1, c2. unfold lerpColors. simpl. f_equal; lra. Qed.

Lemma lerpColors_start (c1 c2 : Color) : lerpColors c1 c2 0 = c1.
Proof. destruct c1, c2. unfold lerpColors. simpl. f_equal; lra. Qed.

(** X16: the block's own ramp [getVonMisesColor] agrees with the engine's
    [getStressColor] for an unfailed block below 0.6 and from 1 on; between
    0.6 and 1 it runs from yellow to red where the engine's runs from
    yellow to orange.  Each piece of it ends where the next begins, at 0.3,
    at 0.6 and, reaching red, at 1, whereas the engine's last piece ends on
    orange, which is not the red it returns at 1.  Its channels stay in
    [0, 1] for every stress from 0 up. *)
Theorem getVonMisesColor_ramp (blk : SimulationBlock) :
  let s := stress (properties blk) in
  (s < 0.6 \/ 1 <= s -> getVonMisesColor blk = getStressColor s false)
  /\ (0.6 <= s < 1 ->
      getVonMisesColor blk
      = lerpColors (colorHex 0xffff00) (colorHex 0xff0000) ((s - 0.6) / 0.4)
      /\ getStressColor s false
         = lerpColors (colorHex 0xffff00) (colorHex 0xff8800)
                      ((s - 0.6) / 0.4))
  /\ lerpColors (colorHex 0x00ff00) (colorHex 0x88ff00) (0.3 / 0.3)
     = lerpColors (colorHex 0x88ff00) (colorHex 0xffff00) ((0.3 - 0.3) / 0.3)
  /\ lerpColors (colorHex 0x88ff00) (colorHex 0xffff00) ((0.6 - 0.3) / 0.3)
     = lerpColors (colorHex 0xffff00) (colorHex 0xff0000) ((0.6 - 0.6) / 0.4)
  /\ lerpColors (colorHex 0xffff00) (colorHex 0xff0000) ((1 - 0.6) / 0.4)
     = colorHex 0xff0000
  /\ lerpColors (colorHex 0xffff00) (colorHex 0xff8800) ((1 - 0.6) / 0.4)
     <> getStressColor 1 false
  /\ (0 <= s -> inGamut (getVonMisesColor blk)).
Proof.
  intros s. unfold getVonMisesColor, getStressColor. fold s. cbn [orb].
  split; [|split; [|split; [|split; [|split; [|split]]]]].
  - intros [H|H].
    + destruct (Rge_dec s 1); [lra|].
      destruct (Rlt_dec s 0.3); [reflexivity|].
      destruct (Rlt_dec s 0.6); [reflexivity|lra].
    + destruct (Rge_dec s 1); [|lra].
      destruct (Rlt_dec s 0.3); [lra|].
      destruct (Rlt_dec s 0.6); [lra|].
      destruct (Rlt_dec s 1); [lra|reflexivity].
  - intros H. destruct (Rge_dec s 1); [lra|].
    destruct (Rlt_dec s 0.3); [lra|].
    destruct (Rlt_dec s 0.6); [lra|].
    destruct (Rlt_dec s 1); [|lra]. split; reflexivity.
  - replace (0.3 / 0.3) with 1 by lra.
    replace ((0.3 - 0.3) / 0.3) with 0 by lra.
    now rewrite lerpColors_end, lerpColors_start.
  - replace ((0.6 - 0.3) / 0.3) with 1 by lra.
    replace ((0.6 - 0.6) / 0.4) with 0 by lra.
    now rewrite lerpColors_end, lerpColors_start.
  - replace ((1 - 0.6) / 0.4) with 1 by lra. apply lerpColors_end.
  - replace ((1 - 0.6) / 0.4) with 1 by lra. rewrite lerpColors_end.
    destruct (Rge_dec 1 1); [|lra].
    rewrite colorHex_orange, colorHex_red. intros H.
    apply (f_equal g) in H. simpl in H.
    assert (Hc : 0 <= 136 / 255 <= 1) by lra.
    destruct (SRGBToLinear_bounds _ Hc) as [_ Hpos].
    assert (0 < SRGBToLinear (136 / 255)) by (apply Hpos; lra). lra.
  - intros H.
    destruct (Rlt_dec s 0.3); [|destruct (Rlt_dec s 0.6);
                                 [|destruct (Rlt_dec s 1)]];
      try apply colorHex_inGamut;
      apply lerpColors_inGamut; try apply colorHex_inGamut;
      split; unfold Rdiv; lra.
Qed.

Lemma getVonMisesColor_ramp_witness :
  getVonMisesColor (setStress steelCube 0.8)
  = lerpColors (colorHex 0xffff00) (colorHex 0xff0000) ((0.8 - 0.6) / 0.4).
Proof.
  destruct (getVonMisesColor_ramp (setStress steelCube 0.8)) as (_ & H & _).
  apply H. simpl. lra.
Defined.

(** *** The gradient visualizer *)



(** X18: the visualizer's colour ramp is not clamped: for a stress from 0
    up its channels lie in [0, 1] exactly when the stress is at most 1;
    above 1 the green channel is [2 - 2 * stress], a negative value. *)
Theorem gradient_color_gamut (s : R) :
  0 <= s ->
  (inGamut (GradientStressVisualizer.getStressColor s) <-> s <= 1)
  /\ (0.5 <= s -> g (GradientStressVisualizer.getStressColor s) = 2 - 2 * s).
Proof.
  intros Hs. unfold GradientStressVisualizer.getStressColor.
  destruct (Rlt_dec s 0.5) as [Hlt|Hge].
  - split; [|intros; lra]. split; [intros _; lra|]. intros _.
    apply lerpColors_inGamut; try apply colorHex_inGamut. lra.
  - rewrite colorHex_yellow, colorHex_red. unfold inGamut, lerpColors.
    cbn [r g b]. split; [|intros _; lra].
    split; [intros (_ & Hg & _); lra | intros H; lra].
Qed.

Lemma gradient_color_gamut_witness :
  ~ inGamut (GradientStressVisualizer.getStressColor 1.5).
Proof.
  assert (H0 : 0 <= 1.5) by lra.
  destruct (gradient_color_gamut 1.5 H0) as [H _].
  intros Hg. apply H in Hg. lra.
Defined.

End VisualisationExtras.

(** ** Properties of the force vector manager *)

Section ManagerExtras.
Import Three FEASimulationEngine ForceVectorManager ManagerSpec Placements.
Local Open Scope R_scope.

Lemma normalize_unit (v : Vector3) :
  Three.length v <> 0 -> Three.length (normalize v) = 1.
Proof.
  intros Hnz. unfold normalize.
  destruct (Req_dec_T (Three.length v) 0) as [Hz|_]; [contradiction|].
  pose proof (length_sqr v) as Hsq.
  set (l := Three.length v) in *.
  unfold Three.length at 1. unfold multiplyScalar. simpl.
  replace (vx v * (1 / l) * (vx v * (1 / l)) + vy v * (1 / l) * (vy v * (1 / l))
           + vz v * (1 / l) * (vz v * (1 / l)))
    with ((vx v * vx v + vy v * vy v + vz v * vz v) / (l * l))
    by (field; exact Hnz).
  rewrite <- Hsq. replace (l * l / (l * l)) with 1 by (field; exact Hnz).
  apply sqrt_1.
Qed.

Lemma normalize_unit_or_zero (v : Vector3) :
  Three.length (normalize v) = 1 \/ Three.length v = 0.
Proof.
  destruct (Req_dec_T (Three.length v) 0) as [Hz|Hnz]; [now right|left].
  now apply normalize_unit.
Qed.

Lemma near_unit_nonzero (d v : Vector3) :
  Three.length d = 1 ->
  (vx v - vx d) * (vx v - vx d) + (vy v - vy d) * (vy v - vy d)
  + (vz v - vz d) * (vz v - vz d) < 1 ->
  Three.length v <> 0.
Proof.
  intros Hd Hnear Hz.
  pose proof (length_sqr d) as Hd2. rewrite Hd in Hd2.
  pose proof (length_sqr v) as Hv2. rewrite Hz in Hv2.
  assert (Hx : vx v = 0) by nra.
  assert (Hy : vy v = 0) by nra.
  assert (Hzz : vz v = 0) by nra.
  rewrite Hx, Hy, Hzz in Hnear. nra.
Qed.

Lemma adjustVectorDirection_spec (m : Manager) (key : string) :
  vectors (adjustVectorDirection m key) = vectors m
  /\ nextId (adjustVectorDirection m key) = nextId m
  /\ activeVector (adjustVectorDirection m key) = activeVector m
  /\ (0.5 <= tempMagnitude m <= 5 ->
      0.5 <= tempMagnitude (adjustVectorDirection m key) <= 5)
  /\ (Three.length (tempDirection m) = 1 ->
      Three.length (tempDirection (adjustVectorDirection m key)) = 1).
Proof.
  unfold adjustVectorDirection.
  destruct (tempArrow m) as [p|]; [|tauto].
  repeat match goal with
         | |- context [if ?c then _ else _] => destruct c
         end;
    cbn [vectors nextId activeVector tempMagnitude tempDirection
         setTempArrow setTempDirection setTempMagnitude];
    (split; [reflexivity|]); (split; [reflexivity|]);
    (split; [reflexivity|]); split; intros H; try exact H;
    try (apply normalize_unit; apply (near_unit_nonzero (tempDirection m));
         [exact H | simpl; nra]).
  - split; [|apply Rmin_r].
    apply Rmin_glb; lra.
  - split; [apply Rmax_r|]. apply Rmax_lub; lra.
Qed.

Lemma step_frame (m : Manager) (ev : Event) :
  (0.5 <= tempMagnitude m <= 5 -> 0.5 <= tempMagnitude (step m ev) <= 5)
  /\ (Three.length (tempDirection m) = 1 ->
      Three.length (tempDirection (step m ev)) = 1).
Proof.
  assert (Hdown : Three.length {| vx := 0; vy := -1; vz := 0 |} = 1).
  { unfold Three.length. simpl.
    replace (0 * 0 + -1 * -1 + 0 * 0) with 1 by lra. apply sqrt_1. }
  destruct ev as [key|p|sp ep|]; simpl.
  - unfold onKeyDown.
    destruct (adjustVectorDirection_spec m key) as (_ & _ & _ & Hm & Hd).
    repeat match goal with
           | |- context [if ?c then _ else _] => destruct c
           end; try (split; assumption); try tauto.
    all: unfold confirmVector; destruct (tempArrow m); simpl; tauto.
  - unfold onClick. destruct (isWaitingForClick m); simpl; [|tauto].
    split; intros _; [lra | exact Hdown].
  - tauto.
  - tauto.
Qed.

(** The vectors a step can add. *)
Lemma step_vectors (m : Manager) (ev : Event) :
  (vectors (step m ev) = vectors m /\ nextId (step m ev) = nextId m
   /\ activeVector (step m ev) = activeVector m)
  \/ (vectors (step m ev) = [] /\ nextId (step m ev) = nextId m
      /\ activeVector (step m ev) = None)
  \/ (exists v,
        vectors (step m ev) = vectors m ++ [v]
        /\ nextId (step m ev) = S (nextId m)
        /\ activeVector (step m ev) = Some v
        /\ id v = nextId m
        /\ ((direction v = tempDirection m /\ magnitude v = tempMagnitude m
             /\ exists key, ev = KeyDown key)
            \/ (exists sp ep,
                  ev = EndPointConfirmed sp ep
                  /\ direction v = normalize (subVectors ep sp)
                  /\ magnitude v = Three.length (subVectors ep sp)))).
Proof.
  destruct ev as [key|p|sp ep|]; simpl.
  - unfold onKeyDown.
    destruct (adjustVectorDirection_spec m key) as (Hv & Hn & Ha & _).
    repeat match goal with
           | |- context [if ?c then _ else _] => destruct c
           end; try (left; repeat split; assumption);
      try (left; repeat split; reflexivity).
    all: unfold confirmVector; destruct (tempArrow m) as [o|];
      [|left; repeat split; reflexivity].
    all: right; right; eexists; simpl; repeat split;
      left; repeat split; eauto.
  - unfold onClick. destruct (isWaitingForClick m); left; repeat split.
  - right; right. eexists. simpl. repeat split.
    right. exists sp, ep. repeat split.
  - right; left. repeat split.
Qed.

Lemma run_snoc (events : list Event) (ev : Event) :
  run (events ++ [ev]) = step (run events) ev.
Proof. unfold run. now rewrite fold_left_app. Qed.

Lemma run_invariant (events : list Event) :
  (0.5 <= tempMagnitude (run events) <= 5)
  /\ Three.length (tempDirection (run events)) = 1
  /\ Forall admissibleForce (vectors (run events))
  /\ (forall v, activeVector (run events) = Some v ->
                In v (vectors (run events)))
  /\ Forall (fun v => (id v < nextId (run events))%nat) (vectors (run events))
  /\ NoDup (map id (vectors (run events)))
  /\ (keyboardOnly events -> Forall keyboardForce (vectors (run events))).
Proof.
  induction events as [|ev events IH] using rev_ind.
  - simpl. repeat split; try lra; try constructor; try discriminate.
    unfold Three.length. simpl.
    replace (0 * 0 + -1 * -1 + 0 * 0) with 1 by lra. apply sqrt_1.
  - rewrite run_snoc. set (m := run events) in *.
    destruct IH as (Hmag & Hdir & Hadm & Hact & Hid & Hnd & Hkb).
    destruct (step_frame m ev) as [Hmag' Hdir'].
    split; [auto|]. split; [auto|].
    destruct (step_vectors m ev)
      as [(Hv & Hn & Ha)|[(Hv & Hn & Ha)|(v & Hv & Hn & Ha & Hvid & Hsrc)]];
      rewrite Hv, Ha, Hn.
    + repeat split; auto. intros Hk. apply Hkb.
      unfold keyboardOnly in *. apply Forall_app in Hk. tauto.
    + repeat split; try constructor; try discriminate.
    + split; [|split; [|split; [|split]]].
      * apply Forall_app. split; [exact Hadm|]. constructor; [|constructor].
        unfold admissibleForce.
        destruct Hsrc as [(Hd & Hm & _)|(sp & ep & _ & Hd & Hm)].
        -- rewrite Hd, Hm. split; [lra | now left].
        -- rewrite Hd, Hm. split; [apply length_nonneg|].
           apply normalize_unit_or_zero.
      * intros v' [= <-]. apply in_or_app. right. now left.
      * apply Forall_app. split.
        -- eapply Forall_impl; [|exact Hid]. intros a Ha'. simpl in Ha'. lia.
        -- constructor; [lia | constructor].
      * rewrite map_app. simpl.
        assert (Hnotin : ~ In (id v) (map id (vectors m))).
        { intros Hin. apply in_map_iff in Hin. destruct Hin as (a & Hia & Ha').
          rewrite Forall_forall in Hid. specialize (Hid a Ha'). lia. }
        clear - Hnd Hnotin. induction (map id (vectors m)) as [|x l IHl].
        -- simpl. constructor; [tauto | constructor].
        -- simpl. inversion Hnd; subst. constructor.
           ++ intros Hin. apply in_app_or in Hin. destruct Hin as [Hin|[<-|[]]].
              ** contradiction.
              ** apply Hnotin. now left.
           ++ apply IHl; auto. intros Hin. apply Hnotin. now right.
      * intros Hk. unfold keyboardOnly in Hk. apply Forall_app in Hk.
        destruct Hk as [Hk1 Hk2]. apply Forall_app. split; [now apply Hkb|].
        constructor; [|constructor]. unfold keyboardForce.
        destruct Hsrc as [(Hd & Hm & _)|(sp & ep & -> & _)].
        -- rewrite Hd, Hm. auto.
        -- inversion Hk2; subst. contradiction.
Qed.




Lemma find_by_id (l : list ForceVector) (v : ForceVector) :
  NoDup (map id l) -> In v l ->
  find (fun u => Nat.eqb (id u) (id v)) l = Some v.
Proof.
  induction l as [|u tl IH]; intros Hnd Hin; [destruct Hin|].
  simpl in *. inversion Hnd as [|? ? Hnotin Hnd']; subst.
  destruct Hin as [->|Hin].
  - now rewrite Nat.eqb_refl.
  - destruct (Nat.eqb_spec (id u) (id v)) as [Heq|Hne].
    + exfalso. apply Hnotin. rewrite Heq. now apply in_map.
    + now apply IH.
Qed.

(** What a longer run does to the identifiers: [nextId] never goes down,
    and a vector held later was held before or carries an identifier that
    had not been handed out before. *)
Lemma run_extension (events more : list Event) :
  (nextId (run events) <= nextId (run (events ++ more)))%nat
  /\ forall w, In w (vectors (run (events ++ more))) ->
               In w (vectors (run events))
               \/ (nextId (run events) <= id w)%nat.
Proof.
  induction more as [|ev more IH] using rev_ind.
  - rewrite app_nil_r. split; [lia | auto].
  - rewrite app_assoc, run_snoc. set (m := run (events ++ more)) in *.
    destruct IH as [Hn Hw].
    destruct (step_vectors m ev)
      as [(Hv & Hn' & _)|[(Hv & Hn' & _)|(v & Hv & Hn' & _ & Hvid & _)]];
      rewrite Hv, Hn'.
    + split; [exact Hn | exact Hw].
    + split; [exact Hn | intros w []].
    + split; [lia|]. intros w Hin. apply in_app_or in Hin.
      destruct Hin as [Hin|[<-|[]]]; [now apply Hw|].
      right. lia.
Qed.

Lemma NoDup_map_inj {A B : Type} (f : A -> B) (l : list A) (x x' : A) :
  NoDup (map f l) -> In x l -> In x' l -> f x = f x' -> x = x'.
Proof.
  induction l as [|a tl IH]; intros Hnd Hx Hx' Hf; [destruct Hx|].
  simpl in Hnd. inversion Hnd as [|? ? Hnotin Hnd']; subst.
  destruct Hx as [->|Hx], Hx' as [->|Hx']; auto.
  - exfalso. apply Hnotin. rewrite Hf. now apply in_map.
  - exfalso. apply Hnotin. rewrite <- Hf. now apply in_map.
Qed.

(** X21: identifiers are never reused.  Every vector the manager holds has
    an identifier below [nextId], different from that of every other
    vector it holds, and [getVectorById] of that identifier returns this
    vector; for an identifier not yet handed out it returns nothing.
    Whatever happens afterwards, [nextId] never goes down, so that a
    vector held later under the identifier of a vector held now is that
    very vector; in particular [clearVectors] empties the list and leaves
    [nextId] where it is. *)
Theorem getVectorById_round_trip (events : list Event) :
  NoDup (map id (vectors (run events)))
  /\ (forall v, In v (vectors (run events)) ->
        (id v < nextId (run events))%nat
        /\ getVectorById (run events) (id v) = Some v)
  /\ (forall i, (nextId (run events) <= i)%nat ->
        getVectorById (run events) i = None)
  /\ (forall more,
        (nextId (run events) <= nextId (run (events ++ more)))%nat)
  /\ (forall more v w,
        In v (vectors (run events)) ->
        In w (vectors (run (events ++ more))) ->
        id w = id v -> w = v)
  /\ (vectors (run (events ++ [VectorsCleared])) = []
      /\ nextId (run (events ++ [VectorsCleared])) = nextId (run events)).
Proof.
  destruct (run_invariant events) as (_ & _ & _ & _ & Hid & Hnd & _).
  rewrite Forall_forall in Hid.
  split; [exact Hnd|]. split; [|split; [|split; [|split]]].
  - intros v Hin. split; [now apply Hid|].
    unfold getVectorById. now apply find_by_id.
  - intros i Hi. unfold getVectorById.
    destruct (find _ _) as [u|] eqn:Hf; [|reflexivity].
    apply find_some in Hf. destruct Hf as [Hin Heq].
    apply Nat.eqb_eq in Heq. specialize (Hid u Hin). simpl in Hid. lia.
  - intros more. apply run_extension.
  - intros more v w Hv Hw Heq.
    destruct (proj2 (run_extension events more) w Hw) as [Hold|Hnew].
    + apply (NoDup_map_inj id _ _ _ Hnd Hold Hv Heq).
    + specialize (Hid v Hv). simpl in Hid. lia.
  - rewrite run_snoc. split; reflexivity.
Qed.

Lemma getVectorById_round_trip_witness :
  getVectorById (run mixedPlacement) 2
  = Some {| id := 2;
            forcePosition := {| vx := 0; vy := 2; vz := 0 |};
            direction :=
              normalize (subVectors {| vx := 0; vy := 0; vz := 0 |}
                                    {| vx := 0; vy := 2; vz := 0 |});
            magnitude :=
              Three.length (subVectors {| vx := 0; vy := 0; vz := 0 |}
                                       {| vx := 0; vy := 2; vz := 0 |}) |}.
Proof.
  destruct (getVectorById_round_trip mixedPlacement) as (_ & H & _).
  apply (H {| id := 2;
              forcePosition := {| vx := 0; vy := 2; vz := 0 |};
              direction :=
                normalize (subVectors {| vx := 0; vy := 0; vz := 0 |}
                                      {| vx := 0; vy := 2; vz := 0 |});
              magnitude :=
                Three.length (subVectors {| vx := 0; vy := 0; vz := 0 |}
                                         {| vx := 0; vy := 2; vz := 0 |}) |}).
  right. left. reflexivity.
Defined.

(** *** The placement state *)

Lemma adjustVectorDirection_flags (m : Manager) (key : string) :
  isPlacingVector (adjustVectorDirection m key) = isPlacingVector m
  /\ isWaitingForClick (adjustVectorDirection m key) = isWaitingForClick m
  /\ (tempArrow m <> None -> tempArrow (adjustVectorDirection m key) <> None)
  /\ (tempArrow m = None -> tempArrow (adjustVectorDirection m key) = None).
Proof.
  unfold adjustVectorDirection.
  destruct (tempArrow m) as [p|] eqn:Hp; [|rewrite Hp; tauto].
  repeat match goal with
         | |- context [if ?c then _ else _] => destruct c
         end;
    cbn [isPlacingVector isWaitingForClick tempArrow
         setTempArrow setTempDirection setTempMagnitude];
    rewrite ?Hp; repeat split; congruence.
Qed.

Lemma placement_invariant (events : list Event) :
  (isPlacingVector (run events) = true <-> tempArrow (run events) <> None)
  /\ (isPlacingVector (run events) = true ->
      isWaitingForClick (run events) = false).
Proof.
  induction events as [|ev events IH] using rev_ind.
  - simpl. split; [split; [discriminate | congruence] | discriminate].
  - rewrite run_snoc. set (m := run events) in *.
    destruct IH as [Harrow Hwait].
    destruct ev as [key|p|sp ep|]; simpl.
    + unfold onKeyDown. destruct (keyIs key "f" || keyIs key "F").
      * destruct (isPlacingVector m) eqn:Hpl;
          destruct (isWaitingForClick m) eqn:Hwt; cbn [negb andb].
        -- specialize (Hwait eq_refl). discriminate.
        -- unfold confirmVector.
           destruct (tempArrow m) as [o|] eqn:Hta.
           ++ simpl. split; [split; [discriminate | congruence]
                            | discriminate].
           ++ exfalso. now apply (proj1 Harrow eq_refl).
        -- rewrite Hpl. split; [exact Harrow | discriminate].
        -- unfold startPlacingVector. simpl. rewrite Hpl.
           split; [exact Harrow | discriminate].
      * destruct (keyIs key "Escape").
        -- unfold cancelPlacing. simpl.
           split; [split; [discriminate | congruence] | discriminate].
        -- destruct (isPlacingVector m) eqn:Hpl.
           ++ destruct (adjustVectorDirection_flags m key)
                as (Hp & Hw & Hs & Hn).
              rewrite Hp, Hw, Hpl. split.
              ** split; [intros _; apply Hs; now apply Harrow | reflexivity].
              ** exact Hwait.
           ++ rewrite Hpl. split; [exact Harrow | discriminate].
    + unfold onClick. destruct (isWaitingForClick m) eqn:Hwt; simpl.
      * split; [split; [discriminate | reflexivity] | reflexivity].
      * rewrite Hwt. tauto.
    + tauto.
    + split; [split; [discriminate | congruence] | discriminate].
Qed.

(** X27: while a vector is being placed the temporary arrow exists and the
    manager is not waiting for a click, so pressing F then always confirms:
    it appends one vector, with the next identifier and the direction and
    magnitude being edited, makes it the active vector and ends the
    placement. *)
Theorem confirm_places_vector (events : list Event) :
  isPlacingVector (run events) = true ->
  exists origin,
    tempArrow (run events) = Some origin
    /\ run (events ++ [KeyDown "f"])
       = {| vectors :=
              vectors (run events)
              ++ [{| id := nextId (run events); forcePosition := origin;
                     direction := tempDirection (run events);
                     magnitude := tempMagnitude (run events) |}];
            nextId := S (nextId (run events));
            activeVector :=
              Some {| id := nextId (run events); forcePosition := origin;
                      direction := tempDirection (run events);
                      magnitude := tempMagnitude (run events) |};
            isPlacingVector := false;
            isWaitingForClick := false;
            tempArrow := None;
            tempDirection := tempDirection (run events);
            tempMagnitude := tempMagnitude (run events) |}.
Proof.
  intros Hpl. destruct (placement_invariant events) as [Harrow Hwait].
  specialize (Hwait Hpl). apply Harrow in Hpl as Hta.
  destruct (tempArrow (run events)) as [origin|] eqn:Ho; [|congruence].
  exists origin. split; [reflexivity|].
  rewrite run_snoc. simpl. unfold onKeyDown. cbn [keyIs String.eqb].
  simpl. rewrite Hpl. simpl. unfold confirmVector. rewrite Ho, Hwait.
  reflexivity.
Qed.

Lemma confirm_places_vector_witness :
  exists origin,
    tempArrow (run [KeyDown "f"; Click {| vx := 2; vy := 0; vz := 1 |}])
    = Some origin
    /\ List.length
         (vectors (run ([KeyDown "f"; Click {| vx := 2; vy := 0; vz := 1 |}]
                        ++ [KeyDown "f"]))) = 1%nat.
Proof.
  destruct (confirm_places_vector
              [KeyDown "f"; Click {| vx := 2; vy := 0; vz := 1 |}] eq_refl)
    as (origin & Ho & Hrun).
  exists origin. split; [exact Ho|].
  rewrite Hrun. reflexivity.
Defined.

End ManagerExtras.

(** ** Properties of the block registry and of the stress test *)

Section RegistryExtras.
Import Three MaterialSystem FEASimulationEngine StressSpec Loads.
Import ForceVectorManager ManagerSpec Placements BlockRegistry.
Local Open Scope R_scope.

Lemma mapGet_mapSet_same (l : list (MeshRef * SimulationBlock))
      (key : MeshRef) (blk : SimulationBlock) :
  mapGet (mapSet l key blk) key = Some blk.
Proof.
  induction l as [|[k old] tl IH]; simpl.
  - now rewrite Nat.eqb_refl.
  - destruct (Nat.eqb_spec k key) as [->|Hne]; simpl.
    + now rewrite Nat.eqb_refl.
    + destruct (Nat.eqb_spec k key); [contradiction | exact IH].
Qed.

Lemma mapGet_mapSet_other (l : list (MeshRef * SimulationBlock))
      (key key' : MeshRef) (blk : SimulationBlock) :
  key' <> key -> mapGet (mapSet l key blk) key' = mapGet l key'.
Proof.
  intros Hne. induction l as [|[k old] tl IH]; simpl.
  - destruct (Nat.eqb_spec key key'); [congruence | reflexivity].
  - destruct (Nat.eqb_spec k key) as [->|Hk]; simpl.
    + destruct (Nat.eqb_spec key key'); [congruence | reflexivity].
    + destruct (Nat.eqb_spec k key'); [reflexivity | exact IH].
Qed.

Lemma mapGet_None (l : list (MeshRef * SimulationBlock)) (key : MeshRef) :
  mapGet l key = None <-> ~ In key (map fst l).
Proof.
  induction l as [|[k blk] tl IH]; simpl; [tauto|].
  destruct (Nat.eqb_spec k key) as [->|Hne].
  - split; [discriminate | intros H; exfalso; apply H; now left].
  - rewrite IH. split; [intros H [Hk|Hin]; auto | intros H Hin; apply H; auto].
Qed.

Lemma mapSet_new (l : list (MeshRef * SimulationBlock)) (key : MeshRef)
      (blk : SimulationBlock) :
  mapGet l key = None -> mapSet l key blk = l ++ [(key, blk)].
Proof.
  induction l as [|[k old] tl IH]; simpl; [reflexivity|].
  destruct (Nat.eqb_spec k key); [discriminate|].
  intros H. now rewrite IH.
Qed.

Lemma mapSet_keys_existing (l : list (MeshRef * SimulationBlock))
      (key : MeshRef) (blk : SimulationBlock) :
  mapGet l key <> None -> map fst (mapSet l key blk) = map fst l.
Proof.
  induction l as [|[k old] tl IH]; simpl; [congruence|].
  destruct (Nat.eqb_spec k key) as [->|Hne]; simpl; [reflexivity|].
  intros H. now rewrite IH.
Qed.

Lemma mapGet_delete (l : list (MeshRef * SimulationBlock))
      (key key' : MeshRef) :
  mapGet (mapDelete l key) key'
  = if Nat.eqb key' key then None else mapGet l key'.
Proof.
  unfold mapDelete. induction l as [|[k blk] tl IH]; simpl.
  - now destruct (Nat.eqb key' key).
  - destruct (Nat.eqb_spec k key) as [Hk|Hk]; simpl.
    + rewrite IH. destruct (Nat.eqb_spec key' key) as [Hk'|Hk'];
        [reflexivity|].
      destruct (Nat.eqb_spec k key'); [congruence | reflexivity].
    + destruct (Nat.eqb_spec k key') as [Hkk|Hkk].
      * destruct (Nat.eqb_spec key' key); [congruence | reflexivity].
      * exact IH.
Qed.

Lemma mapDelete_keys (l : list (MeshRef * SimulationBlock)) (key : MeshRef) :
  NoDup (map fst l) -> NoDup (map fst (mapDelete l key)).
Proof.
  unfold mapDelete. induction l as [|[k blk] tl IH]; simpl; intros H; auto.
  inversion H as [|? ? Hnotin Hnd]; subst.
  destruct (Nat.eqb k key); simpl; auto.
  constructor; auto. intros Hin. apply Hnotin.
  apply in_map_iff in Hin. destruct Hin as (kv & Hfst & Hkv).
  apply filter_In in Hkv. apply in_map_iff. exists kv. tauto.
Qed.

Lemma mapSet_keys_NoDup (l : list (MeshRef * SimulationBlock))
      (key : MeshRef) (blk : SimulationBlock) :
  NoDup (map fst l) -> NoDup (map fst (mapSet l key blk)).
Proof.
  intros Hnd. destruct (mapGet l key) as [old|] eqn:Hg.
  - rewrite mapSet_keys_existing; [exact Hnd | congruence].
  - rewrite (mapSet_new _ _ _ Hg), map_app. simpl.
    apply mapGet_None in Hg.
    clear - Hnd Hg. induction (map fst l) as [|x tl IH]; simpl.
    + constructor; [tauto | constructor].
    + inversion Hnd; subst. constructor.
      * intros Hin. apply in_app_or in Hin. destruct Hin as [Hin|[<-|[]]].
        -- contradiction.
        -- apply Hg. now left.
      * apply IH; auto. intros Hin. apply Hg. now right.
Qed.

(** X22: the registry behaves as a map keyed by mesh: after [addBlock] the
    mesh has the freshly built block and every other mesh has what it had;
    after [removeBlock] the mesh has none and every other mesh has what it
    had; both keep the keys distinct.  Registering a mesh that is already
    registered keeps its place in the iteration order and replaces its
    block by a fresh one; a new mesh goes to the end. *)
Theorem registry_round_trip (reg : Registry) (key : MeshRef) (m : Mesh)
        (boxSize : Vector3) (mat : MaterialType) (bc : BoundaryCondition) :
  getBlock (addBlock reg key m boxSize mat bc) key
  = Some (newSimulationBlock m boxSize mat bc)
  /\ getBlock (removeBlock reg key) key = None
  /\ (forall key', key' <> key ->
        getBlock (addBlock reg key m boxSize mat bc) key' = getBlock reg key'
        /\ getBlock (removeBlock reg key) key' = getBlock reg key')
  /\ (NoDup (map fst (entries reg)) ->
        NoDup (map fst (entries (addBlock reg key m boxSize mat bc)))
        /\ NoDup (map fst (entries (removeBlock reg key))))
  /\ (getBlock reg key <> None ->
        map fst (entries (addBlock reg key m boxSize mat bc))
        = map fst (entries reg))
  /\ (getBlock reg key = None ->
        entries (addBlock reg key m boxSize mat bc)
        = entries reg ++ [(key, newSimulationBlock m boxSize mat bc)]).
Proof.
  unfold getBlock, addBlock, removeBlock. cbn [entries].
  split; [apply mapGet_mapSet_same|].
  split; [rewrite mapGet_delete; now rewrite Nat.eqb_refl|].
  split; [|split; [|split]].
  - intros key' Hne. split; [now apply mapGet_mapSet_other|].
    rewrite mapGet_delete.
    destruct (Nat.eqb_spec key' key); [contradiction | reflexivity].
  - intros Hnd. split; [now apply mapSet_keys_NoDup | now apply mapDelete_keys].
  - apply mapSet_keys_existing.
  - apply mapSet_new.
Qed.

Lemma registry_round_trip_witness :
  entries (addBlock {| entries := []; registryScale := 5;
                       registryForce := None |}
                    7%nat (meshAt 0.5) unitScale STEEL FREE)
  = [(7%nat, steelCube)].
Proof.
  destruct (registry_round_trip
              {| entries := []; registryScale := 5; registryForce := None |}
              7%nat (meshAt 0.5) unitScale STEEL FREE)
    as (_ & _ & _ & _ & _ & H).
  apply H. reflexivity.
Defined.

(** *** Auto-registration *)

Lemma autoRegister_cons (reg : Registry) (obj : SceneObject)
      (objs : list SceneObject) :
  autoRegister reg (obj :: objs)
  = autoRegister
      (match obj with
       | MeshObject key m boxSize =>
           match getBlock reg key with
           | None => addBlock reg key m boxSize STEEL FREE
           | Some _ => reg
           end
       | OtherObject => reg
       end) objs.
Proof. reflexivity. Qed.

Lemma autoRegister_inv (reg : Registry) (objs : list SceneObject) :
  (forall key blk, getBlock reg key = Some blk ->
                   getBlock (autoRegister reg objs) key = Some blk)
  /\ (forall key m boxSize, In (MeshObject key m boxSize) objs ->
                            getBlock (autoRegister reg objs) key <> None)
  /\ (exists added,
        entries (autoRegister reg objs) = entries reg ++ added
        /\ Forall (fun kv => exists m boxSize,
                     In (MeshObject (fst kv) m boxSize) objs
                     /\ snd kv = newSimulationBlock m boxSize STEEL FREE)
                  added)
  /\ (NoDup (map fst (entries reg)) ->
      NoDup (map fst (entries (autoRegister reg objs))))
  /\ registryScale (autoRegister reg objs) = registryScale reg
  /\ registryForce (autoRegister reg objs) = registryForce reg.
Proof.
  revert reg. induction objs as [|obj objs IH]; intros reg.
  - simpl. repeat split; auto; try tauto.
    exists []. now rewrite app_nil_r.
  - rewrite autoRegister_cons.
    destruct obj as [key m boxSize|].
    + destruct (getBlock reg key) as [old|] eqn:Hg.
      * destruct (IH reg) as (Hkeep & Hall & (added & He & Hadd) & Hnd & Hs & Hf).
        split; [exact Hkeep|]. split; [|split; [|tauto]].
        -- intros k' m' b' [[= -> -> ->]|Hin]; [|eauto].
           rewrite (Hkeep _ _ Hg). discriminate.
        -- exists added. split; [exact He|].
           eapply Forall_impl; [|exact Hadd].
           intros kv (m' & b' & Hin & Hb). exists m', b'. split; auto.
           now right.
      * set (reg1 := addBlock reg key m boxSize STEEL FREE).
        destruct (IH reg1) as (Hkeep & Hall & (added & He & Hadd) & Hnd & Hs & Hf).
        assert (Hent : entries reg1
                       = entries reg
                         ++ [(key, newSimulationBlock m boxSize STEEL FREE)])
          by (apply mapSet_new; exact Hg).
        split; [|split; [|split; [|split]]].
        -- intros k' blk Hk'. apply Hkeep. unfold reg1, getBlock, addBlock.
           cbn [entries]. rewrite mapGet_mapSet_other; [exact Hk'|].
           intros ->. unfold getBlock in *. congruence.
        -- intros k' m' b' [[= <- <- <-]|Hin]; [|eauto].
           rewrite (Hkeep key (newSimulationBlock m boxSize STEEL FREE));
             [discriminate|].
           unfold reg1, getBlock, addBlock. cbn [entries].
           apply mapGet_mapSet_same.
        -- exists ((key, newSimulationBlock m boxSize STEEL FREE) :: added).
           split; [rewrite He, Hent; now rewrite <- app_assoc|].
           constructor.
           ++ exists m, boxSize. split; [now left | reflexivity].
           ++ eapply Forall_impl; [|exact Hadd].
              intros kv (m' & b' & Hin & Hb). exists m', b'. split; auto.
              now right.
        -- intros Hn. apply Hnd. unfold reg1, addBlock. cbn [entries].
           now apply mapSet_keys_NoDup.
        -- split; [exact Hs | exact Hf].
    + destruct (IH reg) as (Hkeep & Hall & (added & He & Hadd) & Hnd & Hs & Hf).
      split; [exact Hkeep|]. split; [|split; [|tauto]].
      * intros k' m' b' [Hd|Hin]; [discriminate | eauto].
      * exists added. split; [exact He|].
        eapply Forall_impl; [|exact Hadd].
        intros kv (m' & b' & Hin & Hb). exists m', b'. split; auto. now right.
Qed.

Lemma autoRegister_noop (reg : Registry) (objs : list SceneObject) :
  (forall key m boxSize, In (MeshObject key m boxSize) objs ->
                         getBlock reg key <> None) ->
  autoRegister reg objs = reg.
Proof.
  induction objs as [|obj objs IH]; intros H; [reflexivity|].
  rewrite autoRegister_cons. destruct obj as [key m boxSize|].
  - destruct (getBlock reg key) eqn:Hg.
    + apply IH. intros k' m' b' Hin. apply (H k' m' b'). now right.
    + exfalso. apply (H key m boxSize); [now left | exact Hg].
  - apply IH. intros k' m' b' Hin. apply (H k' m' b'). now right.
Qed.

(** X23: the auto-registration of the stress test leaves every block it
    finds registered as it is, failure flag and stress included, and in
    its place; afterwards every mesh among the objects is registered; what
    it adds, at the end and in object order, are fresh Steel/Free blocks of
    those meshes; it keeps the keys distinct and running it again changes
    nothing. *)
Theorem autoRegister_spec (reg : Registry) (objs : list SceneObject) :
  (forall key blk, getBlock reg key = Some blk ->
                   getBlock (autoRegister reg objs) key = Some blk)
  /\ (forall key m boxSize, In (MeshObject key m boxSize) objs ->
                            getBlock (autoRegister reg objs) key <> None)
  /\ (exists added,
        entries (autoRegister reg objs) = entries reg ++ added
        /\ Forall (fun kv => exists m boxSize,
                     In (MeshObject (fst kv) m boxSize) objs
                     /\ snd kv = newSimulationBlock m boxSize STEEL FREE)
                  added)
  /\ (NoDup (map fst (entries reg)) ->
      NoDup (map fst (entries (autoRegister reg objs))))
  /\ autoRegister (autoRegister reg objs) objs = autoRegister reg objs.
Proof.
  destruct (autoRegister_inv reg objs) as (Hkeep & Hall & Hadd & Hnd & _).
  repeat (split; [assumption|]).
  now apply autoRegister_noop.
Qed.

Lemma autoRegister_spec_witness :
  getBlock
    (autoRegister
       {| entries := [(7%nat, setFailed steelCube true)];
          registryScale := 5; registryForce := None |}
       [MeshObject 7%nat (meshAt 0.5) unitScale; OtherObject;
        MeshObject 9%nat (meshAt 6) unitScale]) 7%nat
  = Some (setFailed steelCube true).
Proof.
  destruct (autoRegister_spec
              {| entries := [(7%nat, setFailed steelCube true)];
                 registryScale := 5; registryForce := None |}
              [MeshObject 7%nat (meshAt 0.5) unitScale; OtherObject;
               MeshObject 9%nat (meshAt 6) unitScale]) as (H & _).
  apply H. reflexivity.
Defined.

(** *** The stress test *)

Lemma nth_error_combine_map {A B C} (f : B -> C) (l : list (A * B)) (k : nat)
      (a : A) (x : B) :
  nth_error l k = Some (a, x) ->
  nth_error (combine (map fst l) (map f (map snd l))) k = Some (a, f x).
Proof.
  revert k. induction l as [|[a' x'] tl IH]; intros k Hk.
  - destruct k; discriminate.
  - destruct k as [|k]; simpl in *.
    + now injection Hk as -> ->.
    + now apply IH.
Qed.

Lemma combine_map_keys {A B C} (f : B -> C) (l : list (A * B)) :
  map fst (combine (map fst l) (map f (map snd l))) = map fst l.
Proof.
  induction l as [|[a x] tl IH]; simpl; [reflexivity | now rewrite IH].
Qed.

(** X24: the stress test does nothing without an active vector.  With the
    active vector of the manager, whatever events produced it, it runs the
    simulation on the registered and the newly auto-registered blocks,
    keeps their keys and order, leaves every mesh among the objects
    registered, and reports for each block the stress
    [magnitude * |alignment| * (1 / max(1, distance^2)) * 1e8 / limit] plus
    self-weight: the manager never hands over a negative magnitude. *)
Theorem runStressTest_outcome (events : list Event) (reg : Registry)
        (objs : list SceneObject) :
  (activeVector (run events) = None ->
     runStressTest (activeVector (run events)) reg objs = (reg, None))
  /\ (forall fv,
        activeVector (run events) = Some fv ->
        exists reg2 res,
          runStressTest (activeVector (run events)) reg objs
          = (reg2, Some res)
          /\ map fst (entries reg2)
             = map fst (entries (autoRegister reg objs))
          /\ (forall key m boxSize,
                In (MeshObject key m boxSize) objs ->
                getBlock reg2 key <> None)
          /\ (forall k key blk,
                nth_error (entries (autoRegister reg objs)) k
                = Some (key, blk) ->
                exists blk',
                  nth_error (entries reg2) k = Some (key, blk')
                  /\ stress (properties blk')
                     = forceStressRatio fv blk + selfWeightRatio blk
                  /\ nth_error (results res) k
                     = Some (stress (properties blk'),
                             failed (properties blk')))).
Proof.
  split; [intros ->; reflexivity|].
  intros fv Hfv. rewrite Hfv.
  destruct (run_invariant events) as (_ & _ & Hadm & Hact & _).
  rewrite Forall_forall in Hadm.
  destruct (Hadm fv (Hact fv Hfv)) as [Hmag _].
  set (reg1 := autoRegister reg objs).
  unfold runStressTest. fold reg1. unfold runKeyed, runSimulation.
  cbn [toEngine blocks deformationScale currentForceVector].
  do 2 eexists. split; [reflexivity|]. cbn [entries results].
  split; [apply combine_map_keys|]. split.
  - intros key m boxSize Hin.
    destruct (autoRegister_inv reg objs) as (_ & Hall & _).
    specialize (Hall key m boxSize Hin). fold reg1 in Hall.
    unfold getBlock in *. cbn [entries].
    rewrite mapGet_None in *. rewrite combine_map_keys. exact Hall.
  - intros k key blk Hk.
    exists (simulateBlock (registryScale reg1) fv blk).
    split; [now apply nth_error_combine_map|].
    split; [now apply simulateBlock_formula|].
    rewrite !nth_error_map, Hk. reflexivity.
Qed.

Lemma runStressTest_outcome_witness :
  exists reg2 res,
    runStressTest (activeVector (run tiltedPlacement))
      {| entries := []; registryScale := 5; registryForce := None |}
      [MeshObject 7%nat (meshAt 0.5) unitScale]
    = (reg2, Some res)
    /\ getBlock reg2 7%nat <> None.
Proof.
  assert (H : exists fv, activeVector (run tiltedPlacement) = Some fv)
    by (eexists; reflexivity).
  destruct H as [fv Hfv].
  destruct (runStressTest_outcome tiltedPlacement
              {| entries := []; registryScale := 5; registryForce := None |}
              [MeshObject 7%nat (meshAt 0.5) unitScale]) as [_ Hrun].
  destruct (Hrun fv Hfv) as (reg2 & res & Heq & _ & Hreg & _).
  exists reg2, res. split; [exact Heq|].
  apply (Hreg 7%nat (meshAt 0.5) unitScale). now left.
Defined.

End RegistryExtras.

(** ** The stress engine under a stronger or a reversed force *)

Section ForceExtras.
Import Three MaterialSystem FEASimulationEngine StressSpec Loads ForceSpec.
Local Open Scope R_scope.

Lemma simulateBlock_monotone (sf : R) (fv1 fv2 : ForceVector)
      (blk : SimulationBlock) :
  forcePosition fv1 = forcePosition fv2 ->
  direction fv1 = direction fv2 ->
  0 <= magnitude fv1 <= magnitude fv2 ->
  fromLibrary blk ->
  stress (properties (simulateBlock sf fv1 blk))
  <= stress (properties (simulateBlock sf fv2 blk))
  /\ (failed (properties (simulateBlock sf fv1 blk)) = true ->
      failed (properties (simulateBlock sf fv2 blk)) = true).
Proof.
  intros Hp Hd [Hm1 Hm12] [t Ht].
  assert (Hratio :
    Rabs (effectiveForceOn fv1 (mesh (properties blk)))
    / limitByAlignment (material (properties blk))
        (alignmentTo fv1 (mesh (properties blk)))
    <= Rabs (effectiveForceOn fv2 (mesh (properties blk)))
       / limitByAlignment (material (properties blk))
           (alignmentTo fv2 (mesh (properties blk)))).
  { rewrite !Rabs_pos_eq by (apply effectiveForceOn_nonneg; lra).
    unfold effectiveForceOn, alignmentTo. rewrite Hp, Hd, Ht.
    set (a := dot _ _). set (d := distanceTo _ _).
    pose proof (library_limits_pos t a) as HL.
    pose proof (Rabs_pos a) as Ha.
    pose proof (distanceFactor_pos d) as Hdf.
    apply Rmult_le_compat_r; [left; now apply Rinv_0_lt_compat|].
    apply Rmult_le_compat_r; [lra|].
    apply Rmult_le_compat_r; [lra|].
    apply Rmult_le_compat_r; [lra | exact Hm12]. }
  rewrite !simulateBlock_stress, !simulateBlock_failed.
  split; [lra|].
  destruct (Rge_dec _ 1) as [H1|H1]; destruct (Rge_dec _ 1) as [H2|H2];
    auto; lra.
Qed.

Lemma maxStress_fold_monotone (f1 f2 : SimulationBlock -> SimulationBlock)
      (l : list SimulationBlock) (acc1 acc2 : R) :
  acc1 <= acc2 ->
  (forall blk, In blk l ->
     stress (properties (f1 blk)) <= stress (properties (f2 blk))) ->
  fold_left (fun acc blk => Rmax acc (stress (properties blk)))
            (map f1 l) acc1
  <= fold_left (fun acc blk => Rmax acc (stress (properties blk)))
               (map f2 l) acc2.
Proof.
  revert acc1 acc2. induction l as [|b tl IH]; intros acc1 acc2 Hacc H;
    simpl; [exact Hacc|].
  apply IH; [|intros blk Hin; apply H; now right].
  apply Rmax_lub.
  - eapply Rle_trans; [exact Hacc | apply Rmax_l].
  - eapply Rle_trans; [apply H; now left | apply Rmax_r].
Qed.

Lemma failed_count_monotone (f1 f2 : SimulationBlock -> SimulationBlock)
      (l : list SimulationBlock) :
  (forall blk, In blk l ->
     failed (properties (f1 blk)) = true ->
     failed (properties (f2 blk)) = true) ->
  (List.length (filter (fun blk => failed (properties blk)) (map f1 l))
   <= List.length (filter (fun blk => failed (properties blk)) (map f2 l)))%nat.
Proof.
  induction l as [|b tl IH]; intros H; simpl; [lia|].
  assert (IH' := IH (fun blk Hin => H blk (or_intror Hin))).
  destruct (failed (properties (f1 b))) eqn:Hf1.
  - rewrite (H b (or_introl eq_refl) Hf1). simpl. lia.
  - destruct (failed (properties (f2 b))); simpl; lia.
Qed.

(** X28: with the blocks, the origin and the direction held fixed and all
    materials from the library, a larger non-negative magnitude never
    lowers [maxStress], never lowers [failedBlocks] and never clears the
    failed flag the run reports for a block. *)
Theorem runSimulation_summary_monotone (e : Engine) (fv1 fv2 : ForceVector) :
  forcePosition fv1 = forcePosition fv2 ->
  direction fv1 = direction fv2 ->
  0 <= magnitude fv1 <= magnitude fv2 ->
  (forall blk, In blk (blocks e) -> fromLibrary blk) ->
  maxStress (snd (runSimulation e fv1)) <= maxStress (snd (runSimulation e fv2))
  /\ (failedBlocks (snd (runSimulation e fv1))
      <= failedBlocks (snd (runSimulation e fv2)))%nat
  /\ (forall k s1 s2 f2,
        nth_error (results (snd (runSimulation e fv1))) k = Some (s1, true) ->
        nth_error (results (snd (runSimulation e fv2))) k = Some (s2, f2) ->
        f2 = true).
Proof.
  intros Hp Hd Hm Hlib.
  cbn [runSimulation snd maxStress failedBlocks results].
  split; [|split].
  - apply maxStress_fold_monotone; [lra|].
    intros blk Hin. now apply simulateBlock_monotone; auto.
  - apply failed_count_monotone.
    intros blk Hin. now apply simulateBlock_monotone; auto.
  - intros k s1 s2 f2 H1 H2.
    rewrite map_map, nth_error_map in H1, H2.
    destruct (nth_error (blocks e) k) as [blk|] eqn:Hk; [|discriminate].
    simpl in H1, H2. injection H1 as _ Hf1. injection H2 as _ <-.
    apply nth_error_In in Hk.
    now apply (simulateBlock_monotone _ fv1 fv2 blk Hp Hd Hm (Hlib _ Hk)).
Qed.

Lemma runSimulation_summary_monotone_witness :
  maxStress (snd (runSimulation cubeEngine (pushDown 2 1)))
  <= maxStress (snd (runSimulation cubeEngine (pushDown 2 3))).
Proof.
  apply (runSimulation_summary_monotone cubeEngine
           (pushDown 2 1) (pushDown 2 3)).
  - reflexivity.
  - reflexivity.
  - simpl; lra.
  - intros blk [<-|[]]. exists STEEL. reflexivity.
Defined.

Lemma reverse_alignment (fv : ForceVector) (m : Mesh) :
  alignmentTo (reverseForce fv) m = - alignmentTo fv m.
Proof.
  unfold alignmentTo, reverseForce, dot, multiplyScalar. simpl. ring.
Qed.

(** X29: reversing the direction of a force negates every alignment and
    leaves every effective force as it is, so it exchanges compression and
    tension and keeps shear; a block whose material is equally strong in
    tension and in compression comes out of the run with the same
    stress. *)
Theorem reverseForce_swaps_tension_compression (fv : ForceVector) (m : Mesh) :
  alignmentTo (reverseForce fv) m = - alignmentTo fv m
  /\ effectiveForceOn (reverseForce fv) m = effectiveForceOn fv m
  /\ (forall mat,
        limitByAlignment mat (alignmentTo (reverseForce fv) m)
        = if Rgt_dec (alignmentTo fv m) 0.7 then maxTension mat
          else if Rlt_dec (alignmentTo fv m) (-0.7) then maxCompression mat
          else maxShear mat)
  /\ (forall sf blk,
        mesh (properties blk) = m ->
        maxTension (material (properties blk))
        = maxCompression (material (properties blk)) ->
        stress (properties (simulateBlock sf (reverseForce fv) blk))
        = stress (properties (simulateBlock sf fv blk))).
Proof.
  pose proof (reverse_alignment fv m) as Ha.
  assert (He : effectiveForceOn (reverseForce fv) m = effectiveForceOn fv m).
  { unfold effectiveForceOn. rewrite Ha, Rabs_Ropp. reflexivity. }
  assert (Hl : forall mat,
            limitByAlignment mat (alignmentTo (reverseForce fv) m)
            = if Rgt_dec (alignmentTo fv m) 0.7 then maxTension mat
              else if Rlt_dec (alignmentTo fv m) (-0.7) then maxCompression mat
              else maxShear mat).
  { intros mat. unfold limitByAlignment. rewrite Ha.
    set (a := alignmentTo fv m).
    destruct (Rgt_dec (- a) 0.7), (Rlt_dec (- a) (-0.7)),
             (Rgt_dec a 0.7), (Rlt_dec a (-0.7)); try reflexivity; lra. }
  split; [exact Ha|]. split; [exact He|]. split; [exact Hl|].
  intros sf blk Hm Heq. rewrite !simulateBlock_stress. rewrite Hm, He, Hl.
  f_equal. f_equal. unfold limitByAlignment.
  destruct (Rgt_dec _ 0.7); [exact Heq|].
  destruct (Rlt_dec _ (-0.7)); [now rewrite Heq | reflexivity].
Qed.

Lemma reverseForce_swaps_tension_compression_witness :
  stress (properties (simulateBlock 5 (reverseForce (pushDown 2 1)) steelCube))
  = stress (properties (simulateBlock 5 (pushDown 2 1) steelCube)).
Proof.
  destruct (reverseForce_swaps_tension_compression
              (pushDown 2 1) (mesh (properties steelCube)))
    as (_ & _ & _ & H).
  apply H; reflexivity.
Defined.

End ForceExtras.
